(** * bioagent-twitter-post: the polling-and-delivery pipeline of twitter_bot.js

    A shallow embedding of the [TwitterBot] class of [twitter_bot.js]
    (content cleaner, rate-limit tracker, ledger, source poller, delivery
    engine, poll cycle) together with the properties its specification
    states about it.

    Conventions of the embedding.
    - A JavaScript string is its sequence of code units; the code units are
      taken in the range 0..255 (ISO Latin-1), so a string is a
      [list ascii] where the algorithms walk over it and a [string] where
      it is only stored and compared.
    - JavaScript numbers that the bot uses are integers (times in
      milliseconds, counters, header values): they are [Z].  [null] is
      [None].
    - The id of a source row is the JavaScript value the [pg] driver
      returns for the column [id]: a string for a text, uuid or bigint
      column, a number for an integer column.  The ledger column
      [record_id] is VARCHAR, so the ledger holds the text of an id.
    - The collaborators (the two PostgreSQL stores, the Twitter client, the
      clock) are explicit: the bot state carries the clock and the ledger
      table, and an environment of oracles answers the i-th call made to
      each collaborator. *)

From Stdlib Require Import ZArith NArith List Ascii String Bool Lia DecimalString.
From stdpp Require Import base gmap strings list.

Import ListNotations.
Local Open Scope Z_scope.

(** ** JavaScript string primitives used by the bot *)

Module Js.

Definition jsstring := list ascii.

Definition code (c : ascii) : N := N_of_ascii c.

(** WhiteSpace and LineTerminator code units below 256: the characters
    [String.prototype.trim] strips and the regular-expression class \s
    accepts. *)
Definition isWhiteSpace (c : ascii) : bool :=
  let n := code c in
  ((9 <=? n) && (n <=? 13) || (n =? 32) || (n =? 160))%N.

(** The characters the regular-expression atom [.] refuses. *)
Definition isLineTerminator (c : ascii) : bool :=
  let n := code c in ((n =? 10) || (n =? 13))%N.

Definition isDigit (c : ascii) : bool :=
  let n := code c in ((48 <=? n) && (n <=? 57))%N.

Definition isUpperAZ (c : ascii) : bool :=
  let n := code c in ((65 <=? n) && (n <=? 90))%N.

Definition isLowerAZ (c : ascii) : bool :=
  let n := code c in ((97 <=? n) && (n <=? 122))%N.

(** [toLowerCase] on one code unit: A..Z and the Latin-1 capitals
    (0xC0..0xDE without the multiplication sign 0xD7) move up by 32. *)
Definition toLowerChar (c : ascii) : ascii :=
  let n := code c in
  if (isUpperAZ c || ((192 <=? n) && (n <=? 222) && negb (n =? 215)))%N
  then ascii_of_N (n + 32) else c.

Definition toLowerCase (s : jsstring) : jsstring := map toLowerChar s.

Fixpoint trimStart (s : jsstring) : jsstring :=
  match s with
  | [] => []
  | c :: r => if isWhiteSpace c then trimStart r else s
  end.

Definition trimEnd (s : jsstring) : jsstring := rev (trimStart (rev s)).

Definition trim (s : jsstring) : jsstring := trimEnd (trimStart s).

Fixpoint startsWith (p s : jsstring) : bool :=
  match p, s with
  | [], _ => true
  | _ :: _, [] => false
  | a :: p', b :: s' => Ascii.eqb a b && startsWith p' s'
  end.

(** [s.includes(p)] *)
Fixpoint includes (s p : jsstring) : bool :=
  startsWith p s ||
  match s with
  | [] => false
  | _ :: r => includes r p
  end.

Definition newline : ascii := ascii_of_N 10.

Definition isNewline (c : ascii) : bool := Ascii.eqb c newline.

(** [s.split('\n')]: never empty, the empty string gives one empty line. *)
Fixpoint split (s : jsstring) : list jsstring :=
  match s with
  | [] => [[]]
  | c :: r =>
      if isNewline c then [] :: split r
      else match split r with
           | l :: ls => (c :: l) :: ls
           | [] => [[c]]
           end
  end.

(** [lines.join('\n')] *)
Fixpoint join (ls : list jsstring) : jsstring :=
  match ls with
  | [] => []
  | l :: rest =>
      match rest with
      | [] => l
      | _ :: _ => l ++ newline :: join rest
      end
  end.

Definition isEmpty (s : jsstring) : bool :=
  match s with [] => true | _ :: _ => false end.

(** *** Regular expressions

    The three patterns of the cleaner are anchored at the start of the
    line and open at the end, without flags.  They are matched with
    Brzozowski derivatives: [test r s] holds when some prefix of [s] is
    in the language of [r]. *)

Inductive regex : Type :=
| Void : regex
| Eps : regex
| Class : (ascii -> bool) -> regex
| Cat : regex -> regex -> regex
| Alt : regex -> regex -> regex
| Star : regex -> regex.

Fixpoint nullable (r : regex) : bool :=
  match r with
  | Void => false
  | Eps => true
  | Class _ => false
  | Cat a b => nullable a && nullable b
  | Alt a b => nullable a || nullable b
  | Star _ => true
  end.

Fixpoint deriv (c : ascii) (r : regex) : regex :=
  match r with
  | Void => Void
  | Eps => Void
  | Class p => if p c then Eps else Void
  | Cat a b =>
      if nullable a then Alt (Cat (deriv c a) b) (deriv c b)
      else Cat (deriv c a) b
  | Alt a b => Alt (deriv c a) (deriv c b)
  | Star a => Cat (deriv c a) (Star a)
  end.

Fixpoint test (r : regex) (s : jsstring) : bool :=
  nullable r ||
  match s with
  | [] => false
  | c :: s' => test (deriv c r) s'
  end.

Definition Plus (r : regex) : regex := Cat r (Star r).

Fixpoint Times (n : nat) (r : regex) : regex :=
  match n with
  | O => Eps
  | S k => Cat r (Times k r)
  end.

Definition Lit (c : ascii) : regex := Class (Ascii.eqb c).

Definition Dot : regex := Class (fun c => negb (isLineTerminator c)).

Definition Digit : regex := Class isDigit.

End Js.

(** ** Content Cleaner: [cleanAnswerForTwitter] *)

Module Cleaner.
Import Js.

Definition marker : jsstring := list_ascii_of_string "science papers:".

Definition doiPrefix : jsstring := list_ascii_of_string "10.".

(** /^[A-Z][a-z]+.*\d{4}\.\d{2}\.\d{2}/ *)
Definition paperRefRegex : regex :=
  Cat (Class isUpperAZ)
    (Cat (Plus (Class isLowerAZ))
       (Cat (Star Dot)
          (Cat (Times 4 Digit)
             (Cat (Lit ".")
                (Cat (Times 2 Digit)
                   (Cat (Lit ".") (Times 2 Digit))))))).

(** /^[A-Z\s]+ \d/ *)
Definition headingRegex : regex :=
  Cat (Plus (Class (fun c => isUpperAZ c || isWhiteSpace c)))
    (Cat (Lit " ") Digit).

(** The test of the look-ahead: the next non-blank line still looks like
    a paper reference. *)
Definition looksLikePaper (nextLine : jsstring) : bool :=
  test paperRefRegex nextLine
  || includes nextLine doiPrefix
  || test headingRegex nextLine.

Definition hasMarker (line : jsstring) : bool :=
  includes (toLowerCase (trim line)) marker.

(** The while loop that moves [nextContentIndex] past blank lines. *)
Fixpoint skipBlank (rest : list jsstring) : list jsstring :=
  match rest with
  | [] => []
  | l :: rest' => if isEmpty (trim l) then skipBlank rest' else rest
  end.

(** The value of [skipMode] after the blank-line check of one iteration
    that entered with [skipMode = true]; [rest] is [lines[i+1..]]. *)
Definition stillSkipping (trimmed : jsstring) (rest : list jsstring) : bool :=
  if isEmpty trimmed then
    match skipBlank rest with
    | [] => true
    | next :: _ => looksLikePaper (trim next)
    end
  else true.

(** The for loop over [lines[i..]], entered with the current [skipMode];
    the result is what the loop pushes onto [cleanedLines] from there on. *)
Fixpoint cleanLines (lines : list jsstring) (skipMode : bool) : list jsstring :=
  match lines with
  | [] => []
  | line :: rest =>
      let trimmed := trim line in
      if includes (toLowerCase trimmed) marker then cleanLines rest true
      else if skipMode then
        if stillSkipping trimmed rest then cleanLines rest true
        else line :: cleanLines rest false
      else line :: cleanLines rest false
  end.

Definition clean (answer : jsstring) : jsstring :=
  trim (join (cleanLines (split answer) false)).

End Cleaner.

Definition cleanAnswerForTwitter (answer : string) : string :=
  string_of_list_ascii (Cleaner.clean (list_ascii_of_string answer)).

(** The line feed, and the two texts of the cleaner examples. *)
Definition lf : string := String Js.newline EmptyString.

Definition citedAnswer : string :=
  "Hello" +:+ lf +:+ "Science papers:" +:+ lf +:+ "Smith 2020.01.01" +:+ lf
  +:+ "10.1234/x".

Definition plainAnswer : string :=
  "Hello" +:+ lf +:+ lf +:+ "More content".

(** ** Data model *)

(** The id of a source row as the bot holds it: a string or a number.
    A [Set] of such values tells the two apart ([7] is not ['7']).
    [text] is the parameter the driver sends for an id, a number being
    written in decimal ([Number.prototype.toString], for the integers of an
    integer column), which is what the VARCHAR column [record_id] stores. *)
Module Id.
Inductive t : Type :=
  | Str (s : string)
  | Num (n : Z).

Definition text (i : t) : string :=
  match i with
  | Str s => s
  | Num n => NilZero.string_of_int (Z.to_int n)
  end.
End Id.

#[global] Instance Id_eq_dec : EqDecision Id.t.
Proof. solve_decision. Defined.

#[global] Instance Id_countable : Countable Id.t.
Proof.
  refine (inj_countable'
            (fun i => match i with Id.Str s => inl s | Id.Num n => inr n end)
            (fun v => match v with inl s => Id.Str s | inr n => Id.Num n end) _).
  intros []; reflexivity.
Defined.

(** A row of the source table [twitter_answers] as the poller reads it.
    A column that is NULL is [None]. *)
Module Answer.
Record row : Type := {
  id : Id.t;
  answer : option string;
  tweet_id : option string;
  poi_transaction : option string;
  created_at : Z
}.
End Answer.

(** A row of the ledger table [processed_records]. *)
Module Ledger.
Record row : Type := {
  record_id : string;
  processed_at : Z;
  posted_tweet_id : option string;
  reply_to_tweet_id : option string;
  status : string;
  content_length : option Z;
  poi_transaction : option string;
  created_at : Z;
  updated_at : Z
}.
End Ledger.

(** [this.stats] *)
Record Stats : Type := {
  totalProcessed : Z;
  successfulPosts : Z;
  failedPosts : Z;
  skippedRecords : Z;
  errors : Z;
  rateLimitHits : Z;
  totalWaitTime : Z
}.

(** One entry of [this.rateLimits]. *)
Record RateLimit : Type := {
  remaining : option Z;
  resetTime : option Z;
  limit : option Z;
  lastCheck : option Z
}.

Module Endpoint.
Inductive t : Type := tweets | lookup.
End Endpoint.

(** [this.config] *)
Record Config : Type := {
  minDelayBetweenPosts : Z;
  maxDelayBetweenPosts : Z;
  rateLimitBackoffMultiplier : Z;
  maxRetries : Z;
  retryDelayMs : Z
}.

(** The values the constructor assigns. *)
Definition defaultConfig : Config := {|
  minDelayBetweenPosts := 2000;
  maxDelayBetweenPosts := 30000;
  rateLimitBackoffMultiplier := 2;
  maxRetries := 3;
  retryDelayMs := 5000
|}.

(** The rate-limit headers of a Twitter response; a header holds a decimal
    integer and is given by the value [parseInt] reads from it. *)
Record Headers : Type := {
  x_rate_limit_remaining : option Z;
  x_rate_limit_reset : option Z;
  x_rate_limit_limit : option Z
}.

(** What the bot reads of an error thrown by the Twitter client (or by the
    runtime): [error.code], [error.data.title], [error.data.detail],
    [error.message], [error.headers]. *)
Module ApiError.
Record t : Type := {
  code : option Z;
  title : option string;
  detail : option string;
  message : string;
  headers : option Headers
}.
End ApiError.

(** The result of [rwClient.v2.singleTweet]: the headers of the response,
    or the error thrown. *)
Definition LookupResponse : Type := (option Headers + ApiError.t)%type.

(** The result of [rwClient.v2.tweet]: [tweet.data.id] and [tweet.headers],
    or the error thrown. *)
Definition TweetResponse : Type := (string * option Headers + ApiError.t)%type.

Inductive Store : Type := Main | Railway.

(** The collaborators.  Each oracle answers the i-th call made to it:
    - [singleTweet] and [tweet] are the two operations of the Twitter client;
    - [railwayUp i] tells whether the i-th query attempt on the Railway
      store (reconnection included) goes through;
    - [mainSelect i since] is the outcome of the i-th attempt of the SELECT
      on [twitter_answers] with parameter [since] (created_at > $1, newest
      first, at most 50): the rows it returns, or [None] when it throws. *)
Record Env : Type := {
  singleTweet : nat -> LookupResponse;
  tweet : nat -> TweetResponse;
  railwayUp : nat -> bool;
  mainSelect : nat -> Z -> option (list Answer.row)
}.

Inductive Level : Type := ERROR | WARN | INFO | SUCCESS | DEBUG.

(** The four places where the bot sleeps on a timer. *)
Inductive Timer : Type :=
| RateLimitChunk   (* waitForRateLimit, one slice *)
| PostDelay        (* rateLimitedDelay *)
| Backoff          (* postToTwitter, before a retry *)
| QueryRetry.      (* executeQuery, between attempts *)

(** What the bot does that is visible from outside, in order. *)
Inductive Event : Type :=
| Log (level : Level) (message : string)
| Sleep (why : Timer) (ms : Z)
| CallSingleTweet (tweetId : option string)
| CallTweet (text : string) (in_reply_to_tweet_id : option string)
| CallQuery (store : Store).

(** The mutable fields of the bot, the clock, the ledger table of the
    Railway store and the number of calls made so far to each oracle. *)
Record Bot : Type := {
  now : Z;
  lastCheckTime : Z;
  processedIds : gset Id.t;
  isRunning : bool;
  stats : Stats;
  rateLimits : Endpoint.t -> RateLimit;
  processed_records : list Ledger.row;
  singleTweetCalls : nat;
  tweetCalls : nat;
  railwayAttempts : nat;
  mainAttempts : nat;
  trace : list Event
}.

(** *** Field updates *)

Definition set_now (v : Z) (b : Bot) : Bot :=
  {| now := v; lastCheckTime := lastCheckTime b; processedIds := processedIds b;
     isRunning := isRunning b; stats := stats b; rateLimits := rateLimits b;
     processed_records := processed_records b;
     singleTweetCalls := singleTweetCalls b; tweetCalls := tweetCalls b;
     railwayAttempts := railwayAttempts b; mainAttempts := mainAttempts b;
     trace := trace b |}.

Definition set_lastCheckTime (v : Z) (b : Bot) : Bot :=
  {| now := now b; lastCheckTime := v; processedIds := processedIds b;
     isRunning := isRunning b; stats := stats b; rateLimits := rateLimits b;
     processed_records := processed_records b;
     singleTweetCalls := singleTweetCalls b; tweetCalls := tweetCalls b;
     railwayAttempts := railwayAttempts b; mainAttempts := mainAttempts b;
     trace := trace b |}.

Definition set_processedIds (v : gset Id.t) (b : Bot) : Bot :=
  {| now := now b; lastCheckTime := lastCheckTime b; processedIds := v;
     isRunning := isRunning b; stats := stats b; rateLimits := rateLimits b;
     processed_records := processed_records b;
     singleTweetCalls := singleTweetCalls b; tweetCalls := tweetCalls b;
     railwayAttempts := railwayAttempts b; mainAttempts := mainAttempts b;
     trace := trace b |}.

Definition set_isRunning (v : bool) (b : Bot) : Bot :=
  {| now := now b; lastCheckTime := lastCheckTime b; processedIds := processedIds b;
     isRunning := v; stats := stats b; rateLimits := rateLimits b;
     processed_records := processed_records b;
     singleTweetCalls := singleTweetCalls b; tweetCalls := tweetCalls b;
     railwayAttempts := railwayAttempts b; mainAttempts := mainAttempts b;
     trace := trace b |}.

Definition set_stats (v : Stats) (b : Bot) : Bot :=
  {| now := now b; lastCheckTime := lastCheckTime b; processedIds := processedIds b;
     isRunning := isRunning b; stats := v; rateLimits := rateLimits b;
     processed_records := processed_records b;
     singleTweetCalls := singleTweetCalls b; tweetCalls := tweetCalls b;
     railwayAttempts := railwayAttempts b; mainAttempts := mainAttempts b;
     trace := trace b |}.

Definition set_rateLimits (v : Endpoint.t -> RateLimit) (b : Bot) : Bot :=
  {| now := now b; lastCheckTime := lastCheckTime b; processedIds := processedIds b;
     isRunning := isRunning b; stats := stats b; rateLimits := v;
     processed_records := processed_records b;
     singleTweetCalls := singleTweetCalls b; tweetCalls := tweetCalls b;
     railwayAttempts := railwayAttempts b; mainAttempts := mainAttempts b;
     trace := trace b |}.

Definition set_processed_records (v : list Ledger.row) (b : Bot) : Bot :=
  {| now := now b; lastCheckTime := lastCheckTime b; processedIds := processedIds b;
     isRunning := isRunning b; stats := stats b; rateLimits := rateLimits b;
     processed_records := v;
     singleTweetCalls := singleTweetCalls b; tweetCalls := tweetCalls b;
     railwayAttempts := railwayAttempts b; mainAttempts := mainAttempts b;
     trace := trace b |}.

Definition set_singleTweetCalls (v : nat) (b : Bot) : Bot :=
  {| now := now b; lastCheckTime := lastCheckTime b; processedIds := processedIds b;
     isRunning := isRunning b; stats := stats b; rateLimits := rateLimits b;
     processed_records := processed_records b;
     singleTweetCalls := v; tweetCalls := tweetCalls b;
     railwayAttempts := railwayAttempts b; mainAttempts := mainAttempts b;
     trace := trace b |}.

Definition set_tweetCalls (v : nat) (b : Bot) : Bot :=
  {| now := now b; lastCheckTime := lastCheckTime b; processedIds := processedIds b;
     isRunning := isRunning b; stats := stats b; rateLimits := rateLimits b;
     processed_records := processed_records b;
     singleTweetCalls := singleTweetCalls b; tweetCalls := v;
     railwayAttempts := railwayAttempts b; mainAttempts := mainAttempts b;
     trace := trace b |}.

Definition set_railwayAttempts (v : nat) (b : Bot) : Bot :=
  {| now := now b; lastCheckTime := lastCheckTime b; processedIds := processedIds b;
     isRunning := isRunning b; stats := stats b; rateLimits := rateLimits b;
     processed_records := processed_records b;
     singleTweetCalls := singleTweetCalls b; tweetCalls := tweetCalls b;
     railwayAttempts := v; mainAttempts := mainAttempts b;
     trace := trace b |}.

Definition set_mainAttempts (v : nat) (b : Bot) : Bot :=
  {| now := now b; lastCheckTime := lastCheckTime b; processedIds := processedIds b;
     isRunning := isRunning b; stats := stats b; rateLimits := rateLimits b;
     processed_records := processed_records b;
     singleTweetCalls := singleTweetCalls b; tweetCalls := tweetCalls b;
     railwayAttempts := railwayAttempts b; mainAttempts := v;
     trace := trace b |}.

Definition set_trace (v : list Event) (b : Bot) : Bot :=
  {| now := now b; lastCheckTime := lastCheckTime b; processedIds := processedIds b;
     isRunning := isRunning b; stats := stats b; rateLimits := rateLimits b;
     processed_records := processed_records b;
     singleTweetCalls := singleTweetCalls b; tweetCalls := tweetCalls b;
     railwayAttempts := railwayAttempts b; mainAttempts := mainAttempts b;
     trace := v |}.

Definition add_totalProcessed (s : Stats) : Stats :=
  {| totalProcessed := totalProcessed s + 1; successfulPosts := successfulPosts s;
     failedPosts := failedPosts s; skippedRecords := skippedRecords s;
     errors := errors s; rateLimitHits := rateLimitHits s;
     totalWaitTime := totalWaitTime s |}.

Definition add_successfulPosts (s : Stats) : Stats :=
  {| totalProcessed := totalProcessed s; successfulPosts := successfulPosts s + 1;
     failedPosts := failedPosts s; skippedRecords := skippedRecords s;
     errors := errors s; rateLimitHits := rateLimitHits s;
     totalWaitTime := totalWaitTime s |}.

Definition add_failedPosts (s : Stats) : Stats :=
  {| totalProcessed := totalProcessed s; successfulPosts := successfulPosts s;
     failedPosts := failedPosts s + 1; skippedRecords := skippedRecords s;
     errors := errors s; rateLimitHits := rateLimitHits s;
     totalWaitTime := totalWaitTime s |}.

Definition add_skippedRecords (s : Stats) : Stats :=
  {| totalProcessed := totalProcessed s; successfulPosts := successfulPosts s;
     failedPosts := failedPosts s; skippedRecords := skippedRecords s + 1;
     errors := errors s; rateLimitHits := rateLimitHits s;
     totalWaitTime := totalWaitTime s |}.

Definition add_errors (s : Stats) : Stats :=
  {| totalProcessed := totalProcessed s; successfulPosts := successfulPosts s;
     failedPosts := failedPosts s; skippedRecords := skippedRecords s;
     errors := errors s + 1; rateLimitHits := rateLimitHits s;
     totalWaitTime := totalWaitTime s |}.

(** [stats.rateLimitHits++; stats.totalWaitTime += waitTime] *)
Definition add_rateLimitWait (waitTime : Z) (s : Stats) : Stats :=
  {| totalProcessed := totalProcessed s; successfulPosts := successfulPosts s;
     failedPosts := failedPosts s; skippedRecords := skippedRecords s;
     errors := errors s; rateLimitHits := rateLimitHits s + 1;
     totalWaitTime := totalWaitTime s + waitTime |}.

(** ** The monad of bot actions

    An action runs the bot from a state; [None] is an action that has not
    returned within the fuel it was given. *)

Definition M (A : Type) : Type := Bot -> option (A * Bot).

Definition ret {A : Type} (a : A) : M A := fun st => Some (a, st).

Definition bind {A B : Type} (m : M A) (k : A -> M B) : M B :=
  fun st =>
    match m st with
    | Some (a, st') => k a st'
    | None => None
    end.

Definition diverge {A : Type} : M A := fun _ => None.

Definition get : M Bot := fun st => Some (st, st).

Definition modify (f : Bot -> Bot) : M unit := fun st => Some (tt, f st).

Declare Scope bot_scope.
Delimit Scope bot_scope with bot.
Bind Scope bot_scope with M.

Notation "'let*' x ':=' m 'in' k" := (bind m (fun x => k))
  (at level 10, x name, m at level 100, k at level 200) : bot_scope.
Notation "m ;; k" := (bind m (fun _ => k))
  (at level 100, k at level 200, right associativity) : bot_scope.

Local Open Scope bot_scope.

Definition when (b : bool) (m : M unit) : M unit := if b then m else ret tt.

Definition emit (e : Event) : M unit :=
  modify (fun st => set_trace (trace st ++ [e]) st).

(** [this.log(level, message, data)]: the entry is recorded; the writes to
    the console and to the log files, which cannot fail the caller, are
    left out. *)
Definition log (level : Level) (message : string) : M unit :=
  emit (Log level message).

(** [await new Promise(resolve => setTimeout(resolve, ms))]: the clock moves
    by [ms]; a timer with a negative delay fires at once. *)
Definition sleep (why : Timer) (ms : Z) : M unit :=
  emit (Sleep why ms) ;;
  modify (fun st => set_now (now st + Z.max 0 ms) st).

Definition modifyStats (f : Stats -> Stats) : M unit :=
  modify (fun st => set_stats (f (stats st)) st).

(** The state the constructor builds at time [t], in front of a ledger
    table [table]. *)
Definition noStats : Stats :=
  {| totalProcessed := 0; successfulPosts := 0; failedPosts := 0;
     skippedRecords := 0; errors := 0; rateLimitHits := 0; totalWaitTime := 0 |}.

Definition noRateLimit : RateLimit :=
  {| remaining := None; resetTime := None; limit := None; lastCheck := None |}.

Definition newBot (t : Z) (table : list Ledger.row) : Bot :=
  {| now := t;
     lastCheckTime := t - 12 * 60 * 60 * 1000;
     processedIds := ∅;
     isRunning := false;
     stats := noStats;
     rateLimits := fun _ => noRateLimit;
     processed_records := table;
     singleTweetCalls := 0;
     tweetCalls := 0;
     railwayAttempts := 0;
     mainAttempts := 0;
     trace := [] |}.

(** The bot once [start] has connected and set [isRunning]. *)
Definition runningBot (t : Z) (table : list Ledger.row) : Bot :=
  set_isRunning true (newBot t table).

(** A tracker entry with the quota used up until [resetAt], and a bot at
    time [t] whose entries are in that state. *)
Definition exhaustedLimit (resetAt : Z) : RateLimit :=
  {| remaining := Some 0; resetTime := Some resetAt; limit := Some 300;
     lastCheck := Some 0 |}.

Definition exhaustedBot (t resetAt : Z) : Bot :=
  set_rateLimits (fun _ => exhaustedLimit resetAt) (newBot t []).

(** ** The bot *)

(** JavaScript truthiness of a number that may be null, and of a string
    that may be null. *)
Definition truthyNum (v : option Z) : bool :=
  match v with
  | Some z => negb (z =? 0)
  | None => false
  end.

Definition truthyStr (v : option string) : bool :=
  match v with
  | Some s => negb (String.eqb s "")
  | None => false
  end.

Definition jsIncludes (s p : string) : bool :=
  Js.includes (list_ascii_of_string s) (list_ascii_of_string p).

(** [s.trim().length] *)
Definition trimLength (s : string) : Z :=
  Z.of_nat (List.length (Js.trim (list_ascii_of_string s))).

Definition jsLength (s : string) : Z := Z.of_nat (String.length s).

Definition endpointName (endpoint : Endpoint.t) : string :=
  match endpoint with
  | Endpoint.tweets => "tweets"
  | Endpoint.lookup => "lookup"
  end.

Definition endpoint_eqb (a b : Endpoint.t) : bool :=
  match a, b with
  | Endpoint.tweets, Endpoint.tweets => true
  | Endpoint.lookup, Endpoint.lookup => true
  | _, _ => false
  end.

(** Assignment to the fields of [this.rateLimits[endpoint]]. *)
Definition setRateLimit (endpoint : Endpoint.t) (rl : RateLimit) : M unit :=
  modify (fun st =>
    set_rateLimits
      (fun e => if endpoint_eqb e endpoint then rl else rateLimits st e) st).

(** *** Ledger table: the INSERT ... ON CONFLICT (record_id) DO UPDATE of
    [saveProcessedId], run at time [t] ([NOW()]). *)

Definition insertedRow (t : Z) (recordId : string)
    (postedTweetId replyToTweetId : option string) (status : string)
    (contentLength : option Z) (poiTransaction : option string) : Ledger.row :=
  {| Ledger.record_id := recordId;
     Ledger.processed_at := t;
     Ledger.posted_tweet_id := postedTweetId;
     Ledger.reply_to_tweet_id := replyToTweetId;
     Ledger.status := status;
     Ledger.content_length := contentLength;
     Ledger.poi_transaction := poiTransaction;
     Ledger.created_at := t;
     Ledger.updated_at := t |}.

(** DO UPDATE SET posted_tweet_id = EXCLUDED.posted_tweet_id,
    status = EXCLUDED.status, updated_at = NOW() *)
Definition conflictUpdate (t : Z) (excluded old : Ledger.row) : Ledger.row :=
  {| Ledger.record_id := Ledger.record_id old;
     Ledger.processed_at := Ledger.processed_at old;
     Ledger.posted_tweet_id := Ledger.posted_tweet_id excluded;
     Ledger.reply_to_tweet_id := Ledger.reply_to_tweet_id old;
     Ledger.status := Ledger.status excluded;
     Ledger.content_length := Ledger.content_length old;
     Ledger.poi_transaction := Ledger.poi_transaction old;
     Ledger.created_at := Ledger.created_at old;
     Ledger.updated_at := t |}.

Fixpoint upsert (t : Z) (new : Ledger.row) (table : list Ledger.row)
  : list Ledger.row :=
  match table with
  | [] => [new]
  | r :: rest =>
      if String.eqb (Ledger.record_id r) (Ledger.record_id new)
      then conflictUpdate t new r :: rest
      else r :: upsert t new rest
  end.

(** The rows of the table with a given key. *)
Definition rowsOf (recordId : string) (table : list Ledger.row) : list Ledger.row :=
  List.filter (fun r => String.eqb (Ledger.record_id r) recordId) table.

(** The primary key of [processed_records]. *)
Definition primaryKey (table : list Ledger.row) : Prop :=
  List.NoDup (map Ledger.record_id table).

Section Bot.

Variable config : Config.
Variable env : Env.

(** *** Rate-Limit Tracker *)

Definition overwrite (header old : option Z) (f : Z -> Z) : option Z :=
  match header with
  | Some v => Some (f v)
  | None => old
  end.

Definition updateRateLimitInfo (endpoint : Endpoint.t) (headers : option Headers)
  : M unit :=
  match headers with
  | None => ret tt
  | Some h =>
      let* st := get in
      let rateLimit := rateLimits st endpoint in
      setRateLimit endpoint
        {| remaining := overwrite (x_rate_limit_remaining h) (remaining rateLimit) (fun v => v);
           resetTime := overwrite (x_rate_limit_reset h) (resetTime rateLimit) (fun v => v * 1000);
           limit := overwrite (x_rate_limit_limit h) (limit rateLimit) (fun v => v);
           lastCheck := Some (now st) |} ;;
      log DEBUG ("Updated rate limit info for " +:+ endpointName endpoint)
  end.

(** The result is [(canProceed, waitTime)]. *)
Definition checkRateLimit (endpoint : Endpoint.t) : M (bool * Z) :=
  let* st := get in
  let rateLimit := rateLimits st endpoint in
  if negb (truthyNum (remaining rateLimit)) || negb (truthyNum (resetTime rateLimit))
  then ret (true, 0)
  else
    match remaining rateLimit, resetTime rateLimit with
    | Some rem, Some reset =>
        if now st >=? reset then
          setRateLimit endpoint
            {| remaining := limit rateLimit; resetTime := resetTime rateLimit;
               limit := limit rateLimit; lastCheck := lastCheck rateLimit |} ;;
          ret (true, 0)
        else if rem >? 0 then ret (true, 0)
        else
          let waitTime := reset - now st in
          log WARN ("Rate limit hit for " +:+ endpointName endpoint) ;;
          ret (false, waitTime)
    | _, _ => ret (true, 0)
    end.

(** The while loop of [waitForRateLimit]; [fuel] bounds the number of
    slices. *)
Fixpoint waitChunks (fuel : nat) (remainingWait : Z) : M unit :=
  let* st := get in
  if (remainingWait >? 0) && isRunning st then
    match fuel with
    | O => diverge
    | S fuel' =>
        let chunkSize := 5000 in
        let currentWait := Z.min chunkSize remainingWait in
        sleep RateLimitChunk currentWait ;;
        let remainingWait' := remainingWait - currentWait in
        when (remainingWait' >? 0)
          (log DEBUG "Still waiting for rate limit reset") ;;
        waitChunks fuel' remainingWait'
    end
  else ret tt.

(** The number of 5-second slices a wait of [waitTime] is cut into. *)
Definition chunksOf (waitTime : Z) : nat := Z.to_nat ((waitTime + 4999) / 5000).

Definition waitForRateLimit (waitTime : Z) : M unit :=
  if waitTime <=? 0 then ret tt
  else
    log INFO "Waiting for rate limit reset" ;;
    modifyStats (add_rateLimitWait waitTime) ;;
    waitChunks (chunksOf waitTime) waitTime ;;
    let* st := get in
    when (isRunning st)
      (log INFO "Rate limit wait completed, resuming operations").

Definition rateLimitedDelay : M unit :=
  let delay := minDelayBetweenPosts config in
  when (delay >? 0)
    (log DEBUG "Applying rate limit delay" ;;
     sleep PostDelay delay).

(** *** Storage: [executeQuery]

    One attempt on a store: reconnect if needed and run the query.  On
    the Railway store an attempt that goes through runs [statement] on
    the ledger table; on the main store it returns the rows of the
    SELECT. *)

Definition maxAttempts : Z := 3.

(** The while loop of [executeQuery], with [left] iterations to go.  The
    result is [Some] of what the query returns, [None] when the error of
    the last attempt is thrown to the caller. *)
Fixpoint executeQueryFrom {A : Type} (attempt : M (option A)) (name : string)
    (left : nat) (attempts : Z) : M (option A) :=
  match left with
  | O => ret None
  | S left' =>
      let* r := attempt in
      match r with
      | Some result => ret (Some result)
      | None =>
          let attempts := attempts + 1 in
          log WARN ("Query attempt failed (" +:+ name +:+ ")") ;;
          if attempts >=? maxAttempts then ret None
          else
            sleep QueryRetry (1000 * attempts) ;;
            executeQueryFrom attempt name left' attempts
      end
  end.

Definition executeQuery {A : Type} (attempt : M (option A)) (name : string)
  : M (option A) :=
  executeQueryFrom attempt name (Z.to_nat maxAttempts) 0.

(** An attempt to run a statement on the Railway store. *)
Definition railwayAttempt {A : Type} (statement : Bot -> A * list Ledger.row)
  : M (option A) :=
  let* st := get in
  emit (CallQuery Railway) ;;
  modify (fun st => set_railwayAttempts (S (railwayAttempts st)) st) ;;
  if railwayUp env (railwayAttempts st) then
    let* st := get in
    let outcome := statement st in
    modify (set_processed_records (snd outcome)) ;;
    ret (Some (fst outcome))
  else ret None.

(** An attempt to run the SELECT of [getNewRecords] on the main store, with
    the watermark as its parameter. *)
Definition mainAttempt (utcLastCheckTime : Z) : M (option (list Answer.row)) :=
  let* st := get in
  emit (CallQuery Main) ;;
  modify (fun st => set_mainAttempts (S (mainAttempts st)) st) ;;
  ret (mainSelect env (mainAttempts st) utcLastCheckTime).

(** *** Ledger *)

(** SELECT record_id FROM processed_records: the VARCHAR column comes back
    as strings, and these strings are what the seen-set is seeded with. *)
Definition selectRecordIds (st : Bot) : list string * list Ledger.row :=
  (map Ledger.record_id (processed_records st), processed_records st).

Definition loadProcessedIds : M unit :=
  let* r := executeQuery (railwayAttempt selectRecordIds) "Railway" in
  match r with
  | Some rows =>
      modify (set_processedIds (list_to_set (map Id.Str rows))) ;;
      log INFO "Loaded previously processed IDs from Railway database"
  | None =>
      log INFO "No previous processed IDs found or error loading" ;;
      modify (set_processedIds ∅)
  end.

Definition upsertStatement (recordId : string)
    (postedTweetId replyToTweetId : option string) (status : string)
    (contentLength : option Z) (poiTransaction : option string)
    (st : Bot) : unit * list Ledger.row :=
  (tt, upsert (now st)
         (insertedRow (now st) recordId postedTweetId replyToTweetId status
            contentLength poiTransaction)
         (processed_records st)).

(** The statement takes the text of [recordId] as its first parameter; the
    seen-set takes [recordId] as it is. *)
Definition saveProcessedId (recordId : Id.t)
    (postedTweetId replyToTweetId : option string) (status : string)
    (contentLength : option Z) (poiTransaction : option string) : M unit :=
  let* r := executeQuery
              (railwayAttempt
                 (upsertStatement (Id.text recordId) postedTweetId replyToTweetId
                    status contentLength poiTransaction)) "Railway" in
  match r with
  | Some _ =>
      modify (fun st => set_processedIds ({[ recordId ]} ∪ processedIds st) st) ;;
      log DEBUG "Saved processed record to database"
  | None =>
      log ERROR "Failed to save processed record to database" ;;
      modifyStats add_errors
  end.

(** *** Source Poller *)

(** [!v || v.trim().length === 0] *)
Definition missing (v : option string) : bool :=
  negb (truthyStr v) ||
  match v with
  | Some s => trimLength s =? 0
  | None => true
  end.

Definition isValidRecord (record : Answer.row) : bool :=
  if missing (Answer.answer record) then false
  else if missing (Answer.tweet_id record) then false
  else true.

Definition getNewRecords : M (list Answer.row) :=
  let* st := get in
  let utcLastCheckTime := lastCheckTime st in
  log DEBUG "Executing database query" ;;
  let* r := executeQuery (mainAttempt utcLastCheckTime) "Main" in
  match r with
  | Some rows =>
      let* st := get in
      let newRecords :=
        List.filter
          (fun record =>
             isValidRecord record
             && negb (bool_decide (Answer.id record ∈ processedIds st)))
          rows in
      log INFO "Database query completed" ;;
      ret newRecords
  | None =>
      log ERROR "Error getting new records from database" ;;
      modifyStats add_errors ;;
      ret []
  end.

(** Whether one of the three attempts [executeQuery] makes on the Railway
    store from state [st] goes through. *)
Definition railwayReachable (st : Bot) : bool :=
  let n := railwayAttempts st in
  railwayUp env n || railwayUp env (S n) || railwayUp env (S (S n)).

(** The rows [executeQuery] hands to [getNewRecords] from state [st]: those
    of the first of its three attempts that goes through, none when all
    three throw. *)
Definition fetchedRows (st : Bot) : list Answer.row :=
  let n := mainAttempts st in
  let since := lastCheckTime st in
  match mainSelect env n since with
  | Some rows => rows
  | None =>
      match mainSelect env (S n) since with
      | Some rows => rows
      | None =>
          match mainSelect env (S (S n)) since with
          | Some rows => rows
          | None => []
          end
      end
  end.

(** *** Delivery Engine *)

(** [error.code === 429 || (error.data && error.data.title === 'Too Many Requests')] *)
Definition isRateLimitError (error : ApiError.t) : bool :=
  match ApiError.code error with
  | Some c => c =? 429
  | None => false
  end
  ||
  match ApiError.title error with
  | Some t => String.eqb t "Too Many Requests"
  | None => false
  end.

(** The signature of a deleted or invisible target in the catch block of
    [postToTwitter]. *)
Definition isTargetGone (error : ApiError.t) : bool :=
  jsIncludes (ApiError.message error) "replied-to"
  || jsIncludes (ApiError.message error) "not found"
  || jsIncludes (ApiError.message error) "deleted"
  || jsIncludes (ApiError.message error) "not visible to you"
  ||
  match ApiError.detail error with
  | Some d => negb (String.eqb d "") && jsIncludes d "deleted or not visible"
  | None => false
  end.

Definition callSingleTweet (tweetId : option string) : M LookupResponse :=
  let* st := get in
  emit (CallSingleTweet tweetId) ;;
  modify (fun st => set_singleTweetCalls (S (singleTweetCalls st)) st) ;;
  ret (singleTweet env (singleTweetCalls st)).

Definition callTweet (text : string) (replyTo : option string) : M TweetResponse :=
  let* st := get in
  emit (CallTweet text replyTo) ;;
  modify (fun st => set_tweetCalls (S (tweetCalls st)) st) ;;
  ret (tweet env (tweetCalls st)).

Definition validationFailed : M bool :=
  log WARN "Tweet validation failed" ;;
  ret false.

(** [fuel] bounds the depth of the recursive call after a rate-limit wait. *)
Fixpoint validateTweet (fuel : nat) (tweetId : option string) : M bool :=
  match fuel with
  | O => diverge
  | S fuel' =>
      let* rateLimitCheck := checkRateLimit Endpoint.lookup in
      when (negb (fst rateLimitCheck)) (waitForRateLimit (snd rateLimitCheck)) ;;
      let* response := callSingleTweet tweetId in
      match response with
      | inl headers =>
          updateRateLimitInfo Endpoint.lookup headers ;;
          ret true
      | inr error =>
          updateRateLimitInfo Endpoint.lookup (ApiError.headers error) ;;
          if isRateLimitError error then
            log WARN "Rate limit hit during tweet validation" ;;
            match ApiError.headers error with
            | Some h =>
                match x_rate_limit_reset h with
                | Some resetTime =>
                    let* st := get in
                    let waitTime := resetTime * 1000 - now st in
                    if waitTime >? 0 then
                      waitForRateLimit waitTime ;;
                      validateTweet fuel' tweetId
                    else validationFailed
                | None => validationFailed
                end
            | None => validationFailed
            end
          else validationFailed
      end
  end.

(** The value [postToTwitter] resolves to when it posted. *)
Record PostResult : Type := {
  tweetId : string;
  contentLength : Z
}.

(** The error the runtime throws for [record.answer.split] on a null
    answer. *)
Definition nullAnswerError : ApiError.t :=
  {| ApiError.code := None; ApiError.title := None; ApiError.detail := None;
     ApiError.message := "Cannot read properties of null (reading 'split')";
     ApiError.headers := None |}.

(** The part of the catch block after the rate-limit branch. *)
Definition postFailed (record : Answer.row) (error : ApiError.t)
  : M (option PostResult) :=
  log ERROR "Failed to post reply" ;;
  modifyStats add_failedPosts ;;
  modifyStats add_errors ;;
  (if isTargetGone error then
     log WARN "Original tweet deleted/not visible - SKIPPING" ;;
     modifyStats add_skippedRecords ;;
     saveProcessedId (Answer.id record) None (Answer.tweet_id record)
       "skipped_tweet_deleted" None (Answer.poi_transaction record)
   else
     log ERROR "Reply failed for unknown reason") ;;
  ret None.

Definition backoffDelay (retryCount : nat) : Z :=
  retryDelayMs config * rateLimitBackoffMultiplier config ^ Z.of_nat retryCount.

Definition finalDelay (retryCount : nat) : Z :=
  Z.min (backoffDelay retryCount) (maxDelayBetweenPosts config).

(** The catch block of [postToTwitter]; [retry] is the recursive call
    [this.postToTwitter(record, retryCount + 1)]. *)
Definition postCatch (retry : M (option PostResult)) (record : Answer.row)
    (retryCount : nat) (error : ApiError.t) : M (option PostResult) :=
  updateRateLimitInfo Endpoint.tweets (ApiError.headers error) ;;
  if isRateLimitError error then
    log WARN "Rate limit hit during tweet posting" ;;
    if Z.of_nat retryCount <? maxRetries config then
      log INFO "Retrying after rate limit backoff" ;;
      sleep Backoff (finalDelay retryCount) ;;
      retry
    else
      log ERROR "Max retries reached for rate limited tweet" ;;
      postFailed record error
  else postFailed record error.

(** [finalContent]: the cleaned content, cut when it is over 20000. *)
Definition truncate (cleanedContent : string) : string :=
  let finalContent :=
    string_of_list_ascii (Js.trim (list_ascii_of_string cleanedContent)) in
  if jsLength finalContent >? 20000
  then String.substring 0 (Z.to_nat 19995) finalContent +:+ "..."
  else finalContent.

(** [fuel] bounds the depth of the retries (and of the validation). *)
Fixpoint postToTwitter (fuel : nat) (record : Answer.row) (retryCount : nat)
  : M (option PostResult) :=
  match fuel with
  | O => diverge
  | S fuel' =>
      let replyToTweetId := Answer.tweet_id record in
      log DEBUG "Validating original tweet exists" ;;
      let* tweetExists := validateTweet fuel replyToTweetId in
      if negb tweetExists then
        log WARN "Original tweet not accessible - SKIPPING" ;;
        modifyStats add_skippedRecords ;;
        saveProcessedId (Answer.id record) None replyToTweetId
          "skipped_tweet_not_accessible" None (Answer.poi_transaction record) ;;
        ret None
      else
        match Answer.answer record with
        | None =>
            postCatch (postToTwitter fuel' record (S retryCount)) record
              retryCount nullAnswerError
        | Some answer =>
            let cleanedContent := cleanAnswerForTwitter answer in
            if String.eqb cleanedContent "" || (trimLength cleanedContent =? 0) then
              log WARN "No content left after cleaning scientific papers - SKIPPING" ;;
              modifyStats add_skippedRecords ;;
              ret None
            else
              let finalContent := truncate cleanedContent in
              let* rateLimitCheck := checkRateLimit Endpoint.tweets in
              when (negb (fst rateLimitCheck))
                (waitForRateLimit (snd rateLimitCheck)) ;;
              log INFO "Attempting to post reply" ;;
              let* response := callTweet finalContent replyToTweetId in
              match response with
              | inl (postedId, headers) =>
                  updateRateLimitInfo Endpoint.tweets headers ;;
                  log SUCCESS "Successfully posted reply" ;;
                  modifyStats add_successfulPosts ;;
                  ret (Some {| tweetId := postedId;
                               contentLength := jsLength finalContent |})
              | inr error =>
                  postCatch (postToTwitter fuel' record (S retryCount)) record
                    retryCount error
              end
        end
  end.

(** *** Poll cycle *)

Definition processRecord (fuel : nat) (record : Answer.row) : M unit :=
  modifyStats add_totalProcessed ;;
  log INFO "Processing record" ;;
  let* tweetResult := postToTwitter fuel record 0 in
  match tweetResult with
  | Some result =>
      if negb (String.eqb (tweetId result) "") then
        saveProcessedId (Answer.id record) (Some (tweetId result))
          (Answer.tweet_id record) "success" (Some (contentLength result))
          (Answer.poi_transaction record) ;;
        log SUCCESS "Successfully processed record" ;;
        rateLimitedDelay
      else log ERROR "Failed to process record"
  | None => log ERROR "Failed to process record"
  end.

(** [for (const record of records) { ... }] *)
Fixpoint processAll (fuel : nat) (records : list Answer.row) : M unit :=
  match records with
  | [] => ret tt
  | record :: rest => processRecord fuel record ;; processAll fuel rest
  end.

Definition logCurrentStats : M unit :=
  log INFO "Current session statistics".

Definition processNewRecords (fuel : nat) : M unit :=
  let* records := getNewRecords in
  if (List.length records =? 0)%nat then
    log INFO "No new records to process"
  else
    log INFO "Starting to process new records" ;;
    processAll fuel records ;;
    let* st := get in
    let newCheckTime := now st in
    log DEBUG "Updating lastCheckTime" ;;
    modify (set_lastCheckTime newCheckTime) ;;
    logCurrentStats.

End Bot.

(** ** Activity summary

    [updateActivitySummary] keeps, in the file activity_summary.json, one
    entry per day with counters and the latest activities.  The content of
    the file is explicit: [None] when the file does not exist, the parsed
    object otherwise.  The file is taken to hold what the function has
    written and to be readable and writable (a failure of the file system
    is caught and leaves the file as it is).  Of the timestamp of a log
    entry the function uses the date, before the 'T', and the time of day,
    between the 'T' and the '.'. *)
Module Summary.

Record Activity : Type := {
  time : string;
  level : Level;
  message : string
}.

Record Day : Type := {
  totalLogs : Z;
  errors : Z;
  warnings : Z;
  successes : Z;
  activities : list Activity
}.

Record LogEntry : Type := {
  entryDate : string;
  entryTime : string;
  entryLevel : Level;
  entryMessage : string
}.

Definition isError (l : Level) : bool := match l with ERROR => true | _ => false end.
Definition isWarn (l : Level) : bool := match l with WARN => true | _ => false end.
Definition isSuccess (l : Level) : bool := match l with SUCCESS => true | _ => false end.

Definition newDay : Day :=
  {| totalLogs := 0; errors := 0; warnings := 0; successes := 0; activities := [] |}.

Definition activityOf (logEntry : LogEntry) : Activity :=
  {| time := entryTime logEntry; level := entryLevel logEntry;
     message := entryMessage logEntry |}.

Definition updateActivitySummary (file : option (gmap string Day))
    (logEntry : LogEntry) : option (gmap string Day) :=
  let summary := match file with Some parsed => parsed | None => ∅ end in
  let dateStr := entryDate logEntry in
  let day := match summary !! dateStr with Some d => d | None => newDay end in
  Some
    (<[ dateStr :=
          {| totalLogs := totalLogs day + 1;
             errors := if isError (entryLevel logEntry) then errors day + 1 else errors day;
             warnings := if isWarn (entryLevel logEntry) then warnings day + 1 else warnings day;
             successes :=
               if isSuccess (entryLevel logEntry) then successes day + 1 else successes day;
             activities := take 10 (activityOf logEntry :: activities day) |} ]>
       summary).

(** The file after the entries [entries] have been logged, oldest first,
    starting without a file. *)
Definition written (entries : list LogEntry) : option (gmap string Day) :=
  fold_left updateActivitySummary entries None.

(** The entry of a day in the file, [newDay] when there is none. *)
Definition dayOf (file : option (gmap string Day)) (dateStr : string) : Day :=
  match file with
  | Some summary =>
      match summary !! dateStr with
      | Some d => d
      | None => newDay
      end
  | None => newDay
  end.

Definition onDay (dateStr : string) (entries : list LogEntry) : list LogEntry :=
  List.filter (fun e => String.eqb (entryDate e) dateStr) entries.

Definition count (p : Level -> bool) (entries : list LogEntry) : Z :=
  Z.of_nat (List.length (List.filter (fun e => p (entryLevel e)) entries)).

End Summary.

(** ** Sample inputs

    Records, errors and collaborators on which the statements below are
    exercised. *)

Definition sampleRecord : Answer.row :=
  {| Answer.id := Id.Str "7"; Answer.answer := Some "Hello world";
     Answer.tweet_id := Some "111"; Answer.poi_transaction := None;
     Answer.created_at := 5 |}.




(** An answer that is nothing but a references section. *)
Definition referencesOnlyRecord : Answer.row :=
  {| Answer.id := Id.Str "9";
     Answer.answer := Some ("Science papers:" +:+ lf +:+ "Smith 2020.01.01");
     Answer.tweet_id := Some "111"; Answer.poi_transaction := None;
     Answer.created_at := 7 |}.

Definition notFoundError : ApiError.t :=
  {| ApiError.code := Some 404; ApiError.title := Some "Not Found Error";
     ApiError.detail := None;
     ApiError.message := "Request failed with code 404";
     ApiError.headers := None |}.

Definition rateLimitError : ApiError.t :=
  {| ApiError.code := Some 429; ApiError.title := Some "Too Many Requests";
     ApiError.detail := Some "Too Many Requests";
     ApiError.message := "Request failed with code 429";
     ApiError.headers := None |}.

(** Every collaborator answers: the lookup finds the tweet, the post is
    accepted, both stores are up and the SELECT returns [rows]. *)
Definition healthyEnv (rows : list Answer.row) : Env :=
  {| singleTweet := fun _ => inl None;
     tweet := fun _ => inl ("1001"%string, None);
     railwayUp := fun _ => true;
     mainSelect := fun _ _ => Some rows |}.

(** The lookup reports the target as not found and the Railway store is
    down. *)
Definition goneAndDownEnv : Env :=
  {| singleTweet := fun _ => inr notFoundError;
     tweet := fun _ => inl ("1001"%string, None);
     railwayUp := fun _ => false;
     mainSelect := fun _ _ => Some [sampleRecord] |}.

(** The lookup reports the target as not found, the stores are up. *)
Definition goneEnv : Env :=
  {| singleTweet := fun _ => inr notFoundError;
     tweet := fun _ => inl ("1001"%string, None);
     railwayUp := fun _ => true;
     mainSelect := fun _ _ => Some [sampleRecord] |}.

(** The post-reply operation is rate limited on every call. *)
Definition rateLimitedEnv : Env :=
  {| singleTweet := fun _ => inl None;
     tweet := fun _ => inr rateLimitError;
     railwayUp := fun _ => true;
     mainSelect := fun _ _ => Some [sampleRecord] |}.

(** The post-reply operation is rate limited on every call, and the main
    store holds [sampleRecord] and honours the WHERE clause of the SELECT. *)
Definition windowedEnv : Env :=
  {| singleTweet := fun _ => inl None;
     tweet := fun _ => inr rateLimitError;
     railwayUp := fun _ => true;
     mainSelect := fun _ since =>
       Some (List.filter (fun r => since <? Answer.created_at r) [sampleRecord]) |}.

(** The state after a poll cycle in which the delivery of [sampleRecord] has
    failed. *)
Definition afterFailedCycle : Bot :=
  match processNewRecords defaultConfig windowedEnv 5 (newBot 10 []) with
  | Some (_, st) => st
  | None => newBot 10 []
  end.

(** The state after a first ledger write for record "7" on a new bot. *)
Definition afterFirstSave : Bot :=
  match saveProcessedId (healthyEnv []) (Id.Str "7") None (Some "111")
          "skipped_tweet_not_accessible" None None (newBot 0 []) with
  | Some (_, st) => st
  | None => newBot 0 []
  end.

(** The error of the post-reply operation for a target that is gone, and
    collaborators whose post-reply operation answers with it. *)
Definition deletedError : ApiError.t :=
  {| ApiError.code := Some 403; ApiError.title := Some "Forbidden";
     ApiError.detail :=
       Some "You attempted to reply to a Tweet that is deleted or not visible to you.";
     ApiError.message := "Request failed with code 403";
     ApiError.headers := None |}.

Definition deletedEnv : Env :=
  {| singleTweet := fun _ => inl None;
     tweet := fun _ => inr deletedError;
     railwayUp := fun _ => true;
     mainSelect := fun _ _ => Some [sampleRecord] |}.

(** The main store is down. *)
Definition sourceDownEnv : Env :=
  {| singleTweet := fun _ => inl None;
     tweet := fun _ => inl ("1001"%string, None);
     railwayUp := fun _ => true;
     mainSelect := fun _ _ => None |}.

(** A rate-limit error of the lookup that announces the reset for the
    second [resetAt], and a lookup that is refused once with it. *)
Definition limitedUntil (resetAt : Z) : ApiError.t :=
  {| ApiError.code := Some 429; ApiError.title := Some "Too Many Requests";
     ApiError.detail := Some "Too Many Requests";
     ApiError.message := "Request failed with code 429";
     ApiError.headers :=
       Some {| x_rate_limit_remaining := Some 0;
               x_rate_limit_reset := Some resetAt;
               x_rate_limit_limit := Some 300 |} |}.

Definition limitedOnceEnv : Env :=
  {| singleTweet := fun i =>
       match i with
       | O => inr (limitedUntil 12)
       | S _ => inl None
       end;
     tweet := fun _ => inl ("1001"%string, None);
     railwayUp := fun _ => true;
     mainSelect := fun _ _ => Some [sampleRecord] |}.

(** The post-reply operation is rate limited once and then accepts. *)
Definition limitedPostOnceEnv : Env :=
  {| singleTweet := fun _ => inl None;
     tweet := fun i =>
       match i with
       | O => inr rateLimitError
       | S _ => inl ("1001"%string, None)
       end;
     railwayUp := fun _ => true;
     mainSelect := fun _ _ => Some [sampleRecord] |}.

(** The lookup finds the target once and then no more, and the post-reply
    operation is rate limited on every call. *)
Definition lookupLostEnv : Env :=
  {| singleTweet := fun i =>
       match i with
       | O => inl None
       | S _ => inr notFoundError
       end;
     tweet := fun _ => inr rateLimitError;
     railwayUp := fun _ => true;
     mainSelect := fun _ _ => Some [sampleRecord] |}.

(** Collaborators whose main store holds [record] and nothing else and
    honours the WHERE clause of the SELECT; the lookup finds the target, the
    post-reply operation accepts, and the Railway store is up or down as
    [up] says. *)
Definition servingEnv (up : bool) (record : Answer.row) : Env :=
  {| singleTweet := fun _ => inl None;
     tweet := fun _ => inl ("1001"%string, None);
     railwayUp := fun _ => up;
     mainSelect := fun _ since =>
       Some (if since <? Answer.created_at record then [record] else []) |}.

(** * Vocabulary of the statements

    The predicates and the ghost readings of the state in which the
    properties below are stated. *)

(** [t] occurs in [s]. *)
Definition infix (t s : Js.jsstring) : Prop := exists a b, s = a ++ t ++ b.

(** [s] does not begin with white space. *)
Definition headOk (s : Js.jsstring) : Prop :=
  match s with
  | [] => True
  | c :: _ => Js.isWhiteSpace c = false
  end.

(** The marker does not occur in the lower-cased line. *)
Definition unmarked (l : Js.jsstring) : Prop :=
  ~ infix Cleaner.marker (Js.toLowerCase l).

(** [wp m Q st]: run from [st], the action [m] returns, with a value and a
    state that satisfy [Q]. *)
Definition wp {A : Type} (m : M A) (Q : A -> Bot -> Prop) (st : Bot) : Prop :=
  match m st with
  | Some (a, st') => Q a st'
  | None => False
  end.

(** [keeps R m]: [m] always returns, and relates the state it ends in to
    the state it starts from by [R].  [respects R m] says the same of the
    runs of [m] that return. *)
Definition keeps {A : Type} (R : Bot -> Bot -> Prop) (m : M A) : Prop :=
  forall st, wp m (fun _ st' => R st st') st.

Definition respects {A : Type} (R : Bot -> Bot -> Prop) (m : M A) : Prop :=
  forall st a st', m st = Some (a, st') -> R st st'.

(** The delivery events of a trace: the calls of the post-reply operation
    and the back-off sleeps between them, in order. *)
Definition isDelivery (e : Event) : bool :=
  match e with
  | CallTweet _ _ => true
  | Sleep Backoff _ => true
  | _ => false
  end.

Definition deliveries (tr : list Event) : list Event := List.filter isDelivery tr.

(** [steady]: the watermark and the liveness flag are as before and the clock
    has not gone back. *)
Definition steady (st st' : Bot) : Prop :=
  lastCheckTime st' = lastCheckTime st
  /\ isRunning st' = isRunning st
  /\ now st <= now st'.

(** [quiet]: moreover nothing of the delivery state has changed: the
    ledger, the seen-set, the outcome counters, the store and post-reply
    call counts, the delivery events. *)
Definition quiet (st st' : Bot) : Prop :=
  steady st st'
  /\ processedIds st' = processedIds st
  /\ processed_records st' = processed_records st
  /\ tweetCalls st' = tweetCalls st
  /\ railwayAttempts st' = railwayAttempts st
  /\ mainAttempts st' = mainAttempts st
  /\ totalProcessed (stats st') = totalProcessed (stats st)
  /\ successfulPosts (stats st') = successfulPosts (stats st)
  /\ failedPosts (stats st') = failedPosts (stats st)
  /\ skippedRecords (stats st') = skippedRecords (stats st)
  /\ errors (stats st') = errors (stats st)
  /\ deliveries (trace st') = deliveries (trace st).

(** [storage]: what a query with its retries leaves untouched, whatever the
    store: it only sleeps, logs and counts its attempts. *)
Definition storage (st st' : Bot) : Prop :=
  steady st st'
  /\ processedIds st' = processedIds st
  /\ processed_records st' = processed_records st
  /\ stats st' = stats st
  /\ tweetCalls st' = tweetCalls st
  /\ singleTweetCalls st' = singleTweetCalls st
  /\ deliveries (trace st') = deliveries (trace st).

(** [idle]: moreover no query attempt has been made. *)
Definition idle (st st' : Bot) : Prop :=
  storage st st'
  /\ railwayAttempts st' = railwayAttempts st
  /\ mainAttempts st' = mainAttempts st.

(** The oracle of the Railway store read along the loop of [executeQuery]:
    whether one of the attempts goes through. *)
Fixpoint anyUp (env : Env) (n left : nat) (attempts : Z) : bool :=
  match left with
  | O => false
  | S left' =>
      railwayUp env n
      || (negb (attempts + 1 >=? maxAttempts) && anyUp env (S n) left' (attempts + 1))
  end.

(** The number of attempts the loop makes when none goes through. *)
Fixpoint tries (left : nat) (attempts : Z) : nat :=
  match left with
  | O => O
  | S left' =>
      S (if attempts + 1 >=? maxAttempts then O else tries left' (attempts + 1))
  end.

(** The state the bot is in when the statement of an attempt runs. *)
Definition attempting (st : Bot) : Bot :=
  set_railwayAttempts (S (railwayAttempts st))
    (set_trace (trace st ++ [CallQuery Railway]) st).

(** The oracle of the main store read along the loop of [executeQuery]: the
    rows of the first attempt of the SELECT that goes through. *)
Fixpoint firstRows (env : Env) (since : Z) (n left : nat) (attempts : Z)
  : option (list Answer.row) :=
  match left with
  | O => None
  | S left' =>
      match mainSelect env n since with
      | Some rows => Some rows
      | None =>
          if attempts + 1 >=? maxAttempts then None
          else firstRows env since (S n) left' (attempts + 1)
      end
  end.

(** The state the bot is in when an attempt of the SELECT has been made. *)
Definition selecting (st : Bot) : Bot :=
  set_mainAttempts (S (mainAttempts st))
    (set_trace (trace st ++ [CallQuery Main]) st).

(** What a ledger write leaves untouched whether it goes through or not. *)
Definition recorded (st st' : Bot) : Prop :=
  steady st st'
  /\ tweetCalls st' = tweetCalls st
  /\ singleTweetCalls st' = singleTweetCalls st
  /\ mainAttempts st' = mainAttempts st
  /\ totalProcessed (stats st') = totalProcessed (stats st)
  /\ successfulPosts (stats st') = successfulPosts (stats st)
  /\ failedPosts (stats st') = failedPosts (stats st)
  /\ skippedRecords (stats st') = skippedRecords (stats st)
  /\ deliveries (trace st') = deliveries (trace st).

(** The test of the filter of [getNewRecords] against the seen-set [seen]. *)
Definition unseen (seen : gset Id.t) (record : Answer.row) : bool :=
  isValidRecord record && negb (bool_decide (Answer.id record ∈ seen)).

(** A column that holds a string other than the empty one, and a column
    that holds a string with something else than white space. *)
Definition nonEmpty (v : option string) : Prop :=
  exists s, v = Some s /\ s <> ""%string.

Definition nonBlank (v : option string) : Prop :=
  exists s, v = Some s /\ Js.trim (list_ascii_of_string s) <> [].

(** The state of the bot once [postToTwitter] has logged that it validates
    the original tweet. *)
Definition validating (st : Bot) : Bot :=
  set_trace (trace st ++ [Log DEBUG "Validating original tweet exists"]) st.

(** The state of the bot once a call of the lookup, resp. of the post-reply
    operation, is under way. *)
Definition looking (tweetId : option string) (st : Bot) : Bot :=
  set_singleTweetCalls (S (singleTweetCalls st))
    (set_trace (trace st ++ [CallSingleTweet tweetId]) st).

Definition posting (text : string) (replyTo : option string) (st : Bot) : Bot :=
  set_tweetCalls (S (tweetCalls st))
    (set_trace (trace st ++ [CallTweet text replyTo]) st).

(** The delivery events of a record that is rate limited on every attempt,
    from the attempt with [retryCount] retries behind it and [k] retries to
    go: each refused call is followed by its back-off sleep, the last one by
    nothing. *)
Fixpoint expectedDeliveries (config : Config) (text : string)
    (replyTo : option string) (k retryCount : nat) : list Event :=
  match k with
  | O => [CallTweet text replyTo]
  | S k' =>
      CallTweet text replyTo :: Sleep Backoff (finalDelay config retryCount)
      :: expectedDeliveries config text replyTo k' (S retryCount)
  end.

(** The back-off delays among delivery events. *)
Definition backoffDelays (evs : list Event) : list Z :=
  flat_map (fun e => match e with Sleep Backoff ms => [ms] | _ => [] end) evs.

(** The calls of the post-reply operation among events. *)
Definition isCallTweet (e : Event) : bool :=
  match e with CallTweet _ _ => true | _ => false end.

(** [delivering evs calls failed]: the delivery events [evs] have been added,
    with [calls] calls of the post-reply operation and [failed] failures
    counted, and the ledger, the seen-set and the other outcome counters are
    as before. *)
Definition delivering (evs : list Event) (calls : nat) (failed : Z)
    (st st' : Bot) : Prop :=
  processed_records st' = processed_records st
  /\ processedIds st' = processedIds st
  /\ railwayAttempts st' = railwayAttempts st
  /\ totalProcessed (stats st') = totalProcessed (stats st)
  /\ successfulPosts (stats st') = successfulPosts (stats st)
  /\ skippedRecords (stats st') = skippedRecords (stats st)
  /\ failedPosts (stats st') = failedPosts (stats st) + failed
  /\ errors (stats st') = errors (stats st) + failed
  /\ tweetCalls st' = (tweetCalls st + calls)%nat
  /\ deliveries (trace st') = deliveries (trace st) ++ evs.

(** The state of the bot when the loop over the candidates starts. *)
Definition starting (st : Bot) : Bot :=
  set_trace (trace st ++ [Log INFO "Starting to process new records"]) st.

(** The slices of a rate-limit wait among events, and the slices the loop
    of [waitForRateLimit] cuts a wait into. *)
Definition chunkSleeps (tr : list Event) : list Z :=
  flat_map (fun e => match e with Sleep RateLimitChunk ms => [ms] | _ => [] end) tr.

Fixpoint slices (fuel : nat) (remainingWait : Z) : list Z :=
  match fuel with
  | O => []
  | S fuel' =>
      if remainingWait >? 0
      then Z.min 5000 remainingWait
           :: slices fuel' (remainingWait - Z.min 5000 remainingWait)
      else []
  end.

Definition sumZ (l : list Z) : Z := fold_right Z.add 0 l.

(** The sleeps between the attempts of a query among events. *)
Definition retrySleeps (tr : list Event) : list Z :=
  flat_map (fun e => match e with Sleep QueryRetry ms => [ms] | _ => [] end) tr.

(** [waited cs]: the clock has moved by the slices [cs] of a rate-limit
    wait, which are the only such slices added to the trace, and the
    statistics and the liveness flag are as before. *)
Definition waited (cs : list Z) (st st' : Bot) : Prop :=
  now st' = now st + sumZ cs
  /\ chunkSleeps (trace st') = chunkSleeps (trace st) ++ cs
  /\ isRunning st' = isRunning st
  /\ stats st' = stats st.

(** [r'] is the row [r] after some writes: the fields that the conflict
    clause of the statement never assigns are as they were. *)
Definition sameOrigin (r r' : Ledger.row) : Prop :=
  Ledger.record_id r' = Ledger.record_id r
  /\ Ledger.processed_at r' = Ledger.processed_at r
  /\ Ledger.created_at r' = Ledger.created_at r
  /\ Ledger.reply_to_tweet_id r' = Ledger.reply_to_tweet_id r
  /\ Ledger.content_length r' = Ledger.content_length r
  /\ Ledger.poi_transaction r' = Ledger.poi_transaction r.

(** The state after a log entry, and after a sleep. *)
Definition logged (level : Level) (message : string) (st : Bot) : Bot :=
  set_trace (trace st ++ [Log level message]) st.

Definition slept (why : Timer) (ms : Z) (st : Bot) : Bot :=
  set_now (now st + Z.max 0 ms) (set_trace (trace st ++ [Sleep why ms]) st).

(** [ledgerKept]: the ledger is as sound as before: the primary key is
    kept, the seen-set has only grown, every row is still there with its
    creation fields, and the ids of the seen-set still have their rows if
    they had them. *)
Definition ledgerKept (st st' : Bot) : Prop :=
  (primaryKey (processed_records st) -> primaryKey (processed_records st'))
  /\ processedIds st ⊆ processedIds st'
  /\ (forall r, In r (processed_records st) ->
      exists r', In r' (processed_records st') /\ sameOrigin r r')
  /\ ((forall x, x ∈ processedIds st ->
         In (Id.text x) (map Ledger.record_id (processed_records st))) ->
      forall x, x ∈ processedIds st' ->
        In (Id.text x) (map Ledger.record_id (processed_records st'))).

(** What a delivery event must be to belong to the delivery of [record]:
    a call of the post-reply operation replies to the [tweet_id] of the
    record with its cleaned and cut answer, which is not empty and has at
    most 20000 code units. *)
Definition replyOf (record : Answer.row) (e : Event) : Prop :=
  match e with
  | CallTweet text replyTo =>
      replyTo = Answer.tweet_id record
      /\ text <> ""%string
      /\ jsLength text <= 20000
      /\ exists answer,
          Answer.answer record = Some answer
          /\ text = truncate (cleanAnswerForTwitter answer)
  | _ => True
  end.

(** [posted record calls]: what the delivery of [record] may have done
    with at most [calls] calls of the post-reply operation. *)
Definition posted (record : Answer.row) (calls : nat) (st st' : Bot) : Prop :=
  ledgerKept st st'
  /\ (forall x, x ∈ processedIds st' -> x ∈ processedIds st \/ x = Answer.id record)
  /\ totalProcessed (stats st') = totalProcessed (stats st)
  /\ exists evs,
      deliveries (trace st') = deliveries (trace st) ++ evs
      /\ Forall (replyOf record) evs
      /\ tweetCalls st' = (tweetCalls st + List.length (List.filter isCallTweet evs))%nat
      /\ (List.length (List.filter isCallTweet evs) <= calls)%nat.

(** [keeps anyhow m]: [m] returns, from every state. *)
Definition anyhow (st st' : Bot) : Prop := True.

(** No lookup of [env] fails with a rate-limit error. *)
Definition lookupsUnlimited (env : Env) : Prop :=
  forall i error, singleTweet env i = inr error -> isRateLimitError error = false.

(** [sameLookups]: no lookup has been made. *)
Definition sameLookups (st st' : Bot) : Prop :=
  singleTweetCalls st' = singleTweetCalls st.

(** Whether a lookup found the tweet. *)
Definition lookupFound (response : LookupResponse) : bool :=
  match response with
  | inl _ => true
  | inr _ => false
  end.

(** [delivered evs calls]: the delivery events [evs] have been added, with
    [calls] calls of the post-reply operation, the last of which has been
    accepted and counted as a successful post; the ledger, the seen-set and
    the other outcome counters are as before. *)
Definition delivered (evs : list Event) (calls : nat) (st st' : Bot) : Prop :=
  processed_records st' = processed_records st
  /\ processedIds st' = processedIds st
  /\ railwayAttempts st' = railwayAttempts st
  /\ totalProcessed (stats st') = totalProcessed (stats st)
  /\ successfulPosts (stats st') = successfulPosts (stats st) + 1
  /\ skippedRecords (stats st') = skippedRecords (stats st)
  /\ failedPosts (stats st') = failedPosts (stats st)
  /\ errors (stats st') = errors (stats st)
  /\ tweetCalls st' = (tweetCalls st + calls)%nat
  /\ deliveries (trace st') = deliveries (trace st) ++ evs.

(** [eligible record st]: the seen-set of [st] does not exclude [record]: a
    poll made from a state [st2] in which the id of the record has not
    joined the seen-set since [st], and whose fetch returns the record, valid
    as it is, takes it as a candidate. *)
Definition eligible (record : Answer.row) (st : Bot) : Prop :=
  forall env st2 records st3,
    (Answer.id record ∈ processedIds st2 -> Answer.id record ∈ processedIds st) ->
    getNewRecords env st2 = Some (records, st3) ->
    In record (fetchedRows env st2) ->
    isValidRecord record = true ->
    In record records.

(** The main store holds [record] and nothing else, and answers every
    SELECT with the rows created after the watermark. *)
Definition holdsOnly (env : Env) (record : Answer.row) : Prop :=
  forall i since,
    mainSelect env i since
    = Some (if since <? Answer.created_at record then [record] else []).

(** The next poll made from [st] takes [record] as a candidate. *)
Definition refetched (env : Env) (record : Answer.row) (st : Bot) : Prop :=
  exists records st',
    getNewRecords env st = Some (records, st') /\ In record records.

(** * Properties *)

(** ** Facts about the string primitives *)

Module JsFacts.
Import Js.

Lemma startsWith_spec (p s : jsstring) :
  startsWith p s = true <-> exists b, s = p ++ b.
Proof.
  revert s. induction p as [|a p IH]; intros s; simpl.
  - split; [intros _; exists s; reflexivity | reflexivity].
  - destruct s as [|b s].
    + split; [discriminate | intros [r Hr]; discriminate].
    + rewrite andb_true_iff, Ascii.eqb_eq, IH. split.
      * intros [-> [r ->]]. exists r. reflexivity.
      * intros [r Hr]. injection Hr as -> ->. split; [reflexivity | exists r; reflexivity].
Qed.

Lemma includes_spec (s p : jsstring) :
  includes s p = true <-> infix p s.
Proof.
  unfold infix. induction s as [|c s IH]; simpl.
  - rewrite orb_false_r, startsWith_spec. split.
    + intros [b Hb]. exists [], b. exact Hb.
    + intros [a [b Hab]]. destruct a; [exists b; exact Hab | discriminate].
  - rewrite orb_true_iff, startsWith_spec, IH. split.
    + intros [[b Hb] | [a [b Hab]]].
      * exists [], b. exact Hb.
      * exists (c :: a), b. rewrite Hab. reflexivity.
    + intros [a [b Hab]]. destruct a as [|x a].
      * left. exists b. exact Hab.
      * right. injection Hab as _ ->. exists a, b. reflexivity.
Qed.

Lemma infix_refl (s : jsstring) : infix s s.
Proof. exists [], []. simpl. rewrite app_nil_r. reflexivity. Qed.

Lemma infix_trans (r t s : jsstring) : infix r t -> infix t s -> infix r s.
Proof.
  intros [a [b ->]] [c [d ->]]. exists (c ++ a), (b ++ d).
  rewrite <- !app_assoc. reflexivity.
Qed.

Lemma infix_map (f : ascii -> ascii) (t s : jsstring) :
  infix t s -> infix (map f t) (map f s).
Proof.
  intros [a [b ->]]. exists (map f a), (map f b).
  rewrite !map_app. reflexivity.
Qed.

Lemma infix_rev (t s : jsstring) : infix t s -> infix (rev t) (rev s).
Proof.
  intros [a [b ->]]. exists (rev b), (rev a).
  rewrite !rev_app_distr, <- app_assoc. reflexivity.
Qed.

(** An occurrence of a pattern does not start in a prefix that lacks the
    first character of the pattern. *)
Lemma infix_skip_prefix (m0 : ascii) (m w x : jsstring) :
  Forall (fun c => c <> m0) w -> infix (m0 :: m) (w ++ x) -> infix (m0 :: m) x.
Proof.
  induction 1 as [|c w Hc Hw IH]; intros [a [b Hab]].
  - exists a, b. exact Hab.
  - destruct a as [|y a]; simpl in Hab.
    + injection Hab as Hcm _. contradiction.
    + injection Hab as _ Hab. apply IH. exists a, b. exact Hab.
Qed.

Lemma infix_skip_suffix (m0 : ascii) (m w x : jsstring) :
  Forall (fun c => c <> m0) w -> infix (m ++ [m0]) (x ++ w) -> infix (m ++ [m0]) x.
Proof.
  intros Hw Hin. apply infix_rev in Hin.
  rewrite !rev_app_distr in Hin. simpl in Hin.
  apply infix_skip_prefix in Hin.
  - apply infix_rev in Hin. simpl in Hin. rewrite !rev_involutive in Hin.
    exact Hin.
  - apply List.Forall_rev. exact Hw.
Qed.

(** A pattern without the separator that begins a text of the form
    [l ++ sep :: J] lies within [l]. *)
Lemma prefix_before_sep (sep : ascii) (m b l J : jsstring) :
  Forall (fun c => c <> sep) m -> m ++ b = l ++ sep :: J -> exists b', l = m ++ b'.
Proof.
  intros Hm. revert l. induction Hm as [|c m Hc Hm IH]; intros l Heq.
  - exists l. reflexivity.
  - destruct l as [|y l]; simpl in Heq.
    + injection Heq as Hce _. contradiction.
    + injection Heq as -> Heq. destruct (IH l Heq) as [b' ->].
      exists b'. reflexivity.
Qed.

Lemma infix_sep (sep : ascii) (m l J : jsstring) :
  Forall (fun c => c <> sep) m ->
  infix m (l ++ sep :: J) -> infix m l \/ infix m J.
Proof.
  intros Hm [a [b Hab]]. revert l Hab.
  induction a as [|x a IH]; intros l Hab; simpl in Hab.
  - left. symmetry in Hab. destruct (prefix_before_sep _ _ _ _ _ Hm Hab) as [b' ->].
    exists [], b'. reflexivity.
  - destruct l as [|y l]; simpl in Hab.
    + injection Hab as _ ->. right. exists a, b. reflexivity.
    + injection Hab as _ Hab. destruct (IH l Hab) as [[a' [b' ->]] | HJ].
      * left. exists (y :: a'), b'. reflexivity.
      * right. exact HJ.
Qed.

(** *** trim *)

Lemma trimStart_headOk (s : jsstring) : headOk (trimStart s).
Proof.
  induction s as [|c s IH]; simpl; [exact I|].
  destruct (isWhiteSpace c) eqn:E; [exact IH | exact E].
Qed.

Lemma trimStart_id (s : jsstring) : headOk s -> trimStart s = s.
Proof. destruct s as [|c s]; simpl; [reflexivity | intros ->; reflexivity]. Qed.

Lemma trimStart_decomp (s : jsstring) :
  exists w, s = w ++ trimStart s /\ Forall (fun c => isWhiteSpace c = true) w.
Proof.
  induction s as [|c s [w [IH Hw]]]; simpl.
  - exists []. split; [reflexivity | constructor].
  - destruct (isWhiteSpace c) eqn:E.
    + exists (c :: w). split; [simpl; congruence | constructor; assumption].
    + exists []. split; [reflexivity | constructor].
Qed.

Lemma trimEnd_decomp (s : jsstring) :
  exists w, s = trimEnd s ++ w /\ Forall (fun c => isWhiteSpace c = true) w.
Proof.
  unfold trimEnd. destruct (trimStart_decomp (rev s)) as [w [Hw Hall]].
  exists (rev w). split.
  - rewrite <- rev_app_distr, <- Hw, rev_involutive. reflexivity.
  - apply List.Forall_rev. exact Hall.
Qed.

Lemma trim_decomp (s : jsstring) :
  exists w1 w2, s = w1 ++ trim s ++ w2
    /\ Forall (fun c => isWhiteSpace c = true) w1
    /\ Forall (fun c => isWhiteSpace c = true) w2.
Proof.
  destruct (trimStart_decomp s) as [w1 [H1 A1]].
  destruct (trimEnd_decomp (trimStart s)) as [w2 [H2 A2]].
  exists w1, w2. unfold trim. rewrite <- H2, <- H1. auto.
Qed.

Lemma trim_infix (s : jsstring) : infix (trim s) s.
Proof. destruct (trim_decomp s) as [w1 [w2 [H _]]]. exists w1, w2. exact H. Qed.

Lemma trimEnd_headOk (s : jsstring) : headOk s -> headOk (trimEnd s).
Proof.
  intros Hs. destruct (trimEnd_decomp s) as [w [Hw _]].
  destruct (trimEnd s) as [|c t]; [exact I|].
  rewrite Hw in Hs. exact Hs.
Qed.

Lemma trimEnd_idem (s : jsstring) : trimEnd (trimEnd s) = trimEnd s.
Proof.
  unfold trimEnd. rewrite rev_involutive.
  rewrite (trimStart_id (trimStart (rev s))); [reflexivity | apply trimStart_headOk].
Qed.

Lemma trim_idem (s : jsstring) : trim (trim s) = trim s.
Proof.
  unfold trim at 1.
  rewrite (trimStart_id (trim s)).
  - unfold trim. apply trimEnd_idem.
  - unfold trim. apply trimEnd_headOk, trimStart_headOk.
Qed.

(** *** split and join *)

Lemma split_nonempty (s : jsstring) : split s <> [].
Proof.
  induction s as [|c s IH]; simpl; [discriminate|].
  destruct (isNewline c); [discriminate|].
  destruct (split s); [contradiction | discriminate].
Qed.

Lemma join_split (s : jsstring) : join (split s) = s.
Proof.
  induction s as [|c s IH]; simpl; [reflexivity|].
  destruct (isNewline c) eqn:E.
  - apply Ascii.eqb_eq in E. subst c.
    pose proof (split_nonempty s) as Hne.
    simpl. destruct (split s) as [|l ls]; [contradiction|].
    rewrite IH. reflexivity.
  - pose proof (split_nonempty s) as Hne.
    destruct (split s) as [|l ls]; [contradiction|].
    simpl in *. destruct ls; rewrite <- IH; reflexivity.
Qed.

Lemma In_join_infix (l : jsstring) (ls : list jsstring) :
  In l ls -> infix l (join ls).
Proof.
  induction ls as [|x ls IH]; [intros []|].
  intros [-> | Hin]; simpl.
  - destruct ls; [apply infix_refl|]. exists [], (newline :: join (j :: ls)). reflexivity.
  - destruct ls as [|y ls]; [destruct Hin|].
    destruct (IH Hin) as [a [b Hab]]. exists (x ++ newline :: a), b.
    rewrite Hab, <- app_assoc. reflexivity.
Qed.

End JsFacts.

(** ** Content Cleaner *)

Module CleanerFacts.
Import Js JsFacts Cleaner.

Lemma whitespace_lower (c : ascii) :
  isWhiteSpace c = true -> toLowerChar c <> "s"%char /\ toLowerChar c <> ":"%char.
Proof.
  destruct c as [b0 b1 b2 b3 b4 b5 b6 b7].
  destruct b0, b1, b2, b3, b4, b5, b6, b7; vm_compute; intros H;
    first [discriminate H | split; discriminate].
Qed.

Lemma whitespace_lower_all (w : jsstring) (c0 : ascii) :
  c0 = "s"%char \/ c0 = ":"%char ->
  Forall (fun c => isWhiteSpace c = true) w ->
  Forall (fun c => c <> c0) (toLowerCase w).
Proof.
  intros Hc0. induction 1 as [|c w Hc Hw IH]; simpl; constructor; [|exact IH].
  destruct (whitespace_lower c Hc) as [Hs Hcolon].
  destruct Hc0 as [-> | ->]; assumption.
Qed.

Lemma marker_no_newline : Forall (fun c => c <> newline) marker.
Proof. unfold marker. simpl. repeat constructor; discriminate. Qed.

(** The test of the loop sees the marker exactly when the line holds it:
    trimming removes white space only, and the marker neither begins nor
    ends with white space. *)
Lemma hasMarker_iff (l : jsstring) :
  hasMarker l = true <-> infix marker (toLowerCase l).
Proof.
  unfold hasMarker. rewrite includes_spec. split.
  - intros H. eapply infix_trans; [exact H|]. apply infix_map, trim_infix.
  - intros H. destruct (trim_decomp l) as [w1 [w2 [Hl [A1 A2]]]].
    rewrite Hl in H. unfold toLowerCase in *. rewrite !map_app in H.
    change marker with ("s"%char :: list_ascii_of_string "cience papers:") in H.
    apply infix_skip_prefix in H;
      [| apply (whitespace_lower_all w1 "s"%char); auto].
    change ("s"%char :: list_ascii_of_string "cience papers:")
      with (list_ascii_of_string "science papers" ++ [":"%char]) in H.
    apply infix_skip_suffix in H;
      [| apply (whitespace_lower_all w2 ":"%char); auto].
    exact H.
Qed.

Lemma hasMarker_false (l : jsstring) : hasMarker l = false <-> unmarked l.
Proof.
  unfold unmarked. rewrite <- hasMarker_iff.
  destruct (hasMarker l); split; intros H; try reflexivity; try discriminate.
  exfalso. apply H. reflexivity.
Qed.

Lemma unmarked_infix (t s : jsstring) : infix t s -> unmarked s -> unmarked t.
Proof.
  intros Hts Hs Ht. apply Hs. eapply infix_trans; [exact Ht|].
  apply infix_map. exact Hts.
Qed.

Lemma unmarked_nil : unmarked [].
Proof.
  intros [a [b H]]. simpl in H. destruct a; discriminate.
Qed.

(** The marker holds no line break, so it cannot straddle two lines. *)
Lemma unmarked_join (ls : list jsstring) :
  Forall unmarked ls -> unmarked (join ls).
Proof.
  induction 1 as [|l ls Hl Hls IH]; simpl; [apply unmarked_nil|].
  destruct ls as [|l2 ls]; [exact Hl|].
  intros Hin. unfold toLowerCase in Hin. rewrite map_app in Hin. simpl in Hin.
  change (toLowerChar newline) with newline in Hin.
  apply infix_sep in Hin; [| apply marker_no_newline].
  destruct Hin as [Hin | Hin]; [exact (Hl Hin) | exact (IH Hin)].
Qed.

Lemma unmarked_split (s : jsstring) :
  unmarked s -> Forall unmarked (split s).
Proof.
  intros Hs. apply List.Forall_forall. intros l Hl.
  apply (unmarked_infix l s); [| exact Hs].
  rewrite <- (join_split s). apply In_join_infix. exact Hl.
Qed.

(** Every line the loop retains is free of the marker. *)
Lemma cleanLines_unmarked (lines : list jsstring) (skipMode : bool) :
  Forall unmarked (cleanLines lines skipMode).
Proof.
  revert skipMode. induction lines as [|line rest IH]; intros skipMode; simpl.
  - constructor.
  - destruct (includes (toLowerCase (trim line)) marker) eqn:E; [apply IH|].
    assert (unmarked line) as Hline by (apply hasMarker_false; exact E).
    destruct skipMode; [destruct (stillSkipping (trim line) rest)|];
      try apply IH; constructor; auto.
Qed.

(** Without a marker the loop never enters skip mode and keeps all lines. *)
Lemma cleanLines_keep (lines : list jsstring) :
  Forall unmarked lines -> cleanLines lines false = lines.
Proof.
  induction 1 as [|line rest Hline Hrest IH]; simpl; [reflexivity|].
  apply hasMarker_false in Hline. unfold hasMarker in Hline.
  rewrite Hline, IH. reflexivity.
Qed.

Lemma clean_unmarked (answer : jsstring) : unmarked (clean answer).
Proof.
  unfold clean. apply (unmarked_infix _ _ (trim_infix _)).
  apply unmarked_join, cleanLines_unmarked.
Qed.

Lemma clean_of_unmarked (s : jsstring) : unmarked s -> clean s = trim s.
Proof.
  intros Hs. unfold clean.
  rewrite cleanLines_keep by (apply unmarked_split; exact Hs).
  rewrite join_split. reflexivity.
Qed.

Lemma clean_idempotent (answer : jsstring) :
  clean (clean answer) = clean answer.
Proof.
  rewrite (clean_of_unmarked (clean answer) (clean_unmarked answer)).
  unfold clean. apply trim_idem.
Qed.

End CleanerFacts.

(** C7: the cleaner is a function of its argument alone, and on the two
    texts of the examples it gives: for the text with the references section
    ("Hello", "Science papers:", "Smith 2020.01.01", "10.1234/x", one per
    line) the result "Hello"; for the text without a marker ("Hello", an
    empty line, "More content") the text itself. *)
Theorem cleanAnswerForTwitter_examples :
  cleanAnswerForTwitter citedAnswer = "Hello"%string
  /\ cleanAnswerForTwitter plainAnswer = plainAnswer
  /\ Js.includes (Js.toLowerCase (list_ascii_of_string plainAnswer)) Cleaner.marker = false.
Proof. repeat split; vm_compute; reflexivity. Qed.

(** C10: the cleaner is idempotent.  No line it retains holds the marker
    (in any letter case), so its result holds none either, and a second
    pass keeps every line and trims a text that is already trimmed. *)
Theorem cleanAnswerForTwitter_idempotent (answer : string) :
  Forall (fun line => Cleaner.hasMarker line = false)
    (Cleaner.cleanLines (Js.split (list_ascii_of_string answer)) false)
  /\ cleanAnswerForTwitter (cleanAnswerForTwitter answer)
     = cleanAnswerForTwitter answer.
Proof.
  split.
  - eapply List.Forall_impl; [| apply CleanerFacts.cleanLines_unmarked].
    intros l Hl. apply CleanerFacts.hasMarker_false. exact Hl.
  - unfold cleanAnswerForTwitter.
    rewrite list_ascii_of_string_of_list_ascii.
    rewrite CleanerFacts.clean_idempotent. reflexivity.
Qed.

(** ** Reasoning about bot actions *)

Lemma wp_ret {A : Type} (a : A) (Q : A -> Bot -> Prop) (st : Bot) :
  wp (ret a) Q st <-> Q a st.
Proof. reflexivity. Qed.

Lemma wp_bind {A B : Type} (m : M A) (k : A -> M B) (Q : B -> Bot -> Prop) (st : Bot) :
  wp (bind m k) Q st <-> wp m (fun a st' => wp (k a) Q st') st.
Proof. unfold wp, bind. destruct (m st) as [[a st']|]; reflexivity. Qed.

Lemma wp_mono {A : Type} (m : M A) (Q Q' : A -> Bot -> Prop) (st : Bot) :
  (forall a st', Q a st' -> Q' a st') -> wp m Q st -> wp m Q' st.
Proof. unfold wp. destruct (m st) as [[a st']|]; auto. Qed.

Lemma wp_run {A : Type} (m : M A) (Q : A -> Bot -> Prop) (st : Bot) :
  wp m Q st <-> exists a st', m st = Some (a, st') /\ Q a st'.
Proof.
  unfold wp. destruct (m st) as [[a st']|]; split.
  - intros H. exists a, st'. auto.
  - intros [a' [st'' [E H]]]. injection E as -> ->. exact H.
  - intros [].
  - intros [a' [st'' [E _]]]. discriminate.
Qed.

Lemma wp_respects {A : Type} (R : Bot -> Bot -> Prop) (m : M A)
    (Q : A -> Bot -> Prop) (st : Bot) :
  respects R m -> wp m Q st -> wp m (fun a st' => Q a st' /\ R st st') st.
Proof.
  intros HR H. unfold wp in *. destruct (m st) as [[a st']|] eqn:E; [| contradiction].
  split; [exact H | exact (HR st a st' E)].
Qed.

Lemma wp_get (Q : Bot -> Bot -> Prop) (st : Bot) : wp get Q st <-> Q st st.
Proof. reflexivity. Qed.

Lemma wp_modify (f : Bot -> Bot) (Q : unit -> Bot -> Prop) (st : Bot) :
  wp (modify f) Q st <-> Q tt (f st).
Proof. reflexivity. Qed.

Section Frames.

Variable R : Bot -> Bot -> Prop.
Hypothesis R_refl : forall st, R st st.
Hypothesis R_trans : forall a b c, R a b -> R b c -> R a c.

Lemma keeps_respects {A : Type} (m : M A) : keeps R m -> respects R m.
Proof.
  intros H st a st' E. specialize (H st). unfold wp in H. rewrite E in H. exact H.
Qed.

Lemma keeps_ret {A : Type} (a : A) : keeps R (ret a).
Proof. intros st. apply R_refl. Qed.

Lemma keeps_get : keeps R get.
Proof. intros st. apply R_refl. Qed.

Lemma keeps_bind {A B : Type} (m : M A) (k : A -> M B) :
  keeps R m -> (forall a, keeps R (k a)) -> keeps R (bind m k).
Proof.
  intros Hm Hk st. apply wp_bind. eapply wp_mono; [| apply Hm].
  intros a st1 H1. eapply wp_mono; [| apply Hk].
  intros b st2 H2. cbv beta in *. eapply R_trans; eassumption.
Qed.

Lemma keeps_when (b : bool) (m : M unit) : keeps R m -> keeps R (when b m).
Proof. intros H. destruct b; [exact H | apply keeps_ret]. Qed.

Lemma keeps_modify (f : Bot -> Bot) : (forall st, R st (f st)) -> keeps R (modify f).
Proof. intros H st. apply H. Qed.

Lemma respects_ret {A : Type} (a : A) : respects R (ret a).
Proof. intros st a' st' E. injection E as _ <-. apply R_refl. Qed.

Lemma respects_diverge {A : Type} : respects R (@diverge A).
Proof. intros st a st' E. discriminate. Qed.

Lemma respects_bind {A B : Type} (m : M A) (k : A -> M B) :
  respects R m -> (forall a, respects R (k a)) -> respects R (bind m k).
Proof.
  intros Hm Hk st b st' E. unfold bind in E.
  destruct (m st) as [[a st1]|] eqn:E1; [| discriminate].
  eapply R_trans; [eapply Hm | eapply Hk]; eassumption.
Qed.

End Frames.

Lemma steady_refl (st : Bot) : steady st st.
Proof. unfold steady. repeat split; lia. Qed.

Lemma steady_trans (a b c : Bot) : steady a b -> steady b c -> steady a c.
Proof. unfold steady. intros (?&?&?) (?&?&?). repeat split; try congruence; lia. Qed.

Lemma quiet_refl (st : Bot) : quiet st st.
Proof. unfold quiet. repeat split; try reflexivity; apply steady_refl. Qed.

Lemma quiet_trans (a b c : Bot) : quiet a b -> quiet b c -> quiet a c.
Proof.
  unfold quiet. intros (S1&?&?&?&?&?&?&?&?&?&?&?) (S2&?&?&?&?&?&?&?&?&?&?&?).
  split; [exact (steady_trans _ _ _ S1 S2)|]. repeat split; congruence.
Qed.

Lemma quiet_steady (st st' : Bot) : quiet st st' -> steady st st'.
Proof. intros [H _]. exact H. Qed.

Lemma deliveries_app (tr1 tr2 : list Event) :
  deliveries (tr1 ++ tr2) = deliveries tr1 ++ deliveries tr2.
Proof. apply List.filter_app. Qed.

Ltac quiet_state :=
  intros; unfold quiet, steady; cbn;
  rewrite ?deliveries_app; cbn; rewrite ?app_nil_r;
  repeat split; try reflexivity; try lia.

Section TrackerFacts.

Variable config : Config.
Variable env : Env.

Lemma log_quiet (level : Level) (message : string) :
  keeps quiet (log level message).
Proof. unfold log, emit. apply keeps_modify. quiet_state. Qed.

Lemma sleep_quiet (why : Timer) (ms : Z) :
  why <> Backoff -> keeps quiet (sleep why ms).
Proof.
  intros Hwhy. unfold sleep, emit.
  apply (keeps_bind _ quiet_trans); [| intros _]; apply keeps_modify.
  - destruct why; try contradiction; quiet_state.
  - quiet_state.
Qed.

Lemma setRateLimit_quiet (endpoint : Endpoint.t) (rl : RateLimit) :
  keeps quiet (setRateLimit endpoint rl).
Proof. unfold setRateLimit. apply keeps_modify. quiet_state. Qed.

Lemma updateRateLimitInfo_quiet (endpoint : Endpoint.t) (headers : option Headers) :
  keeps quiet (updateRateLimitInfo endpoint headers).
Proof.
  unfold updateRateLimitInfo. destruct headers as [h|]; [| apply (keeps_ret _ quiet_refl)].
  apply (keeps_bind _ quiet_trans); [apply (keeps_get _ quiet_refl) | intros st].
  apply (keeps_bind _ quiet_trans); [apply setRateLimit_quiet | intros _; apply log_quiet].
Qed.

Lemma checkRateLimit_quiet (endpoint : Endpoint.t) :
  keeps quiet (checkRateLimit endpoint).
Proof.
  unfold checkRateLimit.
  apply (keeps_bind _ quiet_trans); [apply (keeps_get _ quiet_refl) | intros st].
  destruct (negb (truthyNum (remaining (rateLimits st endpoint)))
            || negb (truthyNum (resetTime (rateLimits st endpoint))));
    [apply (keeps_ret _ quiet_refl)|].
  destruct (remaining (rateLimits st endpoint)) as [rem|];
    [| apply (keeps_ret _ quiet_refl)].
  destruct (resetTime (rateLimits st endpoint)) as [reset|];
    [| apply (keeps_ret _ quiet_refl)].
  destruct (now st >=? reset).
  - apply (keeps_bind _ quiet_trans); [apply setRateLimit_quiet | intros _].
    apply (keeps_ret _ quiet_refl).
  - destruct (rem >? 0); [apply (keeps_ret _ quiet_refl)|].
    apply (keeps_bind _ quiet_trans); [apply log_quiet | intros _].
    apply (keeps_ret _ quiet_refl).
Qed.

(** With a slice of fuel for each 5000 ms the loop of [waitForRateLimit]
    runs to its end. *)
Lemma waitChunks_quiet (fuel : nat) (remainingWait : Z) :
  remainingWait <= 5000 * Z.of_nat fuel ->
  keeps quiet (waitChunks fuel remainingWait).
Proof.
  revert remainingWait. induction fuel as [|fuel IH]; intros w Hw; simpl.
  - apply (keeps_bind _ quiet_trans); [apply (keeps_get _ quiet_refl) | intros st].
    destruct (w >? 0) eqn:E; [lia | apply (keeps_ret _ quiet_refl)].
  - apply (keeps_bind _ quiet_trans); [apply (keeps_get _ quiet_refl) | intros st].
    destruct ((w >? 0) && isRunning st); [| apply (keeps_ret _ quiet_refl)].
    apply (keeps_bind _ quiet_trans); [apply sleep_quiet; discriminate | intros _].
    apply (keeps_bind _ quiet_trans);
      [apply (keeps_when _ quiet_refl), log_quiet | intros _].
    apply IH. lia.
Qed.

Lemma chunksOf_enough (waitTime : Z) :
  0 < waitTime -> waitTime <= 5000 * Z.of_nat (chunksOf waitTime).
Proof.
  intros H. unfold chunksOf. rewrite Z2Nat.id by (apply Z.div_pos; lia).
  pose proof (Z.div_mod (waitTime + 4999) 5000 ltac:(lia)).
  pose proof (Z.mod_pos_bound (waitTime + 4999) 5000 ltac:(lia)). lia.
Qed.

Lemma modifyStats_wait_quiet (waitTime : Z) :
  keeps quiet (modifyStats (add_rateLimitWait waitTime)).
Proof. unfold modifyStats. apply keeps_modify. quiet_state. Qed.

Lemma waitForRateLimit_quiet (waitTime : Z) : keeps quiet (waitForRateLimit waitTime).
Proof.
  unfold waitForRateLimit. destruct (waitTime <=? 0) eqn:E;
    [apply (keeps_ret _ quiet_refl)|].
  apply (keeps_bind _ quiet_trans); [apply log_quiet | intros _].
  apply (keeps_bind _ quiet_trans); [apply modifyStats_wait_quiet | intros _].
  apply (keeps_bind _ quiet_trans);
    [apply waitChunks_quiet, chunksOf_enough; lia | intros _].
  apply (keeps_bind _ quiet_trans); [apply (keeps_get _ quiet_refl) | intros st].
  apply (keeps_when _ quiet_refl), log_quiet.
Qed.

End TrackerFacts.

(** ** Rate-Limit Tracker *)

(** What [checkRateLimit] does when the remaining quota is zero: the test
    [!rateLimit.remaining] holds, so the call may proceed and the entry is
    left as it is, whatever the reset time. *)
Lemma checkRateLimit_zero (endpoint : Endpoint.t) (st : Bot) :
  remaining (rateLimits st endpoint) = Some 0 ->
  checkRateLimit endpoint st = Some ((true, 0), st).
Proof. intros H. unfold checkRateLimit, bind, get. rewrite H. reflexivity. Qed.

(** [checkRateLimit] refuses only on a negative remaining quota. *)
Lemma checkRateLimit_refuses (endpoint : Endpoint.t) (st st' : Bot) (waitTime : Z) :
  checkRateLimit endpoint st = Some ((false, waitTime), st') ->
  exists rem reset,
    remaining (rateLimits st endpoint) = Some rem /\ rem < 0
    /\ resetTime (rateLimits st endpoint) = Some reset
    /\ now st < reset /\ waitTime = reset - now st.
Proof.
  unfold checkRateLimit, bind, get, ret.
  destruct (remaining (rateLimits st endpoint)) as [rem|]; [| discriminate].
  destruct (resetTime (rateLimits st endpoint)) as [reset|];
    [| cbn; rewrite orb_true_r; discriminate].
  cbn. destruct (rem =? 0) eqn:E0; [discriminate|].
  destruct (reset =? 0) eqn:E1; [discriminate|]. cbn.
  destruct (now st >=? reset) eqn:E2; [discriminate|].
  destruct (rem >? 0) eqn:E3; [discriminate|].
  cbn. intros H. injection H as <- _. exists rem, reset.
  repeat split; lia.
Qed.

(** C2: on a tracker entry with remaining = 0, limit = 300 and a reset time
    10 seconds ahead, [checkRateLimit] answers canProceed = true with
    waitTime = 0 where the claim has canProceed = false and a wait of
    10000 ms; and once the clock is at the reset time it answers
    canProceed = true but leaves remaining at 0 instead of the limit. *)
Theorem checkRateLimit_exhausted_proceeds :
  checkRateLimit Endpoint.tweets (exhaustedBot 0 10000)
    = Some ((true, 0), exhaustedBot 0 10000)
  /\ checkRateLimit Endpoint.tweets (exhaustedBot 10000 10000)
    = Some ((true, 0), exhaustedBot 10000 10000)
  /\ remaining (rateLimits (exhaustedBot 10000 10000) Endpoint.tweets) = Some 0
  /\ limit (rateLimits (exhaustedBot 10000 10000) Endpoint.tweets) = Some 300.
Proof. repeat split. Qed.

(** ** Ledger *)

Section UpsertFacts.

Lemma rowsOf_none (recordId : string) (table : list Ledger.row) :
  ~ In recordId (map Ledger.record_id table) -> rowsOf recordId table = [].
Proof.
  induction table as [|r rest IH]; simpl; [reflexivity|].
  intros H. destruct (String.eqb_spec (Ledger.record_id r) recordId) as [E|E].
  - exfalso. apply H. left. exact E.
  - apply IH. intros Hin. apply H. right. exact Hin.
Qed.

Lemma rowsOf_In (recordId : string) (table : list Ledger.row) (r : Ledger.row) :
  In r (rowsOf recordId table) <-> In r table /\ Ledger.record_id r = recordId.
Proof.
  unfold rowsOf. rewrite List.filter_In, String.eqb_eq. reflexivity.
Qed.

Lemma upsert_keys (t : Z) (new : Ledger.row) (table : list Ledger.row) :
  In (Ledger.record_id new) (map Ledger.record_id table) ->
  map Ledger.record_id (upsert t new table) = map Ledger.record_id table.
Proof.
  induction table as [|r rest IH]; simpl; [intros []|].
  destruct (String.eqb_spec (Ledger.record_id r) (Ledger.record_id new)) as [E|E].
  - intros _. reflexivity.
  - intros [H | H]; [contradiction|]. simpl. rewrite IH by exact H. reflexivity.
Qed.

Lemma upsert_keys_fresh (t : Z) (new : Ledger.row) (table : list Ledger.row) :
  ~ In (Ledger.record_id new) (map Ledger.record_id table) ->
  upsert t new table = table ++ [new].
Proof.
  induction table as [|r rest IH]; simpl; [reflexivity|].
  intros H. destruct (String.eqb_spec (Ledger.record_id r) (Ledger.record_id new)) as [E|E].
  - exfalso. apply H. left. exact E.
  - rewrite IH; [reflexivity|]. intros Hin. apply H. right. exact Hin.
Qed.

Lemma rowsOf_app (recordId : string) (a b : list Ledger.row) :
  rowsOf recordId (a ++ b) = rowsOf recordId a ++ rowsOf recordId b.
Proof. apply List.filter_app. Qed.

(** A key that is not in the table is inserted as one new row. *)
Lemma rowsOf_upsert_fresh (t : Z) (new : Ledger.row) (table : list Ledger.row) :
  ~ In (Ledger.record_id new) (map Ledger.record_id table) ->
  rowsOf (Ledger.record_id new) (upsert t new table) = [new].
Proof.
  intros H. rewrite upsert_keys_fresh by exact H.
  rewrite rowsOf_app, rowsOf_none by exact H.
  simpl. rewrite String.eqb_refl. reflexivity.
Qed.

(** A key that is in the table has its row updated where it stands. *)
Lemma rowsOf_upsert_existing (t : Z) (new old : Ledger.row) (table : list Ledger.row) :
  primaryKey table ->
  rowsOf (Ledger.record_id new) table = [old] ->
  rowsOf (Ledger.record_id new) (upsert t new table) = [conflictUpdate t new old].
Proof.
  unfold primaryKey. induction table as [|r rest IH]; simpl; [discriminate|].
  intros Hpk. apply List.NoDup_cons_iff in Hpk. destruct Hpk as [Hnotin Hpk].
  destruct (String.eqb_spec (Ledger.record_id r) (Ledger.record_id new)) as [E|E].
  - intros H. injection H as -> Hrest. simpl.
    rewrite E, String.eqb_refl. rewrite <- E.
    rewrite (rowsOf_none _ rest Hnotin). reflexivity.
  - intros H. simpl. destruct (String.eqb_spec (Ledger.record_id r) (Ledger.record_id new));
      [contradiction|]. apply IH; assumption.
Qed.

Lemma rowsOf_upsert_other (t : Z) (new : Ledger.row) (table : list Ledger.row)
    (recordId : string) :
  recordId <> Ledger.record_id new ->
  rowsOf recordId (upsert t new table) = rowsOf recordId table.
Proof.
  intros Hne.
  induction table as [|r rest IH]; simpl.
  - destruct (String.eqb_spec (Ledger.record_id new) recordId); [congruence | reflexivity].
  - destruct (String.eqb_spec (Ledger.record_id r) (Ledger.record_id new)) as [E|E]; simpl.
    + rewrite E. destruct (String.eqb_spec (Ledger.record_id new) recordId);
        [congruence | reflexivity].
    + rewrite IH. reflexivity.
Qed.

Lemma rowsOf_one (recordId : string) (table : list Ledger.row) :
  primaryKey table ->
  In recordId (map Ledger.record_id table) ->
  exists old, rowsOf recordId table = [old].
Proof.
  unfold primaryKey. induction table as [|r rest IH]; simpl; [intros _ []|].
  intros Hpk Hin. apply List.NoDup_cons_iff in Hpk. destruct Hpk as [Hnotin Hpk].
  destruct (String.eqb_spec (Ledger.record_id r) recordId) as [E|E].
  - exists r. rewrite <- E. rewrite (rowsOf_none _ rest Hnotin). reflexivity.
  - destruct Hin as [Hin | Hin]; [contradiction|]. apply IH; assumption.
Qed.

(** After the statement the key has exactly one row. *)
Lemma rowsOf_upsert_one (t : Z) (new : Ledger.row) (table : list Ledger.row) :
  primaryKey table ->
  exists r, rowsOf (Ledger.record_id new) (upsert t new table) = [r].
Proof.
  intros Hpk.
  destruct (in_dec string_dec (Ledger.record_id new) (map Ledger.record_id table))
    as [Hin | Hnotin].
  - destruct (rowsOf_one _ _ Hpk Hin) as [old Hold].
    exists (conflictUpdate t new old). apply rowsOf_upsert_existing; assumption.
  - exists new. apply rowsOf_upsert_fresh. exact Hnotin.
Qed.

Lemma upsert_primaryKey (t : Z) (new : Ledger.row) (table : list Ledger.row) :
  primaryKey table -> primaryKey (upsert t new table).
Proof.
  intros Hpk. unfold primaryKey in *.
  destruct (in_dec string_dec (Ledger.record_id new) (map Ledger.record_id table))
    as [Hin | Hnotin].
  - rewrite upsert_keys by exact Hin. exact Hpk.
  - rewrite upsert_keys_fresh by exact Hnotin. rewrite map_app. simpl.
    apply List.NoDup_app; [exact Hpk | repeat constructor; intros [] |].
    intros k Hk [<- | []]. contradiction.
Qed.

Lemma rowsOf_key (recordId : string) (table : list Ledger.row) (r : Ledger.row) :
  rowsOf recordId table = [r] -> In recordId (map Ledger.record_id table).
Proof.
  intros H. assert (In r (rowsOf recordId table)) as Hin by (rewrite H; left; reflexivity).
  apply rowsOf_In in Hin. destruct Hin as [Hin <-]. apply in_map. exact Hin.
Qed.

End UpsertFacts.

(** ** Storage *)

Lemma storage_refl (st : Bot) : storage st st.
Proof. unfold storage. repeat split; try reflexivity; apply steady_refl. Qed.

Lemma storage_trans (a b c : Bot) : storage a b -> storage b c -> storage a c.
Proof.
  unfold storage. intros (S1&?&?&?&?&?&?) (S2&?&?&?&?&?&?).
  split; [exact (steady_trans _ _ _ S1 S2)|]. repeat split; congruence.
Qed.

Lemma idle_refl (st : Bot) : idle st st.
Proof. unfold idle. repeat split; try reflexivity; apply storage_refl. Qed.

Lemma idle_trans (a b c : Bot) : idle a b -> idle b c -> idle a c.
Proof.
  unfold idle. intros (S1&?&?) (S2&?&?).
  split; [exact (storage_trans _ _ _ S1 S2)|]. split; congruence.
Qed.

Lemma idle_storage (st st' : Bot) : idle st st' -> storage st st'.
Proof. intros [H _]. exact H. Qed.

Ltac storage_state :=
  intros; unfold idle, storage, steady; cbn;
  rewrite ?deliveries_app; cbn; rewrite ?app_nil_r;
  repeat split; try reflexivity; try lia.

Section StorageFacts.

Variable env : Env.

Lemma log_idle (level : Level) (message : string) :
  keeps idle (log level message).
Proof. unfold log, emit. apply keeps_modify. storage_state. Qed.

Lemma sleep_idle (ms : Z) : keeps idle (sleep QueryRetry ms).
Proof.
  unfold sleep, emit.
  apply (keeps_bind _ idle_trans); [| intros _]; apply keeps_modify; storage_state.
Qed.

Lemma railwayReachable_anyUp (st : Bot) :
  railwayReachable env st = anyUp env (railwayAttempts st) 3 0.
Proof.
  unfold railwayReachable. cbn.
  destruct (railwayUp env (railwayAttempts st)),
    (railwayUp env (S (railwayAttempts st))),
    (railwayUp env (S (S (railwayAttempts st)))); reflexivity.
Qed.

Lemma railwayAttempt_run {A : Type} (statement : Bot -> A * list Ledger.row)
    (st : Bot) :
  railwayAttempt env statement st
  = Some (if railwayUp env (railwayAttempts st)
          then (Some (fst (statement (attempting st))),
                set_processed_records (snd (statement (attempting st)))
                  (attempting st))
          else (None, attempting st)).
Proof.
  unfold railwayAttempt, bind, get, emit, modify, ret. cbn.
  destruct (railwayUp env (railwayAttempts st)); reflexivity.
Qed.

Lemma attempting_storage (st : Bot) : storage st (attempting st).
Proof. unfold attempting. storage_state. Qed.

(** [executeQuery] on the Railway store: when an attempt goes through the
    statement has run once, in a state [stb] that differs from the initial
    one by sleeps, log entries and attempt counts only; otherwise the
    table is as before and the error is thrown. *)
Lemma executeQueryFrom_railway {A : Type}
    (statement : Bot -> A * list Ledger.row) (name : string)
    (left : nat) (attempts : Z) (st : Bot) :
  wp (executeQueryFrom (railwayAttempt env statement) name left attempts)
    (fun r st' =>
       mainAttempts st' = mainAttempts st
       /\ if anyUp env (railwayAttempts st) left attempts
          then exists stb,
              storage st stb
              /\ r = Some (fst (statement stb))
              /\ st' = set_processed_records (snd (statement stb)) stb
          else r = None /\ storage st st'
               /\ railwayAttempts st' = (railwayAttempts st + tries left attempts)%nat)
    st.
Proof.
  revert attempts st. induction left as [|left IH]; intros attempts st.
  - cbn. repeat split; try apply storage_refl. lia.
  - cbn [executeQueryFrom anyUp tries]. apply wp_bind.
    unfold wp at 1. rewrite railwayAttempt_run.
    destruct (railwayUp env (railwayAttempts st)) eqn:U.
    + cbn. split; [reflexivity|].
      exists (attempting st). split; [apply attempting_storage | auto].
    + cbn [orb]. apply wp_bind.
      eapply wp_mono; [| apply (log_idle WARN)].
      intros _ st1 (S1 & R1 & M1). cbv beta.
      assert (storage st st1) as Hst1
        by (eapply storage_trans; [apply attempting_storage | exact S1]).
      destruct (attempts + 1 >=? maxAttempts) eqn:E; cbn [negb andb].
      * cbn. repeat split; try apply Hst1.
        -- rewrite M1. reflexivity.
        -- rewrite R1. cbn. lia.
      * apply wp_bind. eapply wp_mono; [| apply sleep_idle].
        intros _ st2 (S2 & R2 & M2). cbv beta.
        assert (storage st st2) as Hst2
          by (eapply storage_trans; [exact Hst1 | exact S2]).
        eapply wp_mono; [| apply IH].
        intros r st' [HM H]. cbv beta in *.
        split; [rewrite HM, M2, M1; reflexivity|].
        replace (railwayAttempts st2) with (S (railwayAttempts st)) in H
          by (rewrite R2, R1; reflexivity).
        destruct (anyUp env (S (railwayAttempts st)) left (attempts + 1)).
        -- destruct H as [stb [Hb [Hr Hs]]]. exists stb.
           split; [eapply storage_trans; eassumption | auto].
        -- destruct H as [Hr [Hs Hn]]. split; [exact Hr|].
           split; [eapply storage_trans; [exact Hst2 | exact Hs] | lia].
Qed.

Lemma fetchedRows_firstRows (st : Bot) :
  fetchedRows env st
  = match firstRows env (lastCheckTime st) (mainAttempts st) 3 0 with
    | Some rows => rows
    | None => []
    end.
Proof.
  unfold fetchedRows. cbn.
  destruct (mainSelect env (mainAttempts st) (lastCheckTime st)); [reflexivity|].
  destruct (mainSelect env (S (mainAttempts st)) (lastCheckTime st)); [reflexivity|].
  destruct (mainSelect env (S (S (mainAttempts st))) (lastCheckTime st)); reflexivity.
Qed.

Lemma mainAttempt_run (since : Z) (st : Bot) :
  mainAttempt env since st
  = Some (mainSelect env (mainAttempts st) since, selecting st).
Proof. reflexivity. Qed.

Lemma selecting_storage (st : Bot) : storage st (selecting st).
Proof. unfold selecting. storage_state. Qed.

Lemma executeQueryFrom_main (since : Z) (name : string) (left : nat)
    (attempts : Z) (st : Bot) :
  wp (executeQueryFrom (mainAttempt env since) name left attempts)
    (fun r st' =>
       storage st st'
       /\ railwayAttempts st' = railwayAttempts st
       /\ r = firstRows env since (mainAttempts st) left attempts)
    st.
Proof.
  revert attempts st. induction left as [|left IH]; intros attempts st.
  - cbn. split; [apply storage_refl | split; reflexivity].
  - cbn [executeQueryFrom firstRows]. apply wp_bind.
    unfold wp at 1. rewrite mainAttempt_run.
    destruct (mainSelect env (mainAttempts st) since) as [rows|] eqn:U.
    + cbn. split; [apply selecting_storage | split; reflexivity].
    + apply wp_bind. eapply wp_mono; [| apply (log_idle WARN)].
      intros _ st1 (S1 & R1 & M1). cbv beta.
      assert (storage st st1) as Hst1
        by (eapply storage_trans; [apply selecting_storage | exact S1]).
      destruct (attempts + 1 >=? maxAttempts) eqn:E.
      * cbn. split; [exact Hst1|]. split; [rewrite R1; reflexivity | reflexivity].
      * apply wp_bind. eapply wp_mono; [| apply sleep_idle].
        intros _ st2 (S2 & R2 & M2). cbv beta.
        eapply wp_mono; [| apply IH].
        intros r st' (S3 & R3 & Hr). cbv beta.
        split; [eapply storage_trans; [exact Hst1|]; eapply storage_trans; eassumption|].
        split; [rewrite R3, R2, R1; reflexivity|].
        rewrite Hr, M2, M1. reflexivity.
Qed.

(** *** Ledger operations *)

(** [saveProcessedId]: it always returns; when the store answers within the
    three attempts the row is upserted at the time the statement runs and the
    id joins the seen-set; when it does not, the table and the seen-set are
    as before, the failure is logged last and counted as an error. *)
Lemma saveProcessedId_spec (recordId : Id.t)
    (postedTweetId replyToTweetId : option string) (status : string)
    (contentLength : option Z) (poiTransaction : option string) (st : Bot) :
  wp (saveProcessedId env recordId postedTweetId replyToTweetId status
        contentLength poiTransaction)
    (fun _ st' =>
       recorded st st'
       /\ if railwayReachable env st
          then processed_records st'
               = upsert (now st')
                   (insertedRow (now st') (Id.text recordId) postedTweetId
                      replyToTweetId status contentLength poiTransaction)
                   (processed_records st)
               /\ processedIds st' = {[ recordId ]} ∪ processedIds st
               /\ errors (stats st') = errors (stats st)
          else processed_records st' = processed_records st
               /\ processedIds st' = processedIds st
               /\ errors (stats st') = errors (stats st) + 1
               /\ railwayAttempts st' = (railwayAttempts st + 3)%nat
               /\ exists tr,
                   trace st'
                   = tr ++ [Log ERROR "Failed to save processed record to database"])
    st.
Proof.
  unfold saveProcessedId. apply wp_bind. unfold executeQuery.
  change (Z.to_nat maxAttempts) with 3%nat.
  eapply wp_mono; [| apply executeQueryFrom_railway].
  intros r st1 [HM H]. cbv beta in *.
  rewrite railwayReachable_anyUp.
  destruct (anyUp env (railwayAttempts st) 3 0).
  - destruct H as [stb [Hb [-> ->]]].
    destruct Hb as ((?&?&?)&Hids&Htab&Hstats&?&?&?).
    cbn in HM. unfold wp, recorded, steady. cbn.
    rewrite ?deliveries_app. cbn. rewrite ?app_nil_r, ?Hstats, ?Htab, ?Hids.
    repeat split; auto.
  - destruct H as [-> [Hs Hn]].
    destruct Hs as ((?&?&?)&Hids&Htab&Hstats&?&?&?).
    unfold wp, recorded, steady. cbn.
    rewrite ?deliveries_app. cbn. rewrite ?app_nil_r, ?Hstats.
    repeat split; auto. eexists. reflexivity.
Qed.

(** [loadProcessedIds]: when the store answers, the seen-set is the set of
    the keys of the table. *)
Lemma loadProcessedIds_spec (st : Bot) :
  wp (loadProcessedIds env)
    (fun _ st' =>
       steady st st'
       /\ processed_records st' = processed_records st
       /\ mainAttempts st' = mainAttempts st
       /\ processedIds st'
          = if railwayReachable env st
            then list_to_set (map Id.Str (map Ledger.record_id (processed_records st)))
            else ∅)
    st.
Proof.
  unfold loadProcessedIds. apply wp_bind. unfold executeQuery.
  change (Z.to_nat maxAttempts) with 3%nat.
  eapply wp_mono; [| apply executeQueryFrom_railway].
  intros r st1 [HM H]. cbv beta in *.
  rewrite railwayReachable_anyUp.
  destruct (anyUp env (railwayAttempts st) 3 0).
  - destruct H as [stb [Hb [-> ->]]].
    destruct Hb as ((?&?&?)&Hids&Htab&Hstats&?&?&?).
    cbn in HM. cbn. unfold steady. cbn. rewrite Htab. repeat split; auto.
  - destruct H as [-> [Hs Hn]].
    destruct Hs as ((?&?&?)&Hids&Htab&Hstats&?&?&?).
    cbn. unfold steady. cbn. repeat split; auto.
Qed.

(** *** Source Poller *)

Lemma getNewRecords_spec (st : Bot) :
  wp (getNewRecords env)
    (fun records st' =>
       records = List.filter (unseen (processedIds st)) (fetchedRows env st)
       /\ steady st st'
       /\ processedIds st' = processedIds st
       /\ processed_records st' = processed_records st
       /\ railwayAttempts st' = railwayAttempts st)
    st.
Proof.
  unfold getNewRecords. apply wp_bind. unfold wp at 1, get. apply wp_bind.
  eapply wp_mono; [| apply (log_idle DEBUG)].
  intros _ st0 (S0 & R0 & M0). cbv beta.
  apply wp_bind. unfold executeQuery. change (Z.to_nat maxAttempts) with 3%nat.
  eapply wp_mono; [| apply executeQueryFrom_main].
  intros r st1 (S1 & R1 & Hr). cbv beta.
  pose proof (storage_trans _ _ _ S0 S1) as S01.
  destruct S01 as ((?&?&?)&Hids&Htab&Hstats&?&?&?).
  rewrite fetchedRows_firstRows. rewrite <- M0, <- Hr.
  destruct r as [rows|]; cbn; unfold steady; cbn.
  - rewrite Hids. repeat split; auto. congruence.
  - repeat split; auto. congruence.
Qed.

End StorageFacts.

(** A record whose id is not in the seen-set is not excluded by it. *)
Lemma eligible_unseen (record : Answer.row) (st : Bot) :
  Answer.id record ∉ processedIds st -> eligible record st.
Proof.
  intros Hid env st2 records st3 Hids Hget Hin Hvalid.
  pose proof (getNewRecords_spec env st2) as H. unfold wp in H.
  rewrite Hget in H. destruct H as [-> _].
  apply List.filter_In. split; [exact Hin|].
  unfold unseen. rewrite Hvalid. cbn.
  apply negb_true_iff, bool_decide_eq_false. intros Hseen. exact (Hid (Hids Hseen)).
Qed.

(** ** Claims about the ledger and the poller *)

(** C3: two calls of [saveProcessedId] with the same record id, both
    reaching the store, leave exactly one row for that id.  The second call
    updates the row the first one left, where it stands: posted_tweet_id,
    status and updated_at take the new values; processed_at, created_at,
    reply_to_tweet_id, content_length and poi_transaction stay as the first
    call left them; no row is added. *)
Theorem saveProcessedId_twice (env : Env) (st st1 : Bot) (recordId : Id.t)
    (posted1 replyTo1 : option string) (status1 : string)
    (length1 : option Z) (poi1 : option string)
    (posted2 replyTo2 : option string) (status2 : string)
    (length2 : option Z) (poi2 : option string) :
  primaryKey (processed_records st) ->
  railwayReachable env st = true ->
  saveProcessedId env recordId posted1 replyTo1 status1 length1 poi1 st
    = Some (tt, st1) ->
  railwayReachable env st1 = true ->
  exists st2 row1 row2,
    saveProcessedId env recordId posted2 replyTo2 status2 length2 poi2 st1
      = Some (tt, st2)
    /\ rowsOf (Id.text recordId) (processed_records st1) = [row1]
    /\ rowsOf (Id.text recordId) (processed_records st2) = [row2]
    /\ map Ledger.record_id (processed_records st2)
       = map Ledger.record_id (processed_records st1)
    /\ Ledger.posted_tweet_id row2 = posted2
    /\ Ledger.status row2 = status2
    /\ Ledger.updated_at row2 = now st2
    /\ Ledger.processed_at row2 = Ledger.processed_at row1
    /\ Ledger.created_at row2 = Ledger.created_at row1
    /\ Ledger.reply_to_tweet_id row2 = Ledger.reply_to_tweet_id row1
    /\ Ledger.content_length row2 = Ledger.content_length row1
    /\ Ledger.poi_transaction row2 = Ledger.poi_transaction row1.
Proof.
  intros Hpk Hup1 Hrun1 Hup2.
  pose proof (saveProcessedId_spec env recordId posted1 replyTo1 status1 length1
                poi1 st) as H1.
  unfold wp in H1. rewrite Hrun1, Hup1 in H1. destruct H1 as [_ [Htab1 _]].
  pose proof (saveProcessedId_spec env recordId posted2 replyTo2 status2 length2
                poi2 st1) as H2.
  apply wp_run in H2. destruct H2 as [[] [st2 [Hrun2 H2]]].
  rewrite Hup2 in H2. destruct H2 as [_ [Htab2 _]].
  set (new1 := insertedRow (now st1) (Id.text recordId) posted1 replyTo1 status1
                 length1 poi1) in *.
  set (new2 := insertedRow (now st2) (Id.text recordId) posted2 replyTo2 status2
                 length2 poi2) in *.
  destruct (rowsOf_upsert_one (now st1) new1 (processed_records st) Hpk) as [row1 Hrow1].
  change (Ledger.record_id new1) with (Id.text recordId) in Hrow1.
  rewrite <- Htab1 in Hrow1.
  assert (primaryKey (processed_records st1)) as Hpk1
    by (rewrite Htab1; apply upsert_primaryKey; exact Hpk).
  exists st2, row1, (conflictUpdate (now st2) new2 row1).
  split; [exact Hrun2|]. split; [exact Hrow1|]. split.
  - rewrite Htab2. apply (rowsOf_upsert_existing (now st2) new2 row1); assumption.
  - split.
    + rewrite Htab2. apply upsert_keys. apply (rowsOf_key _ _ row1). exact Hrow1.
    + repeat split.
Qed.

Lemma saveProcessedId_twice_witness :
  exists st2 row1 row2,
    saveProcessedId (healthyEnv []) (Id.Str "7") (Some "1001") (Some "111") "success"
      (Some 11) None afterFirstSave = Some (tt, st2)
    /\ rowsOf "7" (processed_records afterFirstSave) = [row1]
    /\ rowsOf "7" (processed_records st2) = [row2]
    /\ map Ledger.record_id (processed_records st2)
       = map Ledger.record_id (processed_records afterFirstSave)
    /\ Ledger.posted_tweet_id row2 = Some "1001"%string
    /\ Ledger.status row2 = "success"%string
    /\ Ledger.updated_at row2 = now st2
    /\ Ledger.processed_at row2 = Ledger.processed_at row1
    /\ Ledger.created_at row2 = Ledger.created_at row1
    /\ Ledger.reply_to_tweet_id row2 = Ledger.reply_to_tweet_id row1
    /\ Ledger.content_length row2 = Ledger.content_length row1
    /\ Ledger.poi_transaction row2 = Ledger.poi_transaction row1.
Proof.
  apply (saveProcessedId_twice (healthyEnv []) (newBot 0 []) afterFirstSave (Id.Str "7")
           None (Some "111"%string) "skipped_tweet_not_accessible" None None).
  - constructor.
  - reflexivity.
  - vm_compute. reflexivity.
  - reflexivity.
Defined.

(** C9, as the code has it: [saveProcessedId] always returns.  When none
    of the three attempts of [executeQuery] reaches the store, the failure is
    logged as an ERROR and counted, and the seen-set and the table are as
    before, so a later poll whose fetch returns the record takes it as a
    candidate again; the seen-set changes only when the statement has run on
    the store, and then the table holds a row for the text of the id. *)
Theorem saveProcessedId_seen_only_if_stored (env : Env) (st : Bot)
    (recordId : Id.t) (postedTweetId replyToTweetId : option string)
    (status : string) (contentLength : option Z) (poiTransaction : option string) :
  exists st',
    saveProcessedId env recordId postedTweetId replyToTweetId status
      contentLength poiTransaction st = Some (tt, st')
    /\ (railwayReachable env st = false ->
        processedIds st' = processedIds st
        /\ processed_records st' = processed_records st
        /\ railwayAttempts st' = (railwayAttempts st + 3)%nat
        /\ errors (stats st') = errors (stats st) + 1
        /\ (exists tr,
             trace st'
             = tr ++ [Log ERROR "Failed to save processed record to database"])
        /\ (recordId ∉ processedIds st -> recordId ∉ processedIds st')
        /\ (forall record,
              Answer.id record = recordId -> recordId ∉ processedIds st ->
              eligible record st'))
    /\ (processedIds st' <> processedIds st ->
        railwayReachable env st = true
        /\ processedIds st' = {[ recordId ]} ∪ processedIds st
        /\ In (Id.text recordId) (map Ledger.record_id (processed_records st'))).
Proof.
  pose proof (saveProcessedId_spec env recordId postedTweetId replyToTweetId status
                contentLength poiTransaction st) as H.
  apply wp_run in H. destruct H as [[] [st' [Hrun H]]].
  exists st'. split; [exact Hrun|]. destruct H as [_ H].
  destruct (railwayReachable env st) eqn:Hup.
  - destruct H as [Htab [Hids _]]. split; [discriminate|].
    intros _. split; [reflexivity|]. split; [exact Hids|].
    rewrite Htab.
    set (new := insertedRow (now st') (Id.text recordId) postedTweetId
                  replyToTweetId status contentLength poiTransaction).
    destruct (in_dec string_dec (Id.text recordId)
                (map Ledger.record_id (processed_records st)))
      as [Hin | Hnotin].
    + rewrite (upsert_keys (now st') new) by exact Hin. exact Hin.
    + rewrite (upsert_keys_fresh (now st') new) by exact Hnotin.
      rewrite map_app. apply in_or_app. right. left. reflexivity.
  - destruct H as [Htab [Hids [Herr [Hn Hlog]]]]. split.
    + intros _. rewrite Hids. repeat (split; [auto|]).
      intros record Hrec Hid. apply eligible_unseen. rewrite Hids, Hrec. exact Hid.
    + intros Hne. contradiction.
Qed.

(** C9 as it is worded fails: a record whose ledger write has failed is not
    processed again by the next poll of the run.  The reply has been posted,
    the main store still holds the record and the seen-set does not hold its
    id, but the watermark the cycle has left is past its creation time, so
    the fetch returns nothing. *)
Lemma saveProcessedId_seen_only_if_stored_counterexample :
  ~ (forall config env record fuel st st',
        holdsOnly env record ->
        lastCheckTime st < Answer.created_at record <= now st ->
        isValidRecord record = true ->
        (forall i, railwayUp env i = false) ->
        processNewRecords config env fuel st = Some (tt, st') ->
        In (Log ERROR "Failed to save processed record to database") (trace st') ->
        Answer.id record ∉ processedIds st' ->
        refetched env record st').
Proof.
  intros H.
  destruct (processNewRecords defaultConfig (servingEnv false sampleRecord) 1
              (newBot 10 [])) as [[[] st']|] eqn:E; [| vm_compute in E; discriminate].
  destruct (H defaultConfig (servingEnv false sampleRecord) sampleRecord
              1%nat (newBot 10 []) st') as [records [st2 [Hget Hin]]].
  - intros i since. reflexivity.
  - split; [vm_compute; reflexivity | vm_compute; discriminate].
  - vm_compute. reflexivity.
  - intros i. reflexivity.
  - exact E.
  - vm_compute in E. injection E as <-. cbn.
    repeat first [left; reflexivity | right].
  - vm_compute in E. injection E as <-. cbn. apply not_elem_of_empty.
  - vm_compute in E. injection E as <-.
    vm_compute in Hget. injection Hget as <- _. exact Hin.
Qed.

Lemma nonBlank_nonEmpty (v : option string) : nonBlank v -> nonEmpty v.
Proof.
  intros [s [-> H]]. exists s. split; [reflexivity|].
  intros ->. apply H. reflexivity.
Qed.






(** ** Delivery Engine *)

Section DeliveryFacts.

Variable config : Config.
Variable env : Env.

Lemma callSingleTweet_run (tweetId : option string) (st : Bot) :
  callSingleTweet env tweetId st
  = Some (singleTweet env (singleTweetCalls st), looking tweetId st).
Proof. reflexivity. Qed.

Lemma callTweet_run (text : string) (replyTo : option string) (st : Bot) :
  callTweet env text replyTo st
  = Some (tweet env (tweetCalls st), posting text replyTo st).
Proof. reflexivity. Qed.

Lemma callSingleTweet_quiet (tweetId : option string) :
  keeps quiet (callSingleTweet env tweetId).
Proof.
  intros st. unfold wp. rewrite callSingleTweet_run. unfold looking. quiet_state.
Qed.

Lemma validating_quiet (st : Bot) : quiet st (validating st).
Proof. unfold validating. quiet_state. Qed.

Lemma validationFailed_quiet : keeps quiet validationFailed.
Proof.
  unfold validationFailed.
  apply (keeps_bind _ quiet_trans); [apply log_quiet | intros _].
  apply (keeps_ret _ quiet_refl).
Qed.

(** The validation touches nothing of the delivery state, whatever it
    answers and however often it waits and asks again. *)
Lemma validateTweet_quiet (fuel : nat) (tweetId : option string) :
  respects quiet (validateTweet env fuel tweetId).
Proof.
  induction fuel as [|fuel IH]; simpl; [apply respects_diverge|].
  apply (respects_bind _ quiet_trans);
    [apply (keeps_respects quiet), checkRateLimit_quiet | intros check].
  apply (respects_bind _ quiet_trans);
    [apply (keeps_respects quiet), (keeps_when _ quiet_refl), waitForRateLimit_quiet
    | intros _].
  apply (respects_bind _ quiet_trans);
    [apply (keeps_respects quiet), callSingleTweet_quiet | intros response].
  destruct response as [headers | error].
  - apply (keeps_respects quiet). apply (keeps_bind _ quiet_trans);
      [apply updateRateLimitInfo_quiet | intros _; apply (keeps_ret _ quiet_refl)].
  - apply (respects_bind _ quiet_trans);
      [apply (keeps_respects quiet), updateRateLimitInfo_quiet | intros _].
    destruct (isRateLimitError error);
      [| apply (keeps_respects quiet), validationFailed_quiet].
    apply (respects_bind _ quiet_trans);
      [apply (keeps_respects quiet), log_quiet | intros _].
    destruct (ApiError.headers error) as [h|];
      [| apply (keeps_respects quiet), validationFailed_quiet].
    destruct (x_rate_limit_reset h) as [resetTime|];
      [| apply (keeps_respects quiet), validationFailed_quiet].
    apply (respects_bind _ quiet_trans);
      [apply (keeps_respects quiet), (keeps_get _ quiet_refl) | intros st].
    destruct (resetTime * 1000 - now st >? 0);
      [| apply (keeps_respects quiet), validationFailed_quiet].
    apply (respects_bind _ quiet_trans);
      [apply (keeps_respects quiet), waitForRateLimit_quiet | intros _].
    apply IH.
Qed.

(** When the lookup finds the tweet, the validation returns true at once. *)
Lemma validateTweet_found (fuel : nat) (tweetId : option string) (st : Bot) :
  (forall i, exists headers, singleTweet env i = inl headers) ->
  wp (validateTweet env (S fuel) tweetId) (fun b st' => b = true /\ quiet st st') st.
Proof.
  intros Hfound. simpl.
  apply wp_bind. eapply wp_mono; [| apply checkRateLimit_quiet].
  intros check st1 Q1. cbv beta in *.
  apply wp_bind. eapply wp_mono;
    [| apply (keeps_when _ quiet_refl), waitForRateLimit_quiet].
  intros ? st2 Q2. cbv beta in *.
  apply wp_bind. unfold wp at 1. rewrite callSingleTweet_run.
  destruct (Hfound (singleTweetCalls st2)) as [headers ->].
  apply wp_bind. eapply wp_mono; [| apply updateRateLimitInfo_quiet].
  intros ? st3 Q3. cbv beta in *. cbn. split; [reflexivity|].
  eapply quiet_trans; [exact Q1|]. eapply quiet_trans; [exact Q2|].
  eapply quiet_trans; [| exact Q3].
  pose proof (callSingleTweet_quiet tweetId st2) as Q. unfold wp in Q.
  rewrite callSingleTweet_run in Q. exact Q.
Qed.

Lemma railwayReachable_same (st st' : Bot) :
  railwayAttempts st' = railwayAttempts st ->
  railwayReachable env st' = railwayReachable env st.
Proof. unfold railwayReachable. intros ->. reflexivity. Qed.

(** The row a ledger write leaves for its key carries the status and the
    posted id of the write. *)
Lemma upsert_row (t : Z) (new : Ledger.row) (table : list Ledger.row) :
  exists row,
    In row (upsert t new table)
    /\ Ledger.record_id row = Ledger.record_id new
    /\ Ledger.status row = Ledger.status new
    /\ Ledger.posted_tweet_id row = Ledger.posted_tweet_id new.
Proof.
  induction table as [|r rest [row [Hin H]]]; simpl.
  - exists new. split; [left; reflexivity | auto].
  - destruct (String.eqb_spec (Ledger.record_id r) (Ledger.record_id new)) as [E|E].
    + exists (conflictUpdate t new r). split; [left; reflexivity | cbn; auto].
    + exists row. split; [right; exact Hin | exact H].
Qed.

End DeliveryFacts.

(** The two ways [postToTwitter] goes on once the validation has answered. *)
Lemma postToTwitter_unreachable_run (config : Config) (env : Env) (fuel : nat)
    (record : Answer.row) (retryCount : nat) (st st1 : Bot) :
  validateTweet env (S fuel) (Answer.tweet_id record) (validating st)
    = Some (false, st1) ->
  postToTwitter config env (S fuel) record retryCount st
  = (log WARN "Original tweet not accessible - SKIPPING" ;;
     modifyStats add_skippedRecords ;;
     saveProcessedId env (Answer.id record) None (Answer.tweet_id record)
       "skipped_tweet_not_accessible" None (Answer.poi_transaction record) ;;
     ret None) st1.
Proof.
  intros Hval. cbn [postToTwitter]. unfold bind at 1.
  change (log DEBUG "Validating original tweet exists" st)
    with (Some (tt, validating st)).
  cbv beta iota. unfold bind at 1. rewrite Hval. reflexivity.
Qed.

Lemma postToTwitter_validated_run (config : Config) (env : Env) (fuel : nat)
    (record : Answer.row) (retryCount : nat) (st st1 : Bot) (answer : string) :
  validateTweet env (S fuel) (Answer.tweet_id record) (validating st)
    = Some (true, st1) ->
  Answer.answer record = Some answer ->
  cleanAnswerForTwitter answer = ""%string ->
  postToTwitter config env (S fuel) record retryCount st
  = (log WARN "No content left after cleaning scientific papers - SKIPPING" ;;
     modifyStats add_skippedRecords ;;
     ret None) st1.
Proof.
  intros Hval Hanswer Hclean. cbn [postToTwitter]. unfold bind at 1.
  change (log DEBUG "Validating original tweet exists" st)
    with (Some (tt, validating st)).
  cbv beta iota. unfold bind at 1. rewrite Hval. cbv beta iota.
  cbn [negb]. rewrite Hanswer, Hclean. reflexivity.
Qed.

(** C4, as the code has it: when the validation reports the target as not
    accessible, [postToTwitter] returns null without calling the post-reply
    operation and counts the record as skipped; if the ledger write reaches
    the store within its three attempts, the ledger then holds a row for the
    record with status 'skipped_tweet_not_accessible' and a null posted id,
    and the id is in the seen-set; if it does not, the table and the seen-set
    are as before. *)
Theorem postToTwitter_target_unreachable (config : Config) (env : Env)
    (fuel : nat) (record : Answer.row) (retryCount : nat) (st st1 : Bot) :
  validateTweet env (S fuel) (Answer.tweet_id record) (validating st)
    = Some (false, st1) ->
  exists st',
    postToTwitter config env (S fuel) record retryCount st = Some (None, st')
    /\ tweetCalls st' = tweetCalls st
    /\ deliveries (trace st') = deliveries (trace st)
    /\ skippedRecords (stats st') = skippedRecords (stats st) + 1
    /\ successfulPosts (stats st') = successfulPosts (stats st)
    /\ failedPosts (stats st') = failedPosts (stats st)
    /\ (railwayReachable env st = true ->
        Answer.id record ∈ processedIds st'
        /\ exists row,
            In row (processed_records st')
            /\ Ledger.record_id row = Id.text (Answer.id record)
            /\ Ledger.status row = "skipped_tweet_not_accessible"%string
            /\ Ledger.posted_tweet_id row = None)
    /\ (railwayReachable env st = false ->
        processedIds st' = processedIds st
        /\ processed_records st' = processed_records st).
Proof.
  intros Hval. rewrite (postToTwitter_unreachable_run _ _ _ _ _ _ _ Hval).
  pose proof (validateTweet_quiet env _ _ _ _ _ Hval) as Q1.
  pose proof (quiet_trans _ _ _ (validating_quiet st) Q1) as Q. clear Q1.
  destruct Q as ((_&_&_)&Hids&Htab&Hcalls&Hrail&_&_&Hsucc&Hfail&Hskip&_&Hdel).
  set (st2 := set_stats (add_skippedRecords (stats
                (set_trace (trace st1
                   ++ [Log WARN "Original tweet not accessible - SKIPPING"]) st1)))
                (set_trace (trace st1
                   ++ [Log WARN "Original tweet not accessible - SKIPPING"]) st1)).
  pose proof (saveProcessedId_spec env (Answer.id record) None
                (Answer.tweet_id record) "skipped_tweet_not_accessible" None
                (Answer.poi_transaction record) st2) as Hsave.
  apply wp_run in Hsave. destruct Hsave as [[] [st' [Hrun [Hrec Hled]]]].
  exists st'. split.
  - unfold bind, log, emit, modifyStats. unfold modify. cbv beta iota. fold st2.
    rewrite Hrun. reflexivity.
  - destruct Hrec as ((_&_&_)&Hc&_&_&_&Hs&Hf&Hk&Hd).
    rewrite (railwayReachable_same env st st2) in Hled by exact Hrail.
    subst st2. cbn in *. rewrite deliveries_app, app_nil_r in Hd.
    repeat (split; [congruence || lia |]).
    destruct (railwayReachable env st); split; try discriminate; intros _.
    + destruct Hled as [Ht [Hi _]]. split; [rewrite Hi; apply elem_of_union_l, elem_of_singleton_2; reflexivity|].
      rewrite Ht. destruct (upsert_row (now st')
        (insertedRow (now st') (Id.text (Answer.id record)) None (Answer.tweet_id record)
           "skipped_tweet_not_accessible" None (Answer.poi_transaction record))
        (processed_records st1)) as [row H].
      exists row. exact H.
    + destruct Hled as [Ht [Hi _]]. split; congruence.
Qed.

Lemma postToTwitter_target_unreachable_witness :
  exists st',
    postToTwitter defaultConfig goneEnv 1 sampleRecord 0 (newBot 0 [])
      = Some (None, st')
    /\ tweetCalls st' = tweetCalls (newBot 0 [])
    /\ deliveries (trace st') = deliveries (trace (newBot 0 []))
    /\ skippedRecords (stats st') = skippedRecords (stats (newBot 0 [])) + 1
    /\ successfulPosts (stats st') = successfulPosts (stats (newBot 0 []))
    /\ failedPosts (stats st') = failedPosts (stats (newBot 0 []))
    /\ (railwayReachable goneEnv (newBot 0 []) = true ->
        Answer.id sampleRecord ∈ processedIds st'
        /\ exists row,
            In row (processed_records st')
            /\ Ledger.record_id row = Id.text (Answer.id sampleRecord)
            /\ Ledger.status row = "skipped_tweet_not_accessible"%string
            /\ Ledger.posted_tweet_id row = None)
    /\ (railwayReachable goneEnv (newBot 0 []) = false ->
        processedIds st' = processedIds (newBot 0 [])
        /\ processed_records st' = processed_records (newBot 0 [])).
Proof.
  eapply (postToTwitter_target_unreachable defaultConfig goneEnv 0 sampleRecord 0
            (newBot 0 [])).
  vm_compute. reflexivity.
Defined.

(** C4 as it is worded fails when the ledger cannot be reached: the target
    is reported as not found, and afterwards the ledger holds no row for the
    record and its id is not in the seen-set. *)
Lemma postToTwitter_unreachable_store_down_counterexample :
  ~ (forall config env fuel record st st1 result st',
        validateTweet env fuel (Answer.tweet_id record) (validating st)
          = Some (false, st1) ->
        postToTwitter config env fuel record 0 st = Some (result, st') ->
        Answer.id record ∈ processedIds st'
        /\ exists row,
            In row (processed_records st')
            /\ Ledger.record_id row = Id.text (Answer.id record)).
Proof.
  intros H.
  destruct (validateTweet goneAndDownEnv 1 (Answer.tweet_id sampleRecord)
              (validating (newBot 0 []))) as [[b st1]|] eqn:Ev;
    [| vm_compute in Ev; discriminate].
  assert (b = false) as -> by (vm_compute in Ev; congruence).
  destruct (postToTwitter defaultConfig goneAndDownEnv 1 sampleRecord 0 (newBot 0 []))
    as [[result st']|] eqn:Ep; [| vm_compute in Ep; discriminate].
  destruct (H defaultConfig goneAndDownEnv 1%nat sampleRecord (newBot 0 []) st1
              result st' Ev Ep) as [_ [row [Hin _]]].
  vm_compute in Ep. injection Ep as _ <-. exact Hin.
Qed.

(** C8, as the code has it: when the validation has passed and nothing is
    left of the answer after cleaning, [postToTwitter] returns null; it has
    not called the post-reply operation, has made no attempt on the ledger,
    and has left the table and the seen-set as they were, so a later poll
    whose fetch returns the record takes it as a candidate again; of the
    outcome counters only [skippedRecords] has moved. *)
Theorem postToTwitter_empty_after_clean (config : Config) (env : Env)
    (fuel : nat) (record : Answer.row) (retryCount : nat) (st st1 : Bot)
    (answer : string) :
  validateTweet env (S fuel) (Answer.tweet_id record) (validating st)
    = Some (true, st1) ->
  Answer.answer record = Some answer ->
  cleanAnswerForTwitter answer = ""%string ->
  exists st',
    postToTwitter config env (S fuel) record retryCount st = Some (None, st')
    /\ tweetCalls st' = tweetCalls st
    /\ deliveries (trace st') = deliveries (trace st)
    /\ railwayAttempts st' = railwayAttempts st
    /\ processed_records st' = processed_records st
    /\ processedIds st' = processedIds st
    /\ (Answer.id record ∉ processedIds st -> Answer.id record ∉ processedIds st')
    /\ (Answer.id record ∉ processedIds st -> eligible record st')
    /\ skippedRecords (stats st') = skippedRecords (stats st) + 1
    /\ successfulPosts (stats st') = successfulPosts (stats st)
    /\ failedPosts (stats st') = failedPosts (stats st)
    /\ errors (stats st') = errors (stats st)
    /\ totalProcessed (stats st') = totalProcessed (stats st).
Proof.
  intros Hval Hanswer Hclean.
  rewrite (postToTwitter_validated_run _ _ _ _ _ _ _ _ Hval Hanswer Hclean).
  pose proof (validateTweet_quiet env _ _ _ _ _ Hval) as Q1.
  pose proof (quiet_trans _ _ _ (validating_quiet st) Q1) as Q. clear Q1.
  destruct Q as ((_&_&_)&Hids&Htab&Hcalls&Hrail&_&Htotal&Hsucc&Hfail&Hskip&Herr&Hdel).
  eexists. split; [reflexivity|]. cbn.
  rewrite deliveries_app, app_nil_r. cbn.
  repeat (split; [congruence || lia |]).
  split; [| repeat (split; [congruence || lia |]); congruence].
  intros Hid. apply eligible_unseen. cbn. rewrite Hids. exact Hid.
Qed.

Lemma postToTwitter_empty_after_clean_witness :
  exists st',
    postToTwitter defaultConfig (healthyEnv [referencesOnlyRecord]) 1
      referencesOnlyRecord 0 (newBot 0 []) = Some (None, st')
    /\ tweetCalls st' = tweetCalls (newBot 0 [])
    /\ processed_records st' = processed_records (newBot 0 [])
    /\ processedIds st' = processedIds (newBot 0 [])
    /\ eligible referencesOnlyRecord st'
    /\ skippedRecords (stats st') = skippedRecords (stats (newBot 0 [])) + 1.
Proof.
  edestruct (postToTwitter_empty_after_clean defaultConfig
               (healthyEnv [referencesOnlyRecord]) 0 referencesOnlyRecord 0
               (newBot 0 []))
    as [st' (Hrun & Hcalls & _ & _ & Htab & Hids & _ & He & Hskip & _)].
  - vm_compute. reflexivity.
  - reflexivity.
  - vm_compute. reflexivity.
  - exists st'. split; [exact Hrun|]. split; [exact Hcalls|]. split; [exact Htab|].
    split; [exact Hids|]. split; [| exact Hskip].
    apply He. cbn. apply not_elem_of_empty.
Defined.

(** C8 as it is worded fails: a record with nothing left after cleaning is
    not fetched again by the next poll of the run.  The main store still
    holds it, but the watermark the cycle has left is past its creation
    time, so the fetch returns nothing. *)
Lemma postToTwitter_empty_after_clean_counterexample :
  ~ (forall config env record answer fuel st st',
        holdsOnly env record ->
        lastCheckTime st < Answer.created_at record <= now st ->
        isValidRecord record = true ->
        (forall i, exists headers, singleTweet env i = inl headers) ->
        Answer.answer record = Some answer ->
        cleanAnswerForTwitter answer = ""%string ->
        processNewRecords config env fuel st = Some (tt, st') ->
        skippedRecords (stats st') = skippedRecords (stats st) + 1 ->
        Answer.id record ∉ processedIds st' ->
        refetched env record st').
Proof.
  intros H.
  destruct (processNewRecords defaultConfig (servingEnv true referencesOnlyRecord) 1
              (newBot 10 [])) as [[[] st']|] eqn:E; [| vm_compute in E; discriminate].
  destruct (H defaultConfig (servingEnv true referencesOnlyRecord)
              referencesOnlyRecord ("Science papers:" +:+ lf +:+ "Smith 2020.01.01")
              1%nat (newBot 10 []) st') as [records [st2 [Hget Hin]]].
  - intros i since. reflexivity.
  - split; [vm_compute; reflexivity | vm_compute; discriminate].
  - vm_compute. reflexivity.
  - intros i. exists None. reflexivity.
  - reflexivity.
  - vm_compute. reflexivity.
  - exact E.
  - vm_compute in E. injection E as <-. vm_compute. reflexivity.
  - vm_compute in E. injection E as <-. cbn. apply not_elem_of_empty.
  - vm_compute in E. injection E as <-.
    vm_compute in Hget. injection Hget as <- _. exact Hin.
Qed.

(** *** Lookups

    The number of lookups made, which no other action than the lookup
    itself changes. *)

Lemma when_wait_quiet (b : bool) (waitTime : Z) :
  keeps quiet (when b (waitForRateLimit waitTime)).
Proof. apply (keeps_when _ quiet_refl), waitForRateLimit_quiet. Qed.

Lemma sameLookups_refl (st : Bot) : sameLookups st st.
Proof. reflexivity. Qed.

Lemma sameLookups_trans (a b c : Bot) :
  sameLookups a b -> sameLookups b c -> sameLookups a c.
Proof. unfold sameLookups. congruence. Qed.

Lemma keeps_both {A : Type} (R1 R2 : Bot -> Bot -> Prop) (m : M A) :
  keeps R1 m -> respects R2 m -> keeps (fun st st' => R1 st st' /\ R2 st st') m.
Proof.
  intros H1 H2 st. specialize (H1 st). specialize (H2 st). unfold wp in *.
  destruct (m st) as [[a st']|]; [| contradiction].
  split; [exact H1 | exact (H2 a st' eq_refl)].
Qed.

Section LookupFacts.

Variable env : Env.

Ltac lookups_step :=
  apply (respects_bind sameLookups sameLookups_trans); [| intros ?].

Ltac lookups_run := intros ? ? ? E; injection E as _ <-; reflexivity.

Lemma log_sameLookups (level : Level) (message : string) :
  respects sameLookups (log level message).
Proof. lookups_run. Qed.

Lemma updateRateLimitInfo_sameLookups (endpoint : Endpoint.t)
    (headers : option Headers) :
  respects sameLookups (updateRateLimitInfo endpoint headers).
Proof. destruct headers; lookups_run. Qed.

Lemma checkRateLimit_sameLookups (endpoint : Endpoint.t) :
  respects sameLookups (checkRateLimit endpoint).
Proof.
  intros st a st'. unfold checkRateLimit, bind, get.
  destruct (negb (truthyNum (remaining (rateLimits st endpoint)))
            || negb (truthyNum (resetTime (rateLimits st endpoint))));
    [intros E; injection E as _ <-; reflexivity|].
  destruct (remaining (rateLimits st endpoint)) as [rem|];
    [| intros E; injection E as _ <-; reflexivity].
  destruct (resetTime (rateLimits st endpoint)) as [reset|];
    [| intros E; injection E as _ <-; reflexivity].
  destruct (now st >=? reset); [intros E; injection E as _ <-; reflexivity|].
  destruct (rem >? 0); intros E; injection E as _ <-; reflexivity.
Qed.

Lemma get_sameLookups : respects sameLookups get.
Proof. lookups_run. Qed.

Lemma waitChunks_sameLookups (fuel : nat) :
  forall remainingWait, respects sameLookups (waitChunks fuel remainingWait).
Proof.
  induction fuel as [|fuel IH]; intros w; simpl.
  - apply (respects_bind sameLookups sameLookups_trans);
      [apply get_sameLookups | intros s].
    destruct ((w >? 0) && isRunning s);
      [apply respects_diverge | apply (respects_ret _ sameLookups_refl)].
  - apply (respects_bind sameLookups sameLookups_trans);
      [apply get_sameLookups | intros s].
    destruct ((w >? 0) && isRunning s); [| apply (respects_ret _ sameLookups_refl)].
    lookups_step; [lookups_run|].
    lookups_step; [| apply IH].
    destruct (w - Z.min 5000 w >? 0); lookups_run.
Qed.

Lemma waitForRateLimit_sameLookups (waitTime : Z) :
  respects sameLookups (waitForRateLimit waitTime).
Proof.
  unfold waitForRateLimit. destruct (waitTime <=? 0); [lookups_run|].
  lookups_step; [lookups_run|].
  lookups_step; [lookups_run|].
  lookups_step; [apply waitChunks_sameLookups|].
  apply (respects_bind sameLookups sameLookups_trans);
    [apply get_sameLookups | intros s].
  destruct (isRunning s); lookups_run.
Qed.

Lemma validateTweet_answer (fuel : nat) (tweetId : option string) (st : Bot) :
  (forall error,
      singleTweet env (singleTweetCalls st) = inr error ->
      isRateLimitError error = false) ->
  wp (validateTweet env (S fuel) tweetId)
    (fun b st' =>
       b = lookupFound (singleTweet env (singleTweetCalls st))
       /\ singleTweetCalls st' = S (singleTweetCalls st)
       /\ quiet st st') st.
Proof.
  intros Hun. cbn [validateTweet].
  apply wp_bind. eapply wp_mono;
    [| apply (keeps_both quiet sameLookups);
       [apply checkRateLimit_quiet | apply checkRateLimit_sameLookups]].
  intros check s1 [Q1 L1]. cbv beta in *.
  apply wp_bind. eapply wp_mono;
    [| apply (keeps_both quiet sameLookups);
       [apply when_wait_quiet|]].
  2:{ destruct (negb (fst check)); [apply waitForRateLimit_sameLookups|].
      apply (respects_ret _ sameLookups_refl). }
  intros ? s2 [Q2 L2]. cbv beta in *.
  apply wp_bind. unfold wp at 1. rewrite callSingleTweet_run.
  assert (singleTweetCalls s2 = singleTweetCalls st) as Hcalls
    by (unfold sameLookups in *; congruence).
  rewrite Hcalls.
  assert (quiet st (looking tweetId s2)) as Q.
  { eapply quiet_trans; [exact Q1|]. eapply quiet_trans; [exact Q2|].
    pose proof (callSingleTweet_quiet env tweetId s2) as Q. unfold wp in Q.
    rewrite callSingleTweet_run in Q. exact Q. }
  assert (singleTweetCalls (looking tweetId s2) = S (singleTweetCalls st)) as L
    by (cbn; rewrite Hcalls; reflexivity).
  destruct (singleTweet env (singleTweetCalls st)) as [headers | error] eqn:E.
  - apply wp_bind. eapply wp_mono;
      [| apply (keeps_both quiet sameLookups);
         [apply updateRateLimitInfo_quiet | apply updateRateLimitInfo_sameLookups]].
    intros ? s3 [Q3 L3]. cbv beta in *. cbn.
    split; [reflexivity|]. split; [unfold sameLookups in L3; congruence|].
    eapply quiet_trans; eassumption.
  - apply wp_bind. eapply wp_mono;
      [| apply (keeps_both quiet sameLookups);
         [apply updateRateLimitInfo_quiet | apply updateRateLimitInfo_sameLookups]].
    intros ? s3 [Q3 L3]. cbv beta in *.
    rewrite (Hun error eq_refl).
    apply wp_bind. eapply wp_mono;
      [| apply (keeps_both quiet sameLookups);
         [apply (log_quiet WARN) | apply log_sameLookups]].
    intros ? s4 [Q4 L4]. cbv beta in *. cbn.
    split; [reflexivity|]. split; [unfold sameLookups in *; congruence|].
    eapply quiet_trans; [exact Q|]. eapply quiet_trans; eassumption.
Qed.

Lemma sleep_sameLookups (why : Timer) (ms : Z) : respects sameLookups (sleep why ms).
Proof. intros ? ? ? E. injection E as _ <-. reflexivity. Qed.

Lemma callTweet_sameLookups (text : string) (replyTo : option string) :
  respects sameLookups (callTweet env text replyTo).
Proof. intros ? ? ? E. injection E as _ <-. reflexivity. Qed.

Lemma when_wait_sameLookups (b : bool) (waitTime : Z) :
  respects sameLookups (when b (waitForRateLimit waitTime)).
Proof.
  destruct b; [apply waitForRateLimit_sameLookups|].
  apply (respects_ret _ sameLookups_refl).
Qed.

End LookupFacts.

(** *** Retries on a rate-limit error *)

Lemma quiet_delivering (st st' : Bot) : quiet st st' -> delivering [] 0 0 st st'.
Proof.
  unfold quiet, delivering. intros (_&?&?&?&?&?&?&?&?&?&?&?).
  rewrite app_nil_r. repeat split; try assumption; lia.
Qed.

Lemma delivering_trans (e1 e2 : list Event) (c1 c2 : nat) (f1 f2 : Z) (a b c : Bot) :
  delivering e1 c1 f1 a b -> delivering e2 c2 f2 b c ->
  delivering (e1 ++ e2) (c1 + c2) (f1 + f2) a c.
Proof.
  unfold delivering. intros (?&?&?&?&?&?&?&?&?&?) (?&?&?&?&?&?&?&?&?&?).
  rewrite app_assoc. repeat split; try congruence; lia.
Qed.

Section RetryFacts.

Variable env : Env.
Variable record : Answer.row.
Variable answer : string.

Let text : string := truncate (cleanAnswerForTwitter answer).

Lemma delivering_eq (e e' : list Event) (c c' : nat) (f f' : Z) (a b : Bot) :
  delivering e c f a b -> e = e' -> c = c' -> f = f' -> delivering e' c' f' a b.
Proof. intros H -> -> ->. exact H. Qed.

Lemma posting_delivering (replyTo : option string) (st : Bot) :
  delivering [CallTweet text replyTo] 1 0 st (posting text replyTo st).
Proof.
  unfold delivering, posting. cbn. rewrite deliveries_app. cbn.
  repeat split; lia.
Qed.

Lemma sleep_backoff_delivering (ms : Z) (st : Bot) :
  wp (sleep Backoff ms) (fun _ st' => delivering [Sleep Backoff ms] 0 0 st st') st.
Proof.
  unfold wp, sleep, bind, emit, modify. cbn. unfold delivering. cbn.
  rewrite deliveries_app. cbn. repeat split; lia.
Qed.

(** The end of the catch block when the retries are used up. *)
Lemma postFailed_delivering (error : ApiError.t) (st : Bot) :
  isTargetGone error = false ->
  wp (postFailed env record error)
    (fun result st' => result = None /\ delivering [] 0 1 st st') st.
Proof.
  intros Hgone. unfold postFailed. rewrite Hgone.
  unfold wp, bind, log, emit, modifyStats. unfold modify, ret. cbn.
  split; [reflexivity|]. unfold delivering. cbn.
  rewrite !deliveries_app. cbn. rewrite !app_nil_r. repeat split; lia.
Qed.

End RetryFacts.

Section Attempts.

Variable config : Config.
Variable env : Env.
Variable record : Answer.row.
Variable answer : string.

Hypothesis limited :
  forall i, exists error,
    tweet env i = inr error
    /\ isRateLimitError error = true /\ isTargetGone error = false.

Hypothesis has_answer : Answer.answer record = Some answer.

Hypothesis has_content :
  String.eqb (cleanAnswerForTwitter answer) ""
  || (trimLength (cleanAnswerForTwitter answer) =? 0) = false.

Let text : string := truncate (cleanAnswerForTwitter answer).

Ltac calm_step lem lemL s H L :=
  apply wp_bind; eapply wp_mono;
  [| apply (wp_respects sameLookups); [apply lemL | apply lem]];
  intros ? s [H L]; cbv beta in H, L |- *.

(** One attempt up to the answer of the post-reply operation, when the
    lookup it makes finds the target. *)
Lemma postToTwitter_call_at (retryCount fuel : nat) (st : Bot)
    (Q : option PostResult -> Bot -> Prop) :
  (exists headers, singleTweet env (singleTweetCalls st) = inl headers) ->
  (forall st1,
      quiet st st1 ->
      singleTweetCalls st1 = S (singleTweetCalls st) ->
      wp (match tweet env (tweetCalls st) with
          | inl (postedId, headers) =>
              updateRateLimitInfo Endpoint.tweets headers ;;
              log SUCCESS "Successfully posted reply" ;;
              modifyStats add_successfulPosts ;;
              ret (Some {| tweetId := postedId; contentLength := jsLength text |})
          | inr error =>
              postCatch config env (postToTwitter config env fuel record (S retryCount))
                record retryCount error
          end) Q (posting text (Answer.tweet_id record) st1)) ->
  wp (postToTwitter config env (S fuel) record retryCount) Q st.
Proof.
  intros [headers Hfound] Hrest. cbn [postToTwitter].
  calm_step (log_quiet DEBUG) log_sameLookups s0 Q0 L0.
  apply wp_bind. eapply wp_mono; [| apply (validateTweet_answer env fuel)].
  2:{ intros error E. rewrite L0, Hfound in E. discriminate E. }
  intros b s1 (-> & L1 & Q1). rewrite L0 in L1. rewrite L0, Hfound.
  cbn [lookupFound negb].
  rewrite has_answer. cbv zeta. rewrite has_content.
  calm_step checkRateLimit_quiet checkRateLimit_sameLookups s2 Q2 L2.
  calm_step when_wait_quiet when_wait_sameLookups s3 Q3 L3.
  calm_step (log_quiet INFO) log_sameLookups s4 Q4 L4.
  apply wp_bind. unfold wp at 1. rewrite callTweet_run.
  pose proof (quiet_trans _ _ _ Q0 (quiet_trans _ _ _ Q1
               (quiet_trans _ _ _ Q2 (quiet_trans _ _ _ Q3 Q4)))) as Qa.
  assert (tweetCalls s4 = tweetCalls st) as -> by apply Qa.
  apply Hrest; [exact Qa|]. unfold sameLookups in *. congruence.
Qed.

(** One attempt that is refused, up to the point where the catch block
    decides between a retry and giving up. *)
Lemma postToTwitter_attempt (retryCount fuel : nat) (st : Bot)
    (Q : option PostResult -> Bot -> Prop) :
  (exists headers, singleTweet env (singleTweetCalls st) = inl headers) ->
  (forall error st',
      isRateLimitError error = true -> isTargetGone error = false ->
      delivering [CallTweet text (Answer.tweet_id record)] 1 0 st st' ->
      singleTweetCalls st' = S (singleTweetCalls st) ->
      wp (if Z.of_nat retryCount <? maxRetries config
          then
            log INFO "Retrying after rate limit backoff" ;;
            sleep Backoff (finalDelay config retryCount) ;;
            postToTwitter config env fuel record (S retryCount)
          else
            log ERROR "Max retries reached for rate limited tweet" ;;
            postFailed env record error) Q st') ->
  wp (postToTwitter config env (S fuel) record retryCount) Q st.
Proof.
  intros Hfound Hrest. apply postToTwitter_call_at; [exact Hfound|].
  intros s4 Qa La.
  destruct (limited (tweetCalls st)) as [error [-> [Hrl Hgone]]].
  unfold postCatch.
  calm_step updateRateLimitInfo_quiet updateRateLimitInfo_sameLookups s5 Q5 L5.
  rewrite Hrl.
  calm_step (log_quiet WARN) log_sameLookups s6 Q6 L6.
  apply Hrest; [exact Hrl | exact Hgone | |].
  - pose proof (quiet_trans _ _ _ Q5 Q6) as Qb.
    eapply delivering_eq;
      [ exact (delivering_trans _ _ _ _ _ _ _ _ _ (quiet_delivering _ _ Qa)
                 (delivering_trans _ _ _ _ _ _ _ _ _
                    (posting_delivering answer (Answer.tweet_id record) s4)
                    (quiet_delivering _ _ Qb)))
      | reflexivity | reflexivity | reflexivity ].
  - unfold sameLookups in *. cbn in L5. congruence.
Qed.

Lemma postToTwitter_rate_limited_from (k : nat) :
  forall (retryCount fuel : nat) (st : Bot),
    Z.of_nat retryCount + Z.of_nat k = maxRetries config ->
    (k < fuel)%nat ->
    (forall i, (i <= k)%nat ->
       exists headers, singleTweet env (singleTweetCalls st + i) = inl headers) ->
    wp (postToTwitter config env fuel record retryCount)
      (fun result st' =>
         result = None
         /\ delivering
              (expectedDeliveries config text (Answer.tweet_id record) k retryCount)
              (S k) 1 st st')
      st.
Proof.
  induction k as [|k IH]; intros retryCount fuel st Hmax Hfuel Hfound;
    (destruct fuel as [|fuel]; [lia|]);
    (apply postToTwitter_attempt;
     [ specialize (Hfound 0%nat ltac:(lia)); rewrite Nat.add_0_r in Hfound;
       exact Hfound |]);
    intros error s1 Hrl Hgone D1 L1.
  - destruct (Z.ltb_spec (Z.of_nat retryCount) (maxRetries config)); [lia|].
    apply wp_bind. eapply wp_mono; [| apply (log_quiet ERROR)].
    intros ? s2 Q2. cbv beta in Q2 |- *.
    eapply wp_mono; [| apply postFailed_delivering; exact Hgone].
    intros result s3 [-> D3]. split; [reflexivity|].
    eapply delivering_eq;
      [ exact (delivering_trans _ _ _ _ _ _ _ _ _ D1
                 (delivering_trans _ _ _ _ _ _ _ _ _ (quiet_delivering _ _ Q2) D3))
      | reflexivity | reflexivity | reflexivity ].
  - destruct (Z.ltb_spec (Z.of_nat retryCount) (maxRetries config)); [|lia].
    calm_step (log_quiet INFO) log_sameLookups s2 Q2 L2.
    apply wp_bind. eapply wp_mono;
      [| apply (wp_respects sameLookups);
         [apply sleep_sameLookups | apply sleep_backoff_delivering]].
    intros ? s3 [D3 L3]. cbv beta in D3, L3 |- *.
    assert (singleTweetCalls s3 = S (singleTweetCalls st)) as Hcalls
      by (unfold sameLookups in *; congruence).
    eapply wp_mono; [| apply (IH (S retryCount) fuel s3); try lia].
    + intros result s4 [-> D4]. split; [reflexivity|].
      eapply delivering_eq;
        [ exact (delivering_trans _ _ _ _ _ _ _ _ _ D1
                   (delivering_trans _ _ _ _ _ _ _ _ _ (quiet_delivering _ _ Q2)
                      (delivering_trans _ _ _ _ _ _ _ _ _ D3 D4)))
        | reflexivity | reflexivity | reflexivity ].
    + intros i Hi. destruct (Hfound (S i) ltac:(lia)) as [headers Hh].
      exists headers. rewrite Hcalls.
      replace (S (singleTweetCalls st) + i)%nat
        with (singleTweetCalls st + S i)%nat by lia.
      exact Hh.
Qed.

End Attempts.

Lemma backoffDelays_expected (config : Config) (text : string)
    (replyTo : option string) (k retryCount : nat) :
  backoffDelays (expectedDeliveries config text replyTo k retryCount)
  = map (finalDelay config) (seq retryCount k).
Proof.
  revert retryCount. induction k as [|k IH]; intros retryCount; cbn; [reflexivity|].
  f_equal. apply IH.
Qed.

Lemma deliveries_expected (config : Config) (text : string)
    (replyTo : option string) (k retryCount : nat) :
  List.length (List.filter isCallTweet
                 (expectedDeliveries config text replyTo k retryCount))
  = S k.
Proof.
  revert retryCount. induction k as [|k IH]; intros retryCount; cbn; [reflexivity|].
  f_equal. apply IH.
Qed.

(** C5, as the code has it: a record whose target is found by the lookup
    made before each of its [maxRetries + 1] attempts, whose cleaned answer
    is not empty and whose post-reply call is refused on every attempt with
    a rate-limit error (one that does not carry the signature of a deleted
    target) is posted [maxRetries + 1] times; the calls are separated by the
    back-off sleeps min(retryDelayMs * multiplier^attempt,
    maxDelayBetweenPosts) for attempt = 0 .. maxRetries - 1, each within the
    cap; then the attempt is counted as failed and null is returned.  The
    ledger has not been touched and the seen-set is as it was, so a later
    poll whose fetch returns the record takes it as a candidate again.  With
    the values of the constructor the delays are 5000, 10000 and 20000 ms. *)
Theorem postToTwitter_rate_limit_exhaustion (config : Config) (env : Env)
    (record : Answer.row) (answer : string) (fuel : nat) (st : Bot) :
  (forall i, (i <= Z.to_nat (maxRetries config))%nat ->
     exists headers, singleTweet env (singleTweetCalls st + i) = inl headers) ->
  (forall i, exists error,
      tweet env i = inr error
      /\ isRateLimitError error = true /\ isTargetGone error = false) ->
  Answer.answer record = Some answer ->
  String.eqb (cleanAnswerForTwitter answer) ""
  || (trimLength (cleanAnswerForTwitter answer) =? 0) = false ->
  0 <= maxRetries config ->
  (Z.to_nat (maxRetries config) < fuel)%nat ->
  let retries := Z.to_nat (maxRetries config) in
  let attempts :=
    expectedDeliveries config (truncate (cleanAnswerForTwitter answer))
      (Answer.tweet_id record) retries 0 in
  exists st',
    postToTwitter config env fuel record 0 st = Some (None, st')
    /\ deliveries (trace st') = deliveries (trace st) ++ attempts
    /\ backoffDelays attempts
       = map (fun attempt =>
                Z.min (retryDelayMs config
                       * rateLimitBackoffMultiplier config ^ Z.of_nat attempt)
                  (maxDelayBetweenPosts config))
           (seq 0 retries)
    /\ Forall (fun delay => delay <= maxDelayBetweenPosts config)
         (backoffDelays attempts)
    /\ List.length (List.filter isCallTweet attempts) = S retries
    /\ tweetCalls st' = (tweetCalls st + S retries)%nat
    /\ failedPosts (stats st') = failedPosts (stats st) + 1
    /\ successfulPosts (stats st') = successfulPosts (stats st)
    /\ skippedRecords (stats st') = skippedRecords (stats st)
    /\ processed_records st' = processed_records st
    /\ railwayAttempts st' = railwayAttempts st
    /\ processedIds st' = processedIds st
    /\ (Answer.id record ∉ processedIds st -> eligible record st')
    /\ map (finalDelay defaultConfig) (seq 0 (Z.to_nat (maxRetries defaultConfig)))
       = [5000; 10000; 20000].
Proof.
  intros Hfound Hlimited Hanswer Hcontent Hmax Hfuel retries attempts.
  pose proof (postToTwitter_rate_limited_from config env record answer Hlimited
                Hanswer Hcontent retries 0%nat fuel st) as H.
  apply wp_run in H; [| subst retries; lia | exact Hfuel | exact Hfound].
  destruct H as [result [st' [Hrun [-> D]]]].
  fold attempts in D.
  destruct D as (Htab&Hids&Hrail&_&Hsucc&Hskip&Hfail&_&Hcalls&Hdel).
  exists st'. split; [exact Hrun|]. split; [exact Hdel|].
  assert (backoffDelays attempts = map (finalDelay config) (seq 0 retries)) as Hb
    by apply backoffDelays_expected.
  split; [exact Hb|]. split.
  - rewrite Hb. apply List.Forall_forall. intros d Hd.
    apply in_map_iff in Hd. destruct Hd as [k [<- _]].
    unfold finalDelay. apply Z.le_min_r.
  - split; [apply deliveries_expected|]. repeat (split; [assumption|]).
    split; [| reflexivity].
    intros Hid. apply eligible_unseen. rewrite Hids. exact Hid.
Qed.

Lemma postToTwitter_rate_limit_exhaustion_witness :
  exists st',
    postToTwitter defaultConfig rateLimitedEnv 4 sampleRecord 0 (newBot 0 [])
      = Some (None, st')
    /\ backoffDelays (deliveries (trace st')) = [5000; 10000; 20000]
    /\ tweetCalls st' = 4%nat
    /\ failedPosts (stats st') = 1
    /\ processed_records st' = []
    /\ processedIds st' = ∅
    /\ eligible sampleRecord st'.
Proof.
  destruct (postToTwitter_rate_limit_exhaustion defaultConfig rateLimitedEnv
              sampleRecord "Hello world" 4 (newBot 0 []))
    as [st' (Hrun & Hdel & Hb & _ & _ & Hcalls & Hfail & _ & _ & Htab & _ & Hids & He & _)].
  - intros i _. exists None. reflexivity.
  - intros i. exists rateLimitError. repeat split.
  - reflexivity.
  - vm_compute. reflexivity.
  - vm_compute. discriminate.
  - vm_compute. lia.
  - exists st'. split; [exact Hrun|]. split.
    { rewrite Hdel. cbn [newBot trace deliveries List.filter app]. exact Hb. }
    split; [exact Hcalls|]. split; [exact Hfail|]. split; [exact Htab|].
    split; [exact Hids|]. apply He. cbn. apply not_elem_of_empty.
Defined.

(** C5 as it is worded fails in two ways.  The target is validated again
    before every retry: with a lookup that finds the target once and then no
    more, a post-reply call that is rate limited on every attempt is made
    once, not four times, and the record is written to the ledger as
    skipped.  And a record given up as failed is not retried by the next
    poll of the run: the main store still holds it, but the watermark the
    cycle has left is past its creation time, so the fetch does not return
    it. *)
Lemma postToTwitter_rate_limit_exhaustion_counterexample :
  ~ (forall config env record answer fuel st,
        (exists headers, singleTweet env (singleTweetCalls st) = inl headers) ->
        (forall i, exists error,
            tweet env i = inr error
            /\ isRateLimitError error = true /\ isTargetGone error = false) ->
        Answer.answer record = Some answer ->
        String.eqb (cleanAnswerForTwitter answer) ""
        || (trimLength (cleanAnswerForTwitter answer) =? 0) = false ->
        0 <= maxRetries config ->
        (Z.to_nat (maxRetries config) < fuel)%nat ->
        exists st',
          postToTwitter config env fuel record 0 st = Some (None, st')
          /\ tweetCalls st' = (tweetCalls st + S (Z.to_nat (maxRetries config)))%nat
          /\ processed_records st' = processed_records st)
  /\ ~ (forall config env record fuel st st',
          holdsOnly env record ->
          lastCheckTime st < Answer.created_at record <= now st ->
          isValidRecord record = true ->
          (forall i, exists headers, singleTweet env i = inl headers) ->
          (forall i, exists error,
              tweet env i = inr error
              /\ isRateLimitError error = true /\ isTargetGone error = false) ->
          processNewRecords config env fuel st = Some (tt, st') ->
          failedPosts (stats st') = failedPosts (stats st) + 1 ->
          Answer.id record ∉ processedIds st' ->
          refetched env record st').
Proof.
  split.
  - intros H.
    destruct (H defaultConfig lookupLostEnv sampleRecord "Hello world"%string 4%nat
                (newBot 0 [])) as [st' (Hrun & Hcalls & Htab)].
    + exists None. reflexivity.
    + intros i. exists rateLimitError. repeat split.
    + reflexivity.
    + vm_compute. reflexivity.
    + vm_compute. discriminate.
    + vm_compute. lia.
    + vm_compute in Hrun. injection Hrun as <-. vm_compute in Hcalls.
      discriminate Hcalls.
  - intros H.
    destruct (H defaultConfig windowedEnv sampleRecord 5%nat (newBot 10 [])
                afterFailedCycle) as [records [st2 [Hget Hin]]].
    + intros i since. cbn. destruct (since <? 5); reflexivity.
    + split; [vm_compute; reflexivity | vm_compute; discriminate].
    + vm_compute. reflexivity.
    + intros i. exists None. reflexivity.
    + intros i. exists rateLimitError. repeat split.
    + vm_compute. reflexivity.
    + vm_compute. reflexivity.
    + replace (processedIds afterFailedCycle) with (∅ : gset Id.t)
        by (vm_compute; reflexivity).
      apply not_elem_of_empty.
    + vm_compute in Hget. injection Hget as <- _. exact Hin.
Qed.

(** ** Poll cycle *)

Lemma keeps_weaken {A : Type} (R R' : Bot -> Bot -> Prop) (m : M A) :
  (forall st st', R st st' -> R' st st') -> keeps R m -> keeps R' m.
Proof. intros HR Hm st. eapply wp_mono; [| apply Hm]. intros a st'. apply HR. Qed.

Lemma recorded_steady (st st' : Bot) : recorded st st' -> steady st st'.
Proof. intros [H _]. exact H. Qed.

Ltac steady_state :=
  intros; unfold steady; cbn; repeat split; try reflexivity; try lia.

Section CycleFacts.

Variable config : Config.
Variable env : Env.

Lemma quiet_keeps_steady {A : Type} (m : M A) : keeps quiet m -> keeps steady m.
Proof. apply keeps_weaken, quiet_steady. Qed.

Lemma log_steady (level : Level) (message : string) : keeps steady (log level message).
Proof. apply quiet_keeps_steady, log_quiet. Qed.

Lemma sleep_steady (why : Timer) (ms : Z) : keeps steady (sleep why ms).
Proof.
  unfold sleep, emit.
  apply (keeps_bind _ steady_trans); [| intros _]; apply keeps_modify; steady_state.
Qed.

Lemma modifyStats_steady (f : Stats -> Stats) : keeps steady (modifyStats f).
Proof. unfold modifyStats. apply keeps_modify. steady_state. Qed.

Lemma callTweet_steady (text : string) (replyTo : option string) :
  keeps steady (callTweet env text replyTo).
Proof. intros st. unfold wp. rewrite callTweet_run. unfold posting. steady_state. Qed.

Lemma saveProcessedId_steady (recordId : Id.t)
    (postedTweetId replyToTweetId : option string) (status : string)
    (contentLength : option Z) (poiTransaction : option string) :
  keeps steady (saveProcessedId env recordId postedTweetId replyToTweetId status
                  contentLength poiTransaction).
Proof.
  intros st. eapply wp_mono; [| apply saveProcessedId_spec].
  intros ? st' [H _]. apply recorded_steady. exact H.
Qed.

Lemma rateLimitedDelay_steady : keeps steady (rateLimitedDelay config).
Proof.
  unfold rateLimitedDelay. apply (keeps_when _ steady_refl).
  apply (keeps_bind _ steady_trans); [apply log_steady | intros _; apply sleep_steady].
Qed.

Lemma postFailed_steady (record : Answer.row) (error : ApiError.t) :
  keeps steady (postFailed env record error).
Proof.
  unfold postFailed.
  apply (keeps_bind _ steady_trans); [apply log_steady | intros _].
  apply (keeps_bind _ steady_trans); [apply modifyStats_steady | intros _].
  apply (keeps_bind _ steady_trans); [apply modifyStats_steady | intros _].
  apply (keeps_bind _ steady_trans); [| intros _; apply (keeps_ret _ steady_refl)].
  destruct (isTargetGone error); [| apply log_steady].
  apply (keeps_bind _ steady_trans); [apply log_steady | intros _].
  apply (keeps_bind _ steady_trans); [apply modifyStats_steady | intros _].
  apply saveProcessedId_steady.
Qed.

Lemma postCatch_steady (retry : M (option PostResult)) (record : Answer.row)
    (retryCount : nat) (error : ApiError.t) :
  respects steady retry ->
  respects steady (postCatch config env retry record retryCount error).
Proof.
  intros Hretry. unfold postCatch.
  apply (respects_bind _ steady_trans);
    [apply (keeps_respects steady), quiet_keeps_steady, updateRateLimitInfo_quiet
    | intros _].
  destruct (isRateLimitError error);
    [| apply (keeps_respects steady), postFailed_steady].
  apply (respects_bind _ steady_trans);
    [apply (keeps_respects steady), log_steady | intros _].
  destruct (Z.of_nat retryCount <? maxRetries config).
  - apply (respects_bind _ steady_trans);
      [apply (keeps_respects steady), log_steady | intros _].
    apply (respects_bind _ steady_trans);
      [apply (keeps_respects steady), sleep_steady | intros _].
    exact Hretry.
  - apply (keeps_respects steady).
    apply (keeps_bind _ steady_trans); [apply log_steady | intros _].
    apply postFailed_steady.
Qed.

(** Nothing in the delivery of a record writes the watermark or turns the
    clock back. *)
Lemma postToTwitter_steady (fuel : nat) (record : Answer.row) (retryCount : nat) :
  respects steady (postToTwitter config env fuel record retryCount).
Proof.
  revert retryCount. induction fuel as [|fuel IH]; intros retryCount;
    [apply respects_diverge|].
  cbn [postToTwitter].
  apply (respects_bind _ steady_trans);
    [apply (keeps_respects steady), log_steady | intros _].
  apply (respects_bind _ steady_trans).
  { intros st b st' E. apply quiet_steady. eapply validateTweet_quiet. exact E. }
  intros tweetExists. destruct tweetExists; cbn [negb].
  - destruct (Answer.answer record) as [answer|]; [| apply postCatch_steady, IH].
    cbv zeta.
    destruct (String.eqb (cleanAnswerForTwitter answer) ""
              || (trimLength (cleanAnswerForTwitter answer) =? 0)).
    + apply (keeps_respects steady).
      apply (keeps_bind _ steady_trans); [apply log_steady | intros _].
      apply (keeps_bind _ steady_trans); [apply modifyStats_steady | intros _].
      apply (keeps_ret _ steady_refl).
    + apply (respects_bind _ steady_trans);
        [apply (keeps_respects steady), quiet_keeps_steady, checkRateLimit_quiet
        | intros check].
      apply (respects_bind _ steady_trans);
        [apply (keeps_respects steady), quiet_keeps_steady,
           (keeps_when _ quiet_refl), waitForRateLimit_quiet
        | intros _].
      apply (respects_bind _ steady_trans);
        [apply (keeps_respects steady), log_steady | intros _].
      apply (respects_bind _ steady_trans);
        [apply (keeps_respects steady), callTweet_steady | intros response].
      destruct response as [[postedId headers] | error];
        [| apply postCatch_steady, IH].
      apply (keeps_respects steady).
      apply (keeps_bind _ steady_trans);
        [apply quiet_keeps_steady, updateRateLimitInfo_quiet | intros _].
      apply (keeps_bind _ steady_trans); [apply log_steady | intros _].
      apply (keeps_bind _ steady_trans); [apply modifyStats_steady | intros _].
      apply (keeps_ret _ steady_refl).
  - apply (keeps_respects steady).
    apply (keeps_bind _ steady_trans); [apply log_steady | intros _].
    apply (keeps_bind _ steady_trans); [apply modifyStats_steady | intros _].
    apply (keeps_bind _ steady_trans); [apply saveProcessedId_steady | intros _].
    apply (keeps_ret _ steady_refl).
Qed.

Lemma processRecord_steady (fuel : nat) (record : Answer.row) :
  respects steady (processRecord config env fuel record).
Proof.
  unfold processRecord.
  apply (respects_bind _ steady_trans);
    [apply (keeps_respects steady), modifyStats_steady | intros _].
  apply (respects_bind _ steady_trans);
    [apply (keeps_respects steady), log_steady | intros _].
  apply (respects_bind _ steady_trans); [apply postToTwitter_steady | intros result].
  apply (keeps_respects steady).
  destruct result as [result|]; [| apply log_steady].
  destruct (negb (String.eqb (tweetId result) "")); [| apply log_steady].
  apply (keeps_bind _ steady_trans); [apply saveProcessedId_steady | intros _].
  apply (keeps_bind _ steady_trans); [apply log_steady | intros _].
  apply rateLimitedDelay_steady.
Qed.

Lemma processAll_steady (fuel : nat) (records : list Answer.row) :
  respects steady (processAll config env fuel records).
Proof.
  induction records as [|record rest IH]; simpl.
  - apply (respects_ret _ steady_refl).
  - apply (respects_bind _ steady_trans); [apply processRecord_steady | intros _].
    exact IH.
Qed.

End CycleFacts.

(** C6, as the code has it: a poll cycle that completes with no candidate
    leaves the watermark where it was; one with candidates leaves it untouched
    until the last candidate is done and then sets it to the time the clock
    shows at that moment, the end of the cycle, which is not before the time
    the cycle started. *)
Theorem processNewRecords_watermark (config : Config) (env : Env) (fuel : nat)
    (st st' : Bot) :
  processNewRecords config env fuel st = Some (tt, st') ->
  exists records st1,
    getNewRecords env st = Some (records, st1)
    /\ lastCheckTime st1 = lastCheckTime st
    /\ (records = [] -> lastCheckTime st' = lastCheckTime st)
    /\ (records <> [] ->
        exists st2,
          processAll config env fuel records (starting st1) = Some (tt, st2)
          /\ lastCheckTime st2 = lastCheckTime st
          /\ lastCheckTime st' = now st2
          /\ now st' = now st2
          /\ now st <= now st2).
Proof.
  intros Hrun. pose proof (getNewRecords_spec env st) as Hget.
  apply wp_run in Hget. destruct Hget as [records [st1 [Hget [_ [S1 _]]]]].
  exists records, st1. split; [exact Hget|].
  destruct S1 as (L1 & _ & N1). split; [exact L1|].
  unfold processNewRecords in Hrun. unfold bind at 1 in Hrun. rewrite Hget in Hrun.
  destruct records as [|record rest]; cbn [List.length Nat.eqb] in Hrun.
  - split; [| intros H; contradiction]. intros _.
    cbn in Hrun. injection Hrun as <-. cbn. exact L1.
  - split; [discriminate|]. intros _.
    unfold bind at 1 in Hrun.
    change (log INFO "Starting to process new records" st1)
      with (Some (tt, starting st1)) in Hrun.
    cbv beta iota in Hrun. unfold bind at 1 in Hrun.
    destruct (processAll config env fuel (record :: rest) (starting st1))
      as [[[] st2]|] eqn:Eall; [| discriminate].
    pose proof (processAll_steady config env fuel _ _ _ _ Eall) as (L2 & _ & N2).
    cbn in L2, N2. cbn in Hrun. injection Hrun as <-. cbn.
    exists st2. repeat split; try reflexivity; [congruence | lia].
Qed.

Lemma processNewRecords_watermark_witness :
  exists st',
    processNewRecords defaultConfig (healthyEnv [sampleRecord]) 1 (newBot 0 [])
      = Some (tt, st')
    /\ lastCheckTime st' = 2000
    /\ now st' = 2000.
Proof.
  destruct (processNewRecords defaultConfig (healthyEnv [sampleRecord]) 1
              (newBot 0 [])) as [[[] st']|] eqn:E; [| vm_compute in E; discriminate].
  exists st'. split; [reflexivity|].
  destruct (processNewRecords_watermark defaultConfig (healthyEnv [sampleRecord]) 1
              (newBot 0 []) st' E) as [records [st1 [Hget [_ [_ Hsome]]]]].
  vm_compute in Hget. injection Hget as <- <-.
  destruct (Hsome ltac:(discriminate)) as [st2 [Hall [_ [Hl [Hn _]]]]].
  vm_compute in Hall. injection Hall as <-. split; [exact Hl | exact Hn].
Defined.

(** C6 as it is worded fails: in a cycle that posts one record the clock
    is at 0 when the cycle starts and the watermark is 2000 when it ends, the
    time after the delay that follows the post. *)
Lemma processNewRecords_watermark_counterexample :
  ~ (forall config env fuel st st',
        processNewRecords config env fuel st = Some (tt, st') ->
        lastCheckTime st' = now st).
Proof.
  intros H.
  destruct (processNewRecords defaultConfig (healthyEnv [sampleRecord]) 1
              (newBot 0 [])) as [[[] st']|] eqn:E; [| vm_compute in E; discriminate].
  specialize (H _ _ _ _ _ E). vm_compute in E. injection E as <-.
  discriminate H.
Qed.

(** The watermark and the seen-set together: with a main store that honours
    the WHERE clause, a record whose delivery failed in a cycle is left out
    of the seen-set and of the ledger, and the watermark the cycle leaves has
    passed it, so the next fetch of the same run does not return it. *)
Example failed_record_outside_next_window :
  processNewRecords defaultConfig windowedEnv 5 (newBot 10 [])
    = Some (tt, afterFailedCycle)
  /\ failedPosts (stats afterFailedCycle) = 1
  /\ processed_records afterFailedCycle = []
  /\ (Answer.id sampleRecord ∉ processedIds afterFailedCycle)
  /\ Answer.created_at sampleRecord < lastCheckTime afterFailedCycle
  /\ option_map fst (getNewRecords windowedEnv afterFailedCycle) = Some [].
Proof.
  split; [vm_compute; reflexivity|].
  split; [vm_compute; reflexivity|].
  split; [vm_compute; reflexivity|].
  split; [| split; vm_compute; reflexivity].
  replace (processedIds afterFailedCycle) with (∅ : gset Id.t)
    by (vm_compute; reflexivity).
  apply not_elem_of_empty.
Qed.

(** After a restart the watermark is twelve hours before the start and the
    seen-set is seeded from the ledger, which holds no row for the record:
    the first poll fetches the record and takes it as a candidate. *)
Example failed_record_after_restart :
  exists st,
    loadProcessedIds windowedEnv
      (newBot (now afterFailedCycle) (processed_records afterFailedCycle))
    = Some (tt, st)
    /\ option_map fst (getNewRecords windowedEnv st) = Some [sampleRecord].
Proof.
  destruct (loadProcessedIds windowedEnv
              (newBot (now afterFailedCycle) (processed_records afterFailedCycle)))
    as [[[] st]|] eqn:E; [| vm_compute in E; discriminate].
  exists st. split; [reflexivity|].
  vm_compute in E. injection E as <-. vm_compute. reflexivity.
Qed.

(** * Further properties of the code *)

(** ** Content Cleaner *)

Module CleanerMore.
Import Js JsFacts Cleaner CleanerFacts.

Lemma cleanLines_sublist (lines : list jsstring) (skipMode : bool) :
  sublist (cleanLines lines skipMode) lines.
Proof.
  revert skipMode. induction lines as [|line rest IH]; intros skipMode; simpl.
  - constructor.
  - destruct (includes (toLowerCase (trim line)) marker);
      [apply sublist_cons, IH|].
    destruct skipMode; [destruct (stillSkipping (trim line) rest)|];
      try (apply sublist_cons, IH); apply sublist_skip, IH.
Qed.

Lemma join_length_sublist (kept lines : list jsstring) :
  sublist kept lines -> (List.length (join kept) <= List.length (join lines))%nat.
Proof.
  induction 1 as [|x k l Hkl IH|x k l Hkl IH]; simpl.
  - lia.
  - destruct k as [|k0 k]; destruct l as [|l0 l].
    + lia.
    + rewrite length_app. simpl. lia.
    + inversion Hkl.
    + rewrite !length_app. simpl in *. lia.
  - destruct l as [|l0 l].
    + inversion Hkl. simpl. lia.
    + rewrite length_app. simpl in *. lia.
Qed.

Lemma trimStart_length (s : jsstring) :
  (List.length (trimStart s) <= List.length s)%nat.
Proof.
  induction s as [|c s IH]; simpl; [lia|].
  destruct (isWhiteSpace c); simpl; lia.
Qed.

Lemma trim_length (s : jsstring) : (List.length (trim s) <= List.length s)%nat.
Proof.
  unfold trim, trimEnd. rewrite length_rev.
  etransitivity; [apply trimStart_length|]. rewrite length_rev.
  apply trimStart_length.
Qed.

Lemma split_line (l s : jsstring) :
  Forall (fun c => isNewline c = false) l ->
  split (l ++ newline :: s) = l :: split s.
Proof.
  induction 1 as [|c l Hc Hl IH]; simpl.
  - change (isNewline newline) with true. reflexivity.
  - rewrite Hc, IH. reflexivity.
Qed.

Lemma split_single (l : jsstring) :
  Forall (fun c => isNewline c = false) l -> split l = [l].
Proof.
  induction 1 as [|c l Hc Hl IH]; simpl; [reflexivity|].
  rewrite Hc, IH. reflexivity.
Qed.

Lemma split_join (lines : list jsstring) :
  lines <> [] ->
  Forall (Forall (fun c => isNewline c = false)) lines ->
  split (join lines) = lines.
Proof.
  intros Hne Hall. induction Hall as [|l rest Hl Hrest IH]; [contradiction|].
  clear Hne. destruct rest as [|l2 rest].
  - simpl. apply split_single. exact Hl.
  - change (join (l :: l2 :: rest)) with (l ++ newline :: join (l2 :: rest)).
    rewrite split_line by exact Hl. rewrite IH by discriminate. reflexivity.
Qed.

Lemma cleanLines_keep_prefix (pre rest : list jsstring) :
  Forall (fun l => hasMarker l = false) pre ->
  cleanLines (pre ++ rest) false = pre ++ cleanLines rest false.
Proof.
  induction 1 as [|l pre Hl Hpre IH]; simpl; [reflexivity|].
  unfold hasMarker in Hl. rewrite Hl, IH. reflexivity.
Qed.

Lemma cleanLines_skip_nonblank (post : list jsstring) :
  Forall (fun l => isEmpty (trim l) = false) post ->
  cleanLines post true = [].
Proof.
  induction 1 as [|l post Hl Hpost IH]; simpl; [reflexivity|].
  destruct (includes (toLowerCase (trim l)) marker); [exact IH|].
  unfold stillSkipping. rewrite Hl. exact IH.
Qed.

End CleanerMore.

Lemma length_of_chars (l : list ascii) :
  String.length (string_of_list_ascii l) = List.length l.
Proof. induction l as [|c l IH]; simpl; [reflexivity | rewrite IH; reflexivity]. Qed.

Lemma chars_cleanAnswerForTwitter (answer : string) :
  list_ascii_of_string (cleanAnswerForTwitter answer)
  = Cleaner.clean (list_ascii_of_string answer).
Proof.
  unfold cleanAnswerForTwitter. apply list_ascii_of_string_of_list_ascii.
Qed.

(** X1: whatever the answer, the cleaned text holds the marker
    "science papers:" in no letter case, and it neither begins nor ends with
    white space. *)
Theorem cleanAnswerForTwitter_output_shape (answer : string) :
  let cleaned := list_ascii_of_string (cleanAnswerForTwitter answer) in
  Js.includes (Js.toLowerCase cleaned) Cleaner.marker = false
  /\ Js.trim cleaned = cleaned
  /\ Js.trimStart cleaned = cleaned
  /\ Js.trimEnd cleaned = cleaned.
Proof.
  cbv zeta. rewrite chars_cleanAnswerForTwitter. split.
  - pose proof (CleanerFacts.clean_unmarked (list_ascii_of_string answer)) as H.
    unfold unmarked in H. rewrite <- JsFacts.includes_spec in H.
    destruct (Js.includes _ _); [exfalso; apply H; reflexivity | reflexivity].
  - assert (headOk (Cleaner.clean (list_ascii_of_string answer))) as Hhead.
    { unfold Cleaner.clean, Js.trim.
      apply JsFacts.trimEnd_headOk, JsFacts.trimStart_headOk. }
    assert (Js.trimEnd (Cleaner.clean (list_ascii_of_string answer))
            = Cleaner.clean (list_ascii_of_string answer)) as Hend.
    { unfold Cleaner.clean, Js.trim. apply JsFacts.trimEnd_idem. }
    split; [| split; [apply JsFacts.trimStart_id; exact Hhead | exact Hend]].
    unfold Cleaner.clean. apply JsFacts.trim_idem.
Qed.

(** X2: an answer that holds the marker in no letter case comes back
    trimmed and otherwise unchanged. *)
Theorem cleanAnswerForTwitter_without_marker (answer : string) :
  Js.includes (Js.toLowerCase (list_ascii_of_string answer)) Cleaner.marker = false ->
  cleanAnswerForTwitter answer
  = string_of_list_ascii (Js.trim (list_ascii_of_string answer)).
Proof.
  intros H. unfold cleanAnswerForTwitter. f_equal.
  apply CleanerFacts.clean_of_unmarked. unfold unmarked.
  rewrite <- JsFacts.includes_spec, H. discriminate.
Qed.

Lemma cleanAnswerForTwitter_without_marker_witness :
  cleanAnswerForTwitter ("  Aging is not " +:+ lf +:+ "a disease. ")
  = string_of_list_ascii
      (Js.trim (list_ascii_of_string ("  Aging is not " +:+ lf +:+ "a disease. "))).
Proof.
  apply cleanAnswerForTwitter_without_marker. vm_compute. reflexivity.
Defined.

(** X3: the cleaner only drops lines: the lines it joins are a subsequence
    of the lines of the answer, in their order, and the cleaned text is never
    longer than the answer. *)
Theorem cleanAnswerForTwitter_only_drops (answer : string) :
  (exists kept,
      sublist kept (Js.split (list_ascii_of_string answer))
      /\ list_ascii_of_string (cleanAnswerForTwitter answer)
         = Js.trim (Js.join kept))
  /\ (String.length (cleanAnswerForTwitter answer) <= String.length answer)%nat.
Proof.
  split.
  - exists (Cleaner.cleanLines (Js.split (list_ascii_of_string answer)) false).
    split; [apply CleanerMore.cleanLines_sublist | apply chars_cleanAnswerForTwitter].
  - rewrite <- (string_of_list_ascii_of_string answer) at 2.
    unfold cleanAnswerForTwitter. rewrite !length_of_chars.
    unfold Cleaner.clean. etransitivity; [apply CleanerMore.trim_length|].
    etransitivity;
      [apply CleanerMore.join_length_sublist, CleanerMore.cleanLines_sublist|].
    rewrite JsFacts.join_split. lia.
Qed.

(** X4: a references section that runs to the end of the text without an
    empty line is removed whole.  If the lines before the first marker line
    hold no marker and every line after it has something else than white
    space, the cleaned text is the lines before the marker, joined and
    trimmed. *)
Theorem clean_drops_trailing_references
    (before after : list Js.jsstring) (header : Js.jsstring) :
  Forall (Forall (fun c => Js.isNewline c = false)) (before ++ header :: after) ->
  Forall (fun l => Cleaner.hasMarker l = false) before ->
  Cleaner.hasMarker header = true ->
  Forall (fun l => Js.isEmpty (Js.trim l) = false) after ->
  Cleaner.clean (Js.join (before ++ header :: after)) = Js.trim (Js.join before).
Proof.
  intros Hlines Hbefore Hheader Hafter. unfold Cleaner.clean.
  rewrite CleanerMore.split_join; [| destruct before; discriminate | exact Hlines].
  rewrite CleanerMore.cleanLines_keep_prefix by exact Hbefore.
  simpl. unfold Cleaner.hasMarker in Hheader. rewrite Hheader.
  rewrite CleanerMore.cleanLines_skip_nonblank by exact Hafter.
  rewrite app_nil_r. reflexivity.
Qed.

Lemma clean_drops_trailing_references_witness :
  Cleaner.clean
    (Js.join
       ([list_ascii_of_string "Hello"; list_ascii_of_string "world"]
        ++ list_ascii_of_string "  SCIENCE Papers: (3)"
        :: [list_ascii_of_string "Smith 2020.01.01";
            list_ascii_of_string "10.1234/x"]))
  = Js.trim
      (Js.join [list_ascii_of_string "Hello"; list_ascii_of_string "world"]).
Proof.
  apply clean_drops_trailing_references.
  - repeat constructor.
  - repeat constructor.
  - vm_compute. reflexivity.
  - repeat constructor.
Defined.

Lemma cleanLines_skip_prefix (refs rest : list Js.jsstring) :
  Forall (fun l => Js.isEmpty (Js.trim l) = false) refs ->
  Cleaner.cleanLines (refs ++ rest) true = Cleaner.cleanLines rest true.
Proof.
  induction 1 as [|l refs Hl Hrefs IH]; simpl; [reflexivity|].
  destruct (Js.includes (Js.toLowerCase (Js.trim l)) Cleaner.marker); [exact IH|].
  unfold Cleaner.stillSkipping. rewrite Hl. exact IH.
Qed.

Lemma cleanLines_exit (blank next : Js.jsstring) (tail : list Js.jsstring) :
  Js.isEmpty (Js.trim blank) = true ->
  Js.isEmpty (Js.trim next) = false ->
  Cleaner.looksLikePaper (Js.trim next) = false ->
  Cleaner.cleanLines (blank :: next :: tail) true
  = blank :: Cleaner.cleanLines (next :: tail) false.
Proof.
  intros Hblank Hnext Hpaper.
  remember (Cleaner.cleanLines (next :: tail) false) as kept eqn:Ekept.
  remember (Cleaner.cleanLines (next :: tail) true) as dropped eqn:Edropped.
  change (Cleaner.cleanLines (blank :: next :: tail) true)
    with (if Js.includes (Js.toLowerCase (Js.trim blank)) Cleaner.marker
          then Cleaner.cleanLines (next :: tail) true
          else if Cleaner.stillSkipping (Js.trim blank) (next :: tail)
               then Cleaner.cleanLines (next :: tail) true
               else blank :: Cleaner.cleanLines (next :: tail) false).
  rewrite <- Ekept, <- Edropped.
  destruct (Js.trim blank) as [|c t]; [| discriminate].
  change (Js.includes (Js.toLowerCase []) Cleaner.marker) with false.
  unfold Cleaner.stillSkipping. cbn [Js.isEmpty Cleaner.skipBlank].
  rewrite Hnext, Hpaper. reflexivity.
Qed.

(** X5: text that follows the references section after an empty line is
    kept when its first line does not look like a paper reference, and the
    empty line is kept with it.  With no marker before the header and none
    from that first line on, and with no empty line among the references, the
    cleaned text is the lines before the header, the empty line and the lines
    after it. *)
Theorem clean_keeps_text_after_references
    (before refs tail : list Js.jsstring) (header blank next : Js.jsstring) :
  Forall (Forall (fun c => Js.isNewline c = false))
    (before ++ header :: refs ++ blank :: next :: tail) ->
  Forall (fun l => Cleaner.hasMarker l = false) before ->
  Cleaner.hasMarker header = true ->
  Forall (fun l => Js.isEmpty (Js.trim l) = false) refs ->
  Js.isEmpty (Js.trim blank) = true ->
  Js.isEmpty (Js.trim next) = false ->
  Cleaner.looksLikePaper (Js.trim next) = false ->
  Forall (fun l => Cleaner.hasMarker l = false) (next :: tail) ->
  Cleaner.clean (Js.join (before ++ header :: refs ++ blank :: next :: tail))
  = Js.trim (Js.join (before ++ blank :: next :: tail)).
Proof.
  intros Hlines Hbefore Hheader Hrefs Hblank Hnext Hpaper Htail.
  unfold Cleaner.clean.
  rewrite CleanerMore.split_join; [| destruct before; discriminate | exact Hlines].
  rewrite CleanerMore.cleanLines_keep_prefix by exact Hbefore.
  cbn [Cleaner.cleanLines]. unfold Cleaner.hasMarker in Hheader. rewrite Hheader.
  rewrite cleanLines_skip_prefix by exact Hrefs.
  rewrite cleanLines_exit by assumption.
  rewrite (CleanerFacts.cleanLines_keep (next :: tail)); [reflexivity|].
  eapply List.Forall_impl; [| exact Htail].
  intros l Hl. apply CleanerFacts.hasMarker_false. exact Hl.
Qed.

Lemma clean_keeps_text_after_references_witness :
  Cleaner.clean
    (Js.join
       ([list_ascii_of_string "A"]
        ++ list_ascii_of_string "Science papers:"
        :: [list_ascii_of_string "Foo Bar 1"]
        ++ list_ascii_of_string ""
        :: list_ascii_of_string "Not a citation line" :: []))
  = Js.trim
      (Js.join
         ([list_ascii_of_string "A"]
          ++ list_ascii_of_string ""
          :: list_ascii_of_string "Not a citation line" :: [])).
Proof.
  apply clean_keeps_text_after_references.
  - repeat constructor.
  - repeat constructor.
  - vm_compute. reflexivity.
  - repeat constructor.
  - reflexivity.
  - reflexivity.
  - vm_compute. reflexivity.
  - repeat constructor.
Defined.

(** ** Rate-Limit Tracker *)

(** X6: [updateRateLimitInfo] does nothing at all when the response has no
    headers; otherwise each header that is present overwrites its field (the
    reset time converted to milliseconds), a field whose header is absent
    keeps its value, the time of the update is recorded, and the entry of the
    other endpoint is untouched. *)
Theorem updateRateLimitInfo_effect (endpoint : Endpoint.t)
    (headers : option Headers) (st : Bot) :
  exists st',
    updateRateLimitInfo endpoint headers st = Some (tt, st')
    /\ match headers with
       | None => st' = st
       | Some h =>
           let old := rateLimits st endpoint in
           let new := rateLimits st' endpoint in
           remaining new
           = match x_rate_limit_remaining h with
             | Some v => Some v
             | None => remaining old
             end
           /\ resetTime new
              = match x_rate_limit_reset h with
                | Some v => Some (v * 1000)
                | None => resetTime old
                end
           /\ limit new
              = match x_rate_limit_limit h with
                | Some v => Some v
                | None => limit old
                end
           /\ lastCheck new = Some (now st)
           /\ (forall other, other <> endpoint ->
                rateLimits st' other = rateLimits st other)
           /\ quiet st st'
       end.
Proof.
  destruct headers as [h|]; [| exists st; split; reflexivity].
  pose proof (updateRateLimitInfo_quiet endpoint (Some h) st) as Q.
  apply wp_run in Q. destruct Q as [[] [st' [Hrun Q]]].
  exists st'. split; [exact Hrun|].
  unfold updateRateLimitInfo, bind, get, setRateLimit, modify, log, emit in Hrun.
  injection Hrun as <-. cbn.
  assert (endpoint_eqb endpoint endpoint = true) as -> by (destruct endpoint; reflexivity).
  cbn. unfold overwrite.
  do 4 (split; [destruct (x_rate_limit_remaining h), (x_rate_limit_reset h),
                    (x_rate_limit_limit h); reflexivity|]).
  split; [| exact Q].
  intros other Hother; destruct other, endpoint; try reflexivity; contradiction.
Qed.

(** X7: [checkRateLimit] always answers; it refuses exactly when the entry
    has a negative remaining count and a non-zero reset time that the clock
    has not reached, and then the wait it returns is the positive time left
    to the reset; whenever it lets the call proceed the wait is 0.  It never
    changes the reset time or the limit of an entry. *)
Theorem checkRateLimit_refuses_iff (endpoint : Endpoint.t) (st : Bot) :
  exists canProceed waitTime st',
    checkRateLimit endpoint st = Some ((canProceed, waitTime), st')
    /\ (canProceed = false
        <-> exists rem reset,
            remaining (rateLimits st endpoint) = Some rem /\ rem < 0
            /\ resetTime (rateLimits st endpoint) = Some reset /\ reset <> 0
            /\ now st < reset)
    /\ (canProceed = false ->
        exists reset,
          resetTime (rateLimits st endpoint) = Some reset
          /\ waitTime = reset - now st /\ 0 < waitTime)
    /\ (canProceed = true -> waitTime = 0)
    /\ (forall e,
          resetTime (rateLimits st' e) = resetTime (rateLimits st e)
          /\ limit (rateLimits st' e) = limit (rateLimits st e)).
Proof.
  unfold checkRateLimit, bind, get, ret, setRateLimit, modify, log, emit, truthyNum.
  destruct (remaining (rateLimits st endpoint)) as [rem|] eqn:Erem;
    [| cbn; do 3 eexists; split; [reflexivity|];
       repeat split; try discriminate; try reflexivity;
       intros (? & ? & ? & _); discriminate].
  destruct (resetTime (rateLimits st endpoint)) as [reset|] eqn:Ereset;
    [| cbn; rewrite orb_true_r; do 3 eexists; split; [reflexivity|];
       repeat split; try discriminate; try reflexivity;
       intros (? & ? & _ & _ & ? & _); discriminate].
  cbn. destruct (Z.eqb_spec rem 0) as [E0|E0]; cbn.
  { do 3 eexists. split; [reflexivity|].
    repeat split; try discriminate; try reflexivity.
    intros (? & ? & H & ? & _). injection H as <-. lia. }
  destruct (Z.eqb_spec reset 0) as [E1|E1]; cbn.
  { do 3 eexists. split; [reflexivity|].
    repeat split; try discriminate; try reflexivity.
    intros (? & ? & _ & _ & H & ? & _). injection H as <-. contradiction. }
  destruct (Z.geb_spec (now st) reset) as [E2|E2]; cbn.
  { do 3 eexists. split; [reflexivity|].
    split; [split; [discriminate|]|].
    - intros (? & ? & _ & _ & H & _ & ?). injection H as <-. lia.
    - split; [discriminate|]. split; [reflexivity|].
      intros e. cbn. destruct (endpoint_eqb e endpoint) eqn:Ee; [| split; reflexivity].
      destruct e, endpoint; try discriminate; cbn; rewrite Ereset; split; reflexivity. }
  destruct (Z.gtb_spec rem 0) as [E3|E3]; cbn.
  { do 3 eexists. split; [reflexivity|].
    repeat split; try discriminate; try reflexivity.
    intros (? & ? & H & ? & _). injection H as <-. lia. }
  do 3 eexists. split; [reflexivity|].
  split; [split; [intros _; exists rem, reset; repeat split; try lia; assumption
                 | reflexivity]|].
  split; [intros _; exists reset; repeat split; lia|].
  split; [discriminate|]. intros e. cbn. split; reflexivity.
Qed.

(** X8: once the clock has reached the reset time of an entry whose
    remaining count and reset time are recorded and not zero, [checkRateLimit]
    lets the call proceed and restores the remaining count to the limit,
    leaving the rest of the entry and the other entry as they are. *)
Theorem checkRateLimit_window_elapsed (endpoint : Endpoint.t) (st : Bot)
    (rem reset : Z) :
  remaining (rateLimits st endpoint) = Some rem -> rem <> 0 ->
  resetTime (rateLimits st endpoint) = Some reset -> reset <> 0 ->
  reset <= now st ->
  exists st',
    checkRateLimit endpoint st = Some ((true, 0), st')
    /\ remaining (rateLimits st' endpoint) = limit (rateLimits st endpoint)
    /\ resetTime (rateLimits st' endpoint) = Some reset
    /\ limit (rateLimits st' endpoint) = limit (rateLimits st endpoint)
    /\ lastCheck (rateLimits st' endpoint) = lastCheck (rateLimits st endpoint)
    /\ (forall other, other <> endpoint ->
         rateLimits st' other = rateLimits st other)
    /\ trace st' = trace st.
Proof.
  intros Hrem Hrem0 Hreset Hreset0 Hnow.
  unfold checkRateLimit, bind, get, ret, setRateLimit, modify, truthyNum.
  rewrite Hrem, Hreset.
  destruct (Z.eqb_spec rem 0); [contradiction|].
  destruct (Z.eqb_spec reset 0); [contradiction|]. cbn.
  destruct (Z.geb_spec (now st) reset); [| lia].
  eexists. split; [reflexivity|]. cbn.
  assert (endpoint_eqb endpoint endpoint = true) as -> by (destruct endpoint; reflexivity).
  cbn. rewrite ?Hreset. repeat split.
  intros other Hother. destruct other, endpoint; try reflexivity; contradiction.
Qed.

Lemma checkRateLimit_window_elapsed_witness :
  exists st',
    checkRateLimit Endpoint.tweets
      (set_rateLimits
         (fun _ => {| remaining := Some 2; resetTime := Some 10000;
                      limit := Some 300; lastCheck := Some 0 |})
         (newBot 10000 []))
    = Some ((true, 0), st')
    /\ remaining (rateLimits st' Endpoint.tweets) = Some 300.
Proof.
  destruct (checkRateLimit_window_elapsed Endpoint.tweets
              (set_rateLimits
                 (fun _ => {| remaining := Some 2; resetTime := Some 10000;
                              limit := Some 300; lastCheck := Some 0 |})
                 (newBot 10000 [])) 2 10000)
    as [st' [Hrun [Hrem _]]]; try reflexivity; try discriminate.
  exists st'. split; [exact Hrun | exact Hrem].
Defined.

Lemma chunkSleeps_app (a b : list Event) :
  chunkSleeps (a ++ b) = chunkSleeps a ++ chunkSleeps b.
Proof. apply flat_map_app. Qed.

Lemma slices_nonpositive (fuel : nat) (w : Z) : w <= 0 -> slices fuel w = [].
Proof.
  intros H. destruct fuel; simpl; [reflexivity|].
  destruct (Z.gtb_spec w 0); [lia | reflexivity].
Qed.

Lemma slices_sum (fuel : nat) (w : Z) :
  0 <= w -> w <= 5000 * Z.of_nat fuel -> sumZ (slices fuel w) = w.
Proof.
  revert w. induction fuel as [|fuel IH]; intros w H0 Hw; simpl.
  - lia.
  - destruct (Z.gtb_spec w 0); [| simpl; lia].
    simpl. rewrite IH; lia.
Qed.

Lemma slices_bounds (fuel : nat) (w : Z) :
  Forall (fun c => 0 < c <= 5000) (slices fuel w).
Proof.
  revert w. induction fuel as [|fuel IH]; intros w; simpl; [constructor|].
  destruct (Z.gtb_spec w 0); constructor; [lia | apply IH].
Qed.

Lemma slices_count (fuel : nat) (w : Z) :
  0 <= w -> w <= 5000 * Z.of_nat fuel ->
  Z.of_nat (List.length (slices fuel w)) = (w + 4999) / 5000.
Proof.
  revert w. induction fuel as [|fuel IH]; intros w H0 Hw; simpl.
  - replace w with 0 by lia. reflexivity.
  - destruct (Z.gtb_spec w 0).
    + cbn [List.length]. rewrite Nat2Z.inj_succ, IH by lia.
      destruct (Z.le_gt_cases w 5000).
      * rewrite Z.min_r by lia. replace (w - w) with 0 by lia.
        change ((0 + 4999) / 5000) with 0.
        assert ((w + 4999) / 5000 = 1) as ->
          by (symmetry; apply (Z.div_unique (w + 4999) 5000 1 (w - 1)); lia).
        reflexivity.
      * rewrite Z.min_l by lia.
        replace (w + 4999) with ((w - 5000 + 4999) + 1 * 5000) by lia.
        rewrite Z.div_add by lia. lia.
    + replace w with 0 by lia. reflexivity.
Qed.

Lemma waitChunks_running (fuel : nat) :
  forall (w : Z) (st : Bot),
    isRunning st = true ->
    w <= 5000 * Z.of_nat fuel ->
    wp (waitChunks fuel w) (fun _ st' => waited (slices fuel w) st st') st.
Proof.
  induction fuel as [|fuel IH]; intros w st Hrun Hw.
  - cbn. destruct (Z.gtb_spec w 0); [lia|]. cbn.
    unfold waited. cbn. rewrite app_nil_r. repeat split; lia.
  - cbn [waitChunks slices]. apply wp_bind. unfold wp at 1, get.
    rewrite Hrun. destruct (Z.gtb_spec w 0) as [Hpos|Hpos]; cbn [andb].
    + apply wp_bind. unfold wp at 1. cbn.
      set (c := Z.min 5000 w).
      apply wp_bind.
      assert (forall s, isRunning s = true ->
                wp (waitChunks fuel (w - c))
                  (fun _ st' => waited (slices fuel (w - c)) s st') s) as Hnext
        by (intros s Hs; apply IH; [exact Hs | subst c; lia]).
      destruct (w - c >? 0); cbn.
      * eapply wp_mono; [| apply Hnext; exact Hrun].
        intros ? st' (Hn & Ht & Hr & Hs). unfold waited, sumZ in *. cbn in *.
        rewrite Hn, Ht, Hr, Hs, !chunkSleeps_app. cbn.
        rewrite app_nil_r, <- app_assoc.
        repeat split; try reflexivity. subst c. lia.
      * eapply wp_mono; [| apply Hnext; exact Hrun].
        intros ? st' (Hn & Ht & Hr & Hs). unfold waited, sumZ in *. cbn in *.
        rewrite Hn, Ht, Hr, Hs, !chunkSleeps_app. cbn.
        rewrite <- app_assoc.
        repeat split; try reflexivity. subst c. lia.
    + cbn. unfold waited. cbn. rewrite app_nil_r. repeat split; lia.
Qed.

(** X9: while the bot is running, a rate-limit wait of [waitTime] > 0
    sleeps exactly [waitTime] in all: the clock moves by [waitTime], in
    slices of at most 5000 ms each, ceil(waitTime / 5000) of them, and the
    wait is counted once in [rateLimitHits] and its length added to
    [totalWaitTime].  Nothing of the delivery state changes. *)
Theorem waitForRateLimit_sleeps_exactly (waitTime : Z) (st : Bot) :
  isRunning st = true ->
  0 < waitTime ->
  exists st' chunks,
    waitForRateLimit waitTime st = Some (tt, st')
    /\ now st' = now st + waitTime
    /\ chunkSleeps (trace st') = chunkSleeps (trace st) ++ chunks
    /\ sumZ chunks = waitTime
    /\ Forall (fun c => 0 < c <= 5000) chunks
    /\ Z.of_nat (List.length chunks) = (waitTime + 4999) / 5000
    /\ rateLimitHits (stats st') = rateLimitHits (stats st) + 1
    /\ totalWaitTime (stats st') = totalWaitTime (stats st) + waitTime
    /\ quiet st st'.
Proof.
  intros Hrun Hpos.
  pose proof (waitForRateLimit_quiet waitTime st) as Q.
  apply wp_run in Q. destruct Q as [[] [st' [Hrun' Q]]].
  exists st', (slices (chunksOf waitTime) waitTime).
  split; [exact Hrun'|].
  pose proof (chunksOf_enough waitTime Hpos) as Hfuel.
  unfold waitForRateLimit in Hrun'.
  destruct (Z.leb_spec waitTime 0); [lia|].
  unfold bind at 1 in Hrun'. cbn [log emit modify] in Hrun'.
  unfold bind at 1 in Hrun'. cbn [modifyStats modify] in Hrun'.
  unfold bind at 1 in Hrun'.
  match type of Hrun' with
  | context [waitChunks ?f ?w ?s] =>
      pose proof (waitChunks_running f w s Hrun Hfuel) as Hw;
      unfold wp in Hw; destruct (waitChunks f w s) as [[[] st1]|]; [| contradiction]
  end.
  destruct Hw as (Hn & Ht & Hr & Hs).
  cbn in Hn, Ht, Hr, Hs. rewrite chunkSleeps_app, app_nil_r in Ht.
  unfold bind, get, when, log, emit, modify in Hrun'.
  rewrite Hr, Hrun in Hrun'. injection Hrun' as <-. cbn.
  rewrite chunkSleeps_app, app_nil_r, Hn, Ht, Hs. cbn.
  rewrite slices_sum by lia.
  repeat (split;
          [first [reflexivity | apply slices_bounds | apply slices_count; lia]|]).
  exact Q.
Qed.

Lemma waitForRateLimit_sleeps_exactly_witness :
  exists st',
    waitForRateLimit 12000 (runningBot 0 []) = Some (tt, st')
    /\ now st' = 12000
    /\ chunkSleeps (trace st') = [5000; 5000; 2000].
Proof.
  destruct (waitForRateLimit_sleeps_exactly 12000 (runningBot 0 []))
    as [st' [chunks [Hrun [Hnow _]]]].
  - reflexivity.
  - lia.
  - exists st'. split; [exact Hrun|]. split; [exact Hnow|].
    vm_compute in Hrun. injection Hrun as <-. reflexivity.
Defined.

(** X10: a rate-limit wait that is not positive does nothing at all; when
    the bot is shutting down ([isRunning] false) a positive wait returns
    without sleeping, the clock does not move, and the wait is all the same
    counted in [rateLimitHits] and [totalWaitTime]. *)
Theorem waitForRateLimit_without_sleeping (waitTime : Z) (st : Bot) :
  (waitTime <= 0 -> waitForRateLimit waitTime st = Some (tt, st))
  /\ (0 < waitTime -> isRunning st = false ->
      exists st',
        waitForRateLimit waitTime st = Some (tt, st')
        /\ now st' = now st
        /\ chunkSleeps (trace st') = chunkSleeps (trace st)
        /\ trace st' = trace st ++ [Log INFO "Waiting for rate limit reset"]
        /\ rateLimitHits (stats st') = rateLimitHits (stats st) + 1
        /\ totalWaitTime (stats st') = totalWaitTime (stats st) + waitTime).
Proof.
  split.
  - intros H. unfold waitForRateLimit.
    destruct (Z.leb_spec waitTime 0); [reflexivity | lia].
  - intros Hpos Hrun. unfold waitForRateLimit.
    destruct (Z.leb_spec waitTime 0); [lia|].
    assert (forall fuel s, isRunning s = false ->
              waitChunks fuel waitTime s = Some (tt, s)) as Hloop.
    { intros fuel s Hs. destruct fuel; cbn; unfold bind, get;
        rewrite Hs, andb_false_r; reflexivity. }
    unfold bind at 1. cbn [log emit modify].
    unfold bind at 1. cbn [modifyStats modify].
    unfold bind at 1. rewrite Hloop by exact Hrun.
    unfold bind, get, when. cbn. rewrite Hrun. cbn.
    eexists. split; [reflexivity|]. cbn.
    rewrite chunkSleeps_app, app_nil_r. repeat split.
Qed.

(** ** Storage *)

Lemma log_run (level : Level) (message : string) (st : Bot) :
  log level message st = Some (tt, logged level message st).
Proof. reflexivity. Qed.

Lemma sleep_run (why : Timer) (ms : Z) (st : Bot) :
  sleep why ms st = Some (tt, slept why ms st).
Proof. reflexivity. Qed.

(** X11: [executeQuery] on the Railway store stops at the first attempt that
    goes through and makes three attempts at most; it sleeps 1000 ms after a
    first failure and 2000 ms after a second one, and throws after the third
    without sleeping again.  So the clock moves by 0, 1000 or 3000 ms. *)
Theorem executeQuery_attempts_and_backoff {A : Type} (env : Env)
    (statement : Bot -> A * list Ledger.row) (name : string) (st : Bot) :
  let n := railwayAttempts st in
  exists r st',
    executeQuery (railwayAttempt env statement) name st = Some (r, st')
    /\ match railwayUp env n, railwayUp env (S n), railwayUp env (S (S n)) with
       | true, _, _ =>
           r <> None /\ railwayAttempts st' = S n
           /\ retrySleeps (trace st') = retrySleeps (trace st)
           /\ now st' = now st
       | false, true, _ =>
           r <> None /\ railwayAttempts st' = S (S n)
           /\ retrySleeps (trace st') = retrySleeps (trace st) ++ [1000]
           /\ now st' = now st + 1000
       | false, false, true =>
           r <> None /\ railwayAttempts st' = S (S (S n))
           /\ retrySleeps (trace st') = retrySleeps (trace st) ++ [1000; 2000]
           /\ now st' = now st + 3000
       | false, false, false =>
           r = None /\ railwayAttempts st' = S (S (S n))
           /\ retrySleeps (trace st') = retrySleeps (trace st) ++ [1000; 2000]
           /\ now st' = now st + 3000
           /\ processed_records st' = processed_records st
       end.
Proof.
  cbv zeta. unfold executeQuery. change (Z.to_nat maxAttempts) with 3%nat.
  assert (forall a b, retrySleeps (a ++ b) = retrySleeps a ++ retrySleeps b) as Happ
    by (intros; apply flat_map_app).
  match goal with
  | |- exists r st', ?m st = Some (r, st') /\ @?P r st' =>
      enough (wp m P st) as H
        by (apply wp_run in H; destruct H as [r [st' H]]; exists r, st'; exact H)
  end.
  cbn [executeQueryFrom]. apply wp_bind. unfold wp at 1.
  rewrite railwayAttempt_run.
  destruct (railwayUp env (railwayAttempts st)) eqn:U0.
  { cbn. rewrite Happ, app_nil_r. split; [discriminate|]. repeat split. }
  apply wp_bind. unfold wp at 1. rewrite log_run.
  change (0 + 1 >=? maxAttempts) with false. cbv iota.
  apply wp_bind. unfold wp at 1. rewrite sleep_run.
  apply wp_bind. unfold wp at 1. rewrite railwayAttempt_run.
  cbn [railwayAttempts attempting logged slept set_railwayAttempts set_trace set_now].
  destruct (railwayUp env (S (railwayAttempts st))) eqn:U1.
  { cbn. rewrite !Happ. cbn. split; [discriminate|].
    repeat split; rewrite ?app_nil_r, <- ?app_assoc; try reflexivity; cbn; lia. }
  apply wp_bind. unfold wp at 1. rewrite log_run.
  change (0 + 1 + 1 >=? maxAttempts) with false. cbv iota.
  apply wp_bind. unfold wp at 1. rewrite sleep_run.
  apply wp_bind. unfold wp at 1. rewrite railwayAttempt_run.
  cbn [railwayAttempts attempting logged slept set_railwayAttempts set_trace set_now].
  destruct (railwayUp env (S (S (railwayAttempts st)))) eqn:U2.
  { cbn. rewrite !Happ. cbn. split; [discriminate|].
    repeat split; rewrite ?app_nil_r, <- ?app_assoc; try reflexivity; cbn; lia. }
  apply wp_bind. unfold wp at 1. rewrite log_run.
  change (0 + 1 + 1 + 1 >=? maxAttempts) with true. cbv iota.
  cbn. rewrite !Happ. cbn.
  repeat split; rewrite ?app_nil_r, <- ?app_assoc; try reflexivity; cbn; lia.
Qed.

(** ** Ledger *)

Lemma upsert_keys_In (t : Z) (new : Ledger.row) (table : list Ledger.row) (x : string) :
  In x (map Ledger.record_id (upsert t new table))
  <-> x = Ledger.record_id new \/ In x (map Ledger.record_id table).
Proof.
  destruct (in_dec string_dec (Ledger.record_id new) (map Ledger.record_id table))
    as [Hin | Hnotin].
  - rewrite upsert_keys by exact Hin. split; [auto|]. intros [-> | H]; assumption.
  - rewrite upsert_keys_fresh by exact Hnotin. rewrite map_app, in_app_iff. simpl.
    split; [intros [H | [H | []]]; auto | intros [-> | H]; auto].
Qed.

Lemma upsert_keeps_rows (t : Z) (new : Ledger.row) (table : list Ledger.row)
    (r : Ledger.row) :
  In r table ->
  exists r',
    In r' (upsert t new table) /\ sameOrigin r r'
    /\ (Ledger.record_id r <> Ledger.record_id new -> r' = r).
Proof.
  induction table as [|x rest IH]; simpl; [intros []|].
  destruct (String.eqb_spec (Ledger.record_id x) (Ledger.record_id new)) as [E|E].
  - intros [<- | Hin].
    + exists (conflictUpdate t new x). split; [left; reflexivity|].
      split; [repeat split | intros H; contradiction].
    + exists r. split; [right; exact Hin|]. split; [repeat split | reflexivity].
  - intros [<- | Hin].
    + exists x. split; [left; reflexivity|]. split; [repeat split | reflexivity].
    + destruct (IH Hin) as [r' [Hin' H]]. exists r'. split; [right; exact Hin' | exact H].
Qed.

(** X12: [loadProcessedIds] always returns and leaves the table alone; when
    the store answers, the seen-set becomes exactly the set of the record ids
    of the table, each one the string the VARCHAR column holds; when it does
    not, the seen-set becomes empty, whatever it held before. *)
Theorem loadProcessedIds_seeds (env : Env) (st : Bot) :
  exists st',
    loadProcessedIds env st = Some (tt, st')
    /\ processed_records st' = processed_records st
    /\ (railwayReachable env st = true ->
        forall recordId,
          recordId ∈ processedIds st'
          <-> exists s,
                recordId = Id.Str s
                /\ In s (map Ledger.record_id (processed_records st)))
    /\ (railwayReachable env st = false -> processedIds st' = ∅).
Proof.
  pose proof (loadProcessedIds_spec env st) as H.
  apply wp_run in H. destruct H as [[] [st' [Hrun [_ [Htab [_ Hids]]]]]].
  exists st'. split; [exact Hrun|]. split; [exact Htab|].
  destruct (railwayReachable env st); split; try discriminate; intros _.
  - intros recordId.
    rewrite Hids, elem_of_list_to_set, list_elem_of_In, in_map_iff.
    split; intros [s [H1 H2]]; exists s; split; auto.
  - exact Hids.
Qed.

(** X13: with the store up, a ledger write followed by a reload of the
    seen-set (as a restart does) gives the seen-set that holds, as strings,
    the text of the id written and the ids the table held before, and
    nothing else.  So the string of the id written is in the reloaded
    seen-set, and an id that is a number is not in it. *)
Theorem saveProcessedId_then_load (env : Env) (st : Bot) (recordId : Id.t)
    (postedTweetId replyToTweetId : option string) (status : string)
    (contentLength : option Z) (poiTransaction : option string) :
  (forall i, railwayUp env i = true) ->
  exists st',
    (saveProcessedId env recordId postedTweetId replyToTweetId status
       contentLength poiTransaction ;;
     loadProcessedIds env) st = Some (tt, st')
    /\ (forall x,
          x ∈ processedIds st'
          <-> exists s,
                x = Id.Str s
                /\ (s = Id.text recordId
                    \/ In s (map Ledger.record_id (processed_records st))))
    /\ Id.Str (Id.text recordId) ∈ processedIds st'
    /\ (forall n, recordId = Id.Num n -> recordId ∉ processedIds st').
Proof.
  intros Hup.
  assert (forall s, railwayReachable env s = true) as Hreach
    by (intros s; unfold railwayReachable; rewrite Hup; reflexivity).
  pose proof (saveProcessedId_spec env recordId postedTweetId replyToTweetId status
                contentLength poiTransaction st) as H1.
  apply wp_run in H1. destruct H1 as [[] [st1 [Hrun1 [_ H1]]]].
  rewrite Hreach in H1. destruct H1 as [Htab1 _].
  pose proof (loadProcessedIds_spec env st1) as H2.
  apply wp_run in H2. destruct H2 as [[] [st2 [Hrun2 [_ [_ [_ Hids]]]]]].
  rewrite Hreach in Hids.
  assert (forall x,
             x ∈ processedIds st2
             <-> exists s,
                   x = Id.Str s
                   /\ (s = Id.text recordId
                       \/ In s (map Ledger.record_id (processed_records st))))
    as Hiff.
  { intros x. rewrite Hids, elem_of_list_to_set, list_elem_of_In, in_map_iff, Htab1.
    split.
    - intros [s [<- Hs]]. exists s. split; [reflexivity|].
      apply upsert_keys_In in Hs. exact Hs.
    - intros [s [-> Hs]]. exists s. split; [reflexivity|].
      apply upsert_keys_In. exact Hs. }
  exists st2. split; [unfold bind; rewrite Hrun1; exact Hrun2|].
  split; [exact Hiff|]. split.
  - apply Hiff. exists (Id.text recordId). split; [reflexivity | left; reflexivity].
  - intros n -> Hin. apply Hiff in Hin. destruct Hin as [s [Hs _]]. discriminate Hs.
Qed.

Lemma saveProcessedId_then_load_witness :
  exists st',
    (saveProcessedId (healthyEnv []) (Id.Num 7) (Some "1001") (Some "111") "success"
       (Some 11) None ;;
     loadProcessedIds (healthyEnv [])) (newBot 0 []) = Some (tt, st')
    /\ Id.Str "7" ∈ processedIds st'
    /\ Id.Num 7 ∉ processedIds st'.
Proof.
  destruct (saveProcessedId_then_load (healthyEnv []) (newBot 0 []) (Id.Num 7)
              (Some "1001"%string) (Some "111"%string) "success" (Some 11) None)
    as [st' (Hrun & _ & Hstr & Hnum)].
  - intros i. reflexivity.
  - exists st'. split; [exact Hrun|]. split; [exact Hstr|].
    apply (Hnum 7). reflexivity.
Defined.

(** X14: whether it reaches the store or not, a ledger write keeps the
    primary key of the table, keeps every id of the seen-set backed by a row
    if that was so before, leaves the rows of the other ids exactly as they
    were, and keeps every row there was, with its creation fields. *)
Theorem saveProcessedId_keeps_ledger (env : Env) (st : Bot) (recordId : Id.t)
    (postedTweetId replyToTweetId : option string) (status : string)
    (contentLength : option Z) (poiTransaction : option string) :
  exists st',
    saveProcessedId env recordId postedTweetId replyToTweetId status
      contentLength poiTransaction st = Some (tt, st')
    /\ (primaryKey (processed_records st) -> primaryKey (processed_records st'))
    /\ ((forall x, x ∈ processedIds st ->
           In (Id.text x) (map Ledger.record_id (processed_records st))) ->
        forall x, x ∈ processedIds st' ->
          In (Id.text x) (map Ledger.record_id (processed_records st')))
    /\ (forall other, other <> Id.text recordId ->
         rowsOf other (processed_records st') = rowsOf other (processed_records st))
    /\ (forall r, In r (processed_records st) ->
         exists r', In r' (processed_records st') /\ sameOrigin r r')
    /\ processedIds st ⊆ processedIds st'.
Proof.
  pose proof (saveProcessedId_spec env recordId postedTweetId replyToTweetId status
                contentLength poiTransaction st) as H.
  apply wp_run in H. destruct H as [[] [st' [Hrun [_ H]]]].
  exists st'. split; [exact Hrun|].
  destruct (railwayReachable env st).
  - destruct H as [Htab [Hids _]]. rewrite Htab, Hids.
    set (new := insertedRow (now st') (Id.text recordId) postedTweetId
                  replyToTweetId status contentLength poiTransaction).
    split; [apply upsert_primaryKey|]. split.
    { intros Hinv x Hx. apply upsert_keys_In.
      apply elem_of_union in Hx. destruct Hx as [Hx | Hx].
      - left. apply elem_of_singleton in Hx. rewrite Hx. reflexivity.
      - right. apply Hinv. exact Hx. }
    split; [intros other Hother; apply rowsOf_upsert_other; exact Hother|].
    split; [| apply union_subseteq_r].
    intros r Hr. destruct (upsert_keeps_rows (now st') new _ r Hr) as [r' [Hin [Hsame _]]].
    exists r'. split; assumption.
  - destruct H as [Htab [Hids _]]. rewrite Htab, Hids.
    split; [auto|]. split; [auto|]. split; [reflexivity|].
    split; [| reflexivity].
    intros r Hr. exists r. split; [exact Hr | repeat split].
Qed.

(** ** Delivery Engine *)

Lemma length_append (a b : string) :
  String.length (a +:+ b) = (String.length a + String.length b)%nat.
Proof. induction a as [|c a IH]; simpl; [reflexivity | rewrite IH; reflexivity]. Qed.

Lemma length_substring (n : nat) (s : string) :
  (n <= String.length s)%nat -> String.length (String.substring 0 n s) = n.
Proof.
  revert s. induction n as [|n IH]; intros s H.
  - destruct s; reflexivity.
  - destruct s as [|c s]; simpl in *; [lia|]. rewrite IH; [reflexivity | lia].
Qed.

Lemma substring_prefix (n : nat) (s : string) :
  String.prefix (String.substring 0 n s) s = true.
Proof.
  revert s. induction n as [|n IH]; intros s.
  - destruct s; reflexivity.
  - destruct s as [|c s]; simpl; [reflexivity|].
    destruct (ascii_dec c c) as [_|N]; [apply IH | contradiction].
Qed.

Lemma truncate_length (cleanedContent : string) :
  jsLength (truncate cleanedContent) <= 20000.
Proof.
  unfold truncate.
  set (finalContent := string_of_list_ascii (Js.trim (list_ascii_of_string cleanedContent))).
  destruct (Z.gtb_spec (jsLength finalContent) 20000) as [H|H]; [| exact H].
  unfold jsLength in *. rewrite length_append, length_substring by lia.
  change (String.length "...") with 3%nat. lia.
Qed.

Lemma truncate_nonempty (cleanedContent : string) :
  String.eqb cleanedContent "" || (trimLength cleanedContent =? 0) = false ->
  truncate cleanedContent <> ""%string.
Proof.
  intros H. apply orb_false_iff in H. destruct H as [_ H].
  apply Z.eqb_neq in H. unfold trimLength in H.
  intros E. apply (f_equal String.length) in E. revert E. unfold truncate.
  set (finalContent := string_of_list_ascii (Js.trim (list_ascii_of_string cleanedContent))).
  destruct (Z.gtb_spec (jsLength finalContent) 20000) as [G|G].
  - unfold jsLength in G. rewrite length_append, length_substring by lia.
    change (String.length "...") with 3%nat. change (String.length "") with 0%nat. lia.
  - unfold finalContent. rewrite length_of_chars. change (String.length "") with 0%nat. lia.
Qed.

(** X15: the text [postToTwitter] hands to the post-reply operation is never
    longer than 20000 code units.  It is the trimmed content when that has at
    most 20000 code units; otherwise it is the first 19995 code units of the
    trimmed content followed by three dots, 19998 code units in all. *)
Theorem truncate_bounds (cleanedContent : string) :
  let trimmed :=
    string_of_list_ascii (Js.trim (list_ascii_of_string cleanedContent)) in
  jsLength (truncate cleanedContent) <= 20000
  /\ (jsLength trimmed <= 20000 -> truncate cleanedContent = trimmed)
  /\ (20000 < jsLength trimmed ->
      jsLength (truncate cleanedContent) = 19998
      /\ exists head,
          truncate cleanedContent = head +:+ "..."
          /\ jsLength head = 19995
          /\ String.prefix head trimmed = true).
Proof.
  intros trimmed. split; [apply truncate_length|].
  unfold truncate. fold trimmed.
  destruct (Z.gtb_spec (jsLength trimmed) 20000) as [G|G]; split; try lia.
  - intros _. unfold jsLength in *. split.
    + rewrite length_append, length_substring by lia.
      change (String.length "...") with 3%nat. lia.
    + eexists. split; [reflexivity|]. split.
      * rewrite length_substring by lia. lia.
      * apply substring_prefix.
  - reflexivity.
Qed.

(** ** Delivery of one record *)

Lemma sameOrigin_refl (r : Ledger.row) : sameOrigin r r.
Proof. repeat split. Qed.

Lemma sameOrigin_trans (a b c : Ledger.row) :
  sameOrigin a b -> sameOrigin b c -> sameOrigin a c.
Proof.
  unfold sameOrigin. intros (?&?&?&?&?&?) (?&?&?&?&?&?). repeat split; congruence.
Qed.

Lemma ledgerKept_same (st st' : Bot) :
  processedIds st' = processedIds st ->
  processed_records st' = processed_records st ->
  ledgerKept st st'.
Proof.
  intros Hids Htab. unfold ledgerKept. rewrite Hids, Htab.
  split; [auto|]. split; [reflexivity|]. split; [| auto].
  intros r Hr. exists r. split; [exact Hr | apply sameOrigin_refl].
Qed.

Lemma ledgerKept_trans (a b c : Bot) :
  ledgerKept a b -> ledgerKept b c -> ledgerKept a c.
Proof.
  intros (K1 & S1 & O1 & I1) (K2 & S2 & O2 & I2).
  split; [auto|]. split; [etrans; eassumption|]. split; [| auto].
  intros r Hr. destruct (O1 r Hr) as [r1 [Hr1 H1]].
  destruct (O2 r1 Hr1) as [r2 [Hr2 H2]].
  exists r2. split; [exact Hr2 | exact (sameOrigin_trans _ _ _ H1 H2)].
Qed.

Lemma posted_trans (record : Answer.row) (c1 c2 : nat) (a b c : Bot) :
  posted record c1 a b -> posted record c2 b c -> posted record (c1 + c2) a c.
Proof.
  intros (L1 & N1 & T1 & e1 & D1 & F1 & C1 & B1) (L2 & N2 & T2 & e2 & D2 & F2 & C2 & B2).
  split; [exact (ledgerKept_trans _ _ _ L1 L2)|].
  split; [intros x Hx; destruct (N2 x Hx) as [H | H]; auto|].
  split; [congruence|].
  exists (e1 ++ e2). split; [rewrite D2, D1, app_assoc; reflexivity|].
  split; [apply Forall_app; split; assumption|].
  rewrite List.filter_app, List.length_app. split; lia.
Qed.

Lemma posted_weaken (record : Answer.row) (c c' : nat) (st st' : Bot) :
  (c <= c')%nat -> posted record c st st' -> posted record c' st st'.
Proof.
  intros Hc (L & N & T & evs & D & F & C & B). repeat (split; [assumption|]).
  exists evs. repeat (split; [assumption|]). lia.
Qed.

Lemma posted_same (record : Answer.row) (st st' : Bot) :
  processedIds st' = processedIds st ->
  processed_records st' = processed_records st ->
  totalProcessed (stats st') = totalProcessed (stats st) ->
  tweetCalls st' = tweetCalls st ->
  deliveries (trace st') = deliveries (trace st) ->
  posted record 0 st st'.
Proof.
  intros Hids Htab Htot Hcalls Hdel.
  split; [apply ledgerKept_same; assumption|].
  split; [intros x Hx; left; rewrite <- Hids; exact Hx|].
  split; [exact Htot|].
  exists []. split; [rewrite app_nil_r; exact Hdel|].
  split; [constructor|]. cbn. split; lia.
Qed.

Lemma quiet_posted (record : Answer.row) (st st' : Bot) :
  quiet st st' -> posted record 0 st st'.
Proof.
  intros (_&Hids&Htab&Hcalls&_&_&Htot&_&_&_&_&Hdel). apply posted_same; assumption.
Qed.

Lemma respects_weaken {A : Type} (R R' : Bot -> Bot -> Prop) (m : M A) :
  (forall st st', R st st' -> R' st st') -> respects R m -> respects R' m.
Proof. intros HR Hm st a st' E. apply HR. eapply Hm. exact E. Qed.

Lemma respects_posted_bind {A B : Type} (record : Answer.row) (c1 c2 : nat)
    (m : M A) (k : A -> M B) :
  respects (posted record c1) m ->
  (forall a, respects (posted record c2) (k a)) ->
  respects (posted record (c1 + c2)) (bind m k).
Proof.
  intros Hm Hk st b st' E. unfold bind in E.
  destruct (m st) as [[a st1]|] eqn:E1; [| discriminate].
  eapply posted_trans; [eapply Hm; exact E1 | eapply Hk; exact E].
Qed.

Lemma quiet_respects_posted {A : Type} (record : Answer.row) (m : M A) :
  keeps quiet m -> respects (posted record 0) m.
Proof.
  intros H. apply (respects_weaken quiet); [apply quiet_posted|].
  apply (keeps_respects quiet). exact H.
Qed.

Lemma respects_posted_ret {A : Type} (record : Answer.row) (c : nat) (a : A) :
  respects (posted record c) (ret a).
Proof.
  intros st a' st' E. injection E as _ <-.
  apply (posted_weaken record 0); [lia|].
  apply posted_same; reflexivity.
Qed.

Section PostedFacts.

Variable config : Config.
Variable env : Env.
Variable record : Answer.row.

Lemma modifyStats_posted (f : Stats -> Stats) :
  (forall s, totalProcessed (f s) = totalProcessed s) ->
  respects (posted record 0) (modifyStats f).
Proof.
  intros Hf st a st' E. injection E as _ <-.
  apply posted_same; try reflexivity. cbn. apply Hf.
Qed.

Lemma saveProcessedId_posted (postedTweetId replyToTweetId : option string)
    (status : string) (contentLength : option Z) (poiTransaction : option string) :
  respects (posted record 0)
    (saveProcessedId env (Answer.id record) postedTweetId replyToTweetId status
       contentLength poiTransaction).
Proof.
  intros st a st' E.
  pose proof (saveProcessedId_spec env (Answer.id record) postedTweetId
                replyToTweetId status contentLength poiTransaction st) as H.
  unfold wp in H. rewrite E in H.
  destruct H as [(_&Hcalls&_&_&Htot&_&_&_&Hdel) H].
  destruct (railwayReachable env st).
  - destruct H as [Htab [Hids _]].
    split.
    { unfold ledgerKept. rewrite Htab, Hids.
      split; [apply upsert_primaryKey|]. split; [apply union_subseteq_r|]. split.
      - intros r Hr.
        destruct (upsert_keeps_rows (now st')
                    (insertedRow (now st') (Id.text (Answer.id record)) postedTweetId
                       replyToTweetId status contentLength poiTransaction)
                    _ r Hr) as [r' [Hin [Hsame _]]].
        exists r'. split; assumption.
      - intros Hinv x Hx. apply upsert_keys_In.
        apply elem_of_union in Hx. destruct Hx as [Hx | Hx].
        + left. apply elem_of_singleton in Hx. rewrite Hx. reflexivity.
        + right. apply Hinv. exact Hx. }
    split.
    { intros x Hx. rewrite Hids in Hx. apply elem_of_union in Hx.
      destruct Hx as [Hx | Hx]; [right; apply elem_of_singleton in Hx; exact Hx | left; exact Hx]. }
    split; [exact Htot|].
    exists []. split; [rewrite app_nil_r; exact Hdel|].
    split; [constructor|]. cbn. split; lia.
  - destruct H as [Htab [Hids _]]. apply posted_same; assumption.
Qed.

Ltac posted_step lem :=
  apply (respects_posted_bind record 0); [apply lem | intros ?].

Ltac posted_quiet lem :=
  apply (respects_posted_bind record 0);
  [apply quiet_respects_posted, lem | intros ?].

Lemma postFailed_posted (error : ApiError.t) (c : nat) :
  respects (posted record c) (postFailed env record error).
Proof.
  unfold postFailed.
  posted_quiet (log_quiet ERROR).
  posted_step modifyStats_posted; [reflexivity|].
  posted_step modifyStats_posted; [reflexivity|].
  apply (respects_posted_bind record 0); [| intros ?; apply respects_posted_ret].
  destruct (isTargetGone error); [| apply quiet_respects_posted, log_quiet].
  posted_quiet (log_quiet WARN).
  posted_step modifyStats_posted; [reflexivity|].
  apply saveProcessedId_posted.
Qed.

Lemma postCatch_posted (retry : M (option PostResult)) (retryCount : nat)
    (error : ApiError.t) (c : nat) :
  (Z.of_nat retryCount < maxRetries config -> respects (posted record c) retry) ->
  respects (posted record c) (postCatch config env retry record retryCount error).
Proof.
  intros Hretry. unfold postCatch.
  posted_quiet updateRateLimitInfo_quiet.
  destruct (isRateLimitError error); [| apply postFailed_posted].
  posted_quiet (log_quiet WARN).
  destruct (Z.ltb_spec (Z.of_nat retryCount) (maxRetries config)) as [Hlt|Hge].
  - posted_quiet (log_quiet INFO).
    apply (respects_posted_bind record 0); [| intros ?; apply Hretry; exact Hlt].
    intros st ? st' E. injection E as _ <-.
    split; [apply ledgerKept_same; reflexivity|].
    split; [intros x Hx; left; exact Hx|].
    split; [reflexivity|].
    exists [Sleep Backoff (finalDelay config retryCount)].
    split; [cbn; rewrite deliveries_app; reflexivity|].
    split; [constructor; [exact I | constructor]|]. cbn. split; lia.
  - posted_quiet (log_quiet ERROR). apply postFailed_posted.
Qed.

Lemma postToTwitter_posted (fuel : nat) :
  forall retryCount,
    respects
      (posted record (1 + Z.to_nat (maxRetries config - Z.of_nat retryCount)))
      (postToTwitter config env fuel record retryCount).
Proof.
  induction fuel as [|fuel IH]; intros retryCount; [apply respects_diverge|].
  assert (Z.of_nat retryCount < maxRetries config ->
          respects
            (posted record (Z.to_nat (maxRetries config - Z.of_nat retryCount)))
            (postToTwitter config env fuel record (S retryCount))) as Hretry.
  { intros Hlt. eapply respects_weaken; [| apply (IH (S retryCount))].
    intros st st'. apply posted_weaken. lia. }
  set (c := Z.to_nat (maxRetries config - Z.of_nat retryCount)) in *.
  cbn [postToTwitter].
  posted_quiet (log_quiet DEBUG).
  apply (respects_posted_bind record 0).
  { apply (respects_weaken quiet); [apply quiet_posted | apply validateTweet_quiet]. }
  intros tweetExists. destruct tweetExists; cbn [negb].
  - destruct (Answer.answer record) as [answer|] eqn:Hanswer.
    + cbv zeta.
      destruct (String.eqb (cleanAnswerForTwitter answer) ""
                || (trimLength (cleanAnswerForTwitter answer) =? 0)) eqn:Hcontent.
      * posted_quiet (log_quiet WARN).
        posted_step modifyStats_posted; [reflexivity|].
        apply respects_posted_ret.
      * posted_quiet checkRateLimit_quiet.
        posted_quiet (keeps_when quiet quiet_refl). { apply waitForRateLimit_quiet. }
        posted_quiet (log_quiet INFO).
        apply (respects_posted_bind record 1 c).
        { intros st ? st' E. rewrite callTweet_run in E. injection E as _ <-.
          split; [apply ledgerKept_same; reflexivity|].
          split; [intros x Hx; left; exact Hx|].
          split; [reflexivity|].
          eexists. split; [cbn; rewrite deliveries_app; reflexivity|].
          split; [| cbn; split; lia].
          constructor; [| constructor]. cbn.
          split; [reflexivity|]. split; [apply truncate_nonempty, Hcontent|].
          split; [apply truncate_length|].
          exists answer. split; [exact Hanswer | reflexivity]. }
        intros response. destruct response as [[postedId headers] | error].
        -- posted_quiet updateRateLimitInfo_quiet.
           posted_quiet (log_quiet SUCCESS).
           posted_step modifyStats_posted; [reflexivity|].
           apply respects_posted_ret.
        -- apply postCatch_posted, Hretry.
    + apply postCatch_posted. intros Hlt.
      eapply respects_weaken; [| apply (Hretry Hlt)].
      intros st st'. apply posted_weaken. lia.
  - posted_quiet (log_quiet WARN).
    posted_step modifyStats_posted; [reflexivity|].
    posted_step saveProcessedId_posted.
    apply respects_posted_ret.
Qed.

End PostedFacts.

(** ** Termination *)

Lemma anyhow_trans (a b c : Bot) : anyhow a b -> anyhow b c -> anyhow a c.
Proof. intros _ _. exact I. Qed.

Lemma keeps_anyhow {A : Type} (R : Bot -> Bot -> Prop) (m : M A) :
  keeps R m -> keeps anyhow m.
Proof. apply keeps_weaken. intros ? ? ?. exact I. Qed.

Section Termination.

Variable config : Config.
Variable env : Env.

Hypothesis unlimited : lookupsUnlimited env.

Ltac returns_step lem :=
  apply (keeps_bind anyhow anyhow_trans); [apply (keeps_anyhow _ _ lem) | intros ?].

Ltac returns_wp lem :=
  apply wp_bind; eapply wp_mono; [| apply lem]; intros ? ? _; cbv beta.

Lemma validateTweet_returns (fuel : nat) (tweetId : option string) :
  keeps anyhow (validateTweet env (S fuel) tweetId).
Proof.
  intros st. cbn [validateTweet].
  returns_wp (checkRateLimit_quiet Endpoint.lookup).
  returns_wp when_wait_quiet.
  apply wp_bind. unfold wp at 1. rewrite callSingleTweet_run.
  destruct (singleTweet env (singleTweetCalls st'0)) as [headers | error] eqn:E.
  - returns_wp updateRateLimitInfo_quiet. exact I.
  - returns_wp updateRateLimitInfo_quiet.
    rewrite (unlimited _ _ E).
    returns_wp (log_quiet WARN). exact I.
Qed.

Lemma postFailed_returns (record : Answer.row) (error : ApiError.t) :
  keeps anyhow (postFailed env record error).
Proof. apply (keeps_anyhow steady), postFailed_steady. Qed.

Lemma postCatch_returns (retry : M (option PostResult)) (record : Answer.row)
    (retryCount : nat) (error : ApiError.t) :
  (Z.of_nat retryCount < maxRetries config -> keeps anyhow retry) ->
  keeps anyhow (postCatch config env retry record retryCount error).
Proof.
  intros Hretry. unfold postCatch.
  returns_step (updateRateLimitInfo_quiet Endpoint.tweets (ApiError.headers error)).
  destruct (isRateLimitError error); [| apply postFailed_returns].
  returns_step (log_quiet WARN "Rate limit hit during tweet posting").
  destruct (Z.ltb_spec (Z.of_nat retryCount) (maxRetries config)) as [Hlt|Hge].
  - returns_step (log_quiet INFO "Retrying after rate limit backoff").
    returns_step (sleep_steady Backoff (finalDelay config retryCount)).
    apply Hretry, Hlt.
  - returns_step (log_quiet ERROR "Max retries reached for rate limited tweet").
    apply postFailed_returns.
Qed.

Lemma postToTwitter_returns (record : Answer.row) (fuel : nat) :
  forall retryCount,
    (Z.to_nat (maxRetries config - Z.of_nat retryCount) < fuel)%nat ->
    keeps anyhow (postToTwitter config env fuel record retryCount).
Proof.
  induction fuel as [|fuel IH]; intros retryCount Hfuel; [lia|].
  assert (Z.of_nat retryCount < maxRetries config ->
          keeps anyhow (postToTwitter config env fuel record (S retryCount))) as Hretry
    by (intros Hlt; apply IH; lia).
  cbn [postToTwitter].
  returns_step (log_quiet DEBUG "Validating original tweet exists").
  apply (keeps_bind anyhow anyhow_trans); [apply validateTweet_returns | intros tweetExists].
  destruct tweetExists; cbn [negb].
  - destruct (Answer.answer record) as [answer|]; [| apply postCatch_returns, Hretry].
    cbv zeta.
    destruct (String.eqb (cleanAnswerForTwitter answer) ""
              || (trimLength (cleanAnswerForTwitter answer) =? 0)).
    + returns_step (log_quiet WARN "No content left after cleaning scientific papers - SKIPPING").
      returns_step (modifyStats_steady add_skippedRecords).
      apply (keeps_ret anyhow); intros ?; exact I.
    + returns_step (checkRateLimit_quiet Endpoint.tweets).
      returns_step (when_wait_quiet (negb (fst a0)) (snd a0)).
      returns_step (log_quiet INFO "Attempting to post reply").
      apply (keeps_bind anyhow anyhow_trans);
        [eapply keeps_anyhow, callTweet_steady | intros response].
      destruct response as [[postedId headers] | error];
        [| apply postCatch_returns, Hretry].
      returns_step (updateRateLimitInfo_quiet Endpoint.tweets headers).
      returns_step (log_quiet SUCCESS "Successfully posted reply").
      returns_step (modifyStats_steady add_successfulPosts).
      apply (keeps_ret anyhow); intros ?; exact I.
  - returns_step (log_quiet WARN "Original tweet not accessible - SKIPPING").
    returns_step (modifyStats_steady add_skippedRecords).
    apply (keeps_bind anyhow anyhow_trans);
      [eapply keeps_anyhow, saveProcessedId_steady | intros _].
    apply (keeps_ret anyhow); intros ?; exact I.
Qed.

Lemma processRecord_returns (fuel : nat) (record : Answer.row) :
  (Z.to_nat (maxRetries config) < fuel)%nat ->
  keeps anyhow (processRecord config env fuel record).
Proof.
  intros Hfuel. unfold processRecord.
  returns_step (modifyStats_steady add_totalProcessed).
  returns_step (log_quiet INFO "Processing record").
  apply (keeps_bind anyhow anyhow_trans);
    [apply postToTwitter_returns; rewrite Z.sub_0_r; exact Hfuel | intros result].
  destruct result as [result|];
    [| apply (keeps_anyhow _ _ (log_quiet ERROR "Failed to process record"))].
  destruct (negb (String.eqb (tweetId result) ""));
    [| apply (keeps_anyhow _ _ (log_quiet ERROR "Failed to process record"))].
  apply (keeps_bind anyhow anyhow_trans);
    [eapply keeps_anyhow, saveProcessedId_steady | intros _].
  returns_step (log_quiet SUCCESS "Successfully processed record").
  eapply keeps_anyhow, rateLimitedDelay_steady.
Qed.

Lemma processAll_returns (fuel : nat) (records : list Answer.row) :
  (Z.to_nat (maxRetries config) < fuel)%nat ->
  keeps anyhow (processAll config env fuel records).
Proof.
  intros Hfuel. induction records as [|record rest IH]; simpl.
  - apply (keeps_ret anyhow); intros ?; exact I.
  - apply (keeps_bind anyhow anyhow_trans); [apply processRecord_returns, Hfuel | intros _].
    exact IH.
Qed.

End Termination.

(** X16: when no lookup fails with a rate-limit error, a poll cycle run
    with more fuel than [maxRetries] returns: every candidate is given up
    after [maxRetries] retries at the latest, whatever the stores and the
    post-reply operation answer. *)
Theorem processNewRecords_returns (config : Config) (env : Env) (fuel : nat)
    (st : Bot) :
  lookupsUnlimited env ->
  (Z.to_nat (maxRetries config) < fuel)%nat ->
  exists st', processNewRecords config env fuel st = Some (tt, st').
Proof.
  intros Hun Hfuel.
  enough (wp (processNewRecords config env fuel) (fun _ _ => True) st) as H.
  { apply wp_run in H. destruct H as [[] [st' [H _]]]. exists st'. exact H. }
  unfold processNewRecords.
  apply wp_bind. eapply wp_mono; [| apply getNewRecords_spec].
  intros records st1 _. cbv beta.
  destruct (List.length records =? 0)%nat.
  - exact I.
  - apply wp_bind. unfold wp at 1. rewrite log_run.
    apply wp_bind. eapply wp_mono; [| apply (processAll_returns config env Hun fuel records Hfuel)].
    intros _ st2 _. exact I.
Qed.

Lemma processNewRecords_returns_witness :
  exists st',
    processNewRecords defaultConfig (healthyEnv [sampleRecord]) 4 (newBot 0 [])
    = Some (tt, st').
Proof.
  apply processNewRecords_returns.
  - intros i error E. discriminate E.
  - vm_compute. lia.
Defined.

(** X17: whatever the collaborators answer, a run of [postToTwitter] for a
    record that returns has called the post-reply operation at most
    1 + maxRetries times, less the retries already made.  Each of these calls
    replies to the [tweet_id] of the record with the cleaned and cut answer
    of the record, a text that is not empty and has at most 20000 code
    units.  The only id the run may have added to the seen-set is the id of
    the record, and it has not counted the record as processed. *)
Theorem postToTwitter_replies (config : Config) (env : Env) (fuel : nat)
    (record : Answer.row) (retryCount : nat) (st st' : Bot)
    (result : option PostResult) :
  postToTwitter config env fuel record retryCount st = Some (result, st') ->
  exists evs,
    deliveries (trace st') = deliveries (trace st) ++ evs
    /\ Forall (replyOf record) evs
    /\ tweetCalls st' = (tweetCalls st + List.length (List.filter isCallTweet evs))%nat
    /\ (List.length (List.filter isCallTweet evs)
        <= 1 + Z.to_nat (maxRetries config - Z.of_nat retryCount))%nat
    /\ (forall x, x ∈ processedIds st' -> x ∈ processedIds st \/ x = Answer.id record)
    /\ totalProcessed (stats st') = totalProcessed (stats st).
Proof.
  intros E. apply postToTwitter_posted in E.
  destruct E as (_ & N & T & evs & D & F & C & B).
  exists evs. repeat (split; [assumption|]). exact T.
Qed.

Lemma postToTwitter_replies_witness :
  exists result st' evs,
    postToTwitter defaultConfig rateLimitedEnv 4 sampleRecord 0 (newBot 0 [])
    = Some (result, st')
    /\ deliveries (trace st') = deliveries (trace (newBot 0 [])) ++ evs
    /\ Forall (replyOf sampleRecord) evs
    /\ (List.length (List.filter isCallTweet evs) <= 4)%nat.
Proof.
  destruct (postToTwitter defaultConfig rateLimitedEnv 4 sampleRecord 0
              (newBot 0 [])) as [[result st']|] eqn:E; [| vm_compute in E; discriminate].
  destruct (postToTwitter_replies _ _ _ _ _ _ _ _ E) as [evs (D & F & _ & B & _)].
  exists result, st', evs. split; [reflexivity|]. split; [exact D|].
  split; [exact F | exact B].
Defined.

Section CycleMore.

Variable config : Config.
Variable env : Env.

Lemma getNewRecords_frame (st : Bot) :
  wp (getNewRecords env)
    (fun records st' =>
       records = List.filter (unseen (processedIds st)) (fetchedRows env st)
       /\ steady st st'
       /\ processedIds st' = processedIds st
       /\ processed_records st' = processed_records st
       /\ tweetCalls st' = tweetCalls st
       /\ singleTweetCalls st' = singleTweetCalls st
       /\ railwayAttempts st' = railwayAttempts st
       /\ deliveries (trace st') = deliveries (trace st)
       /\ stats st'
          = match firstRows env (lastCheckTime st) (mainAttempts st) 3 0 with
            | Some _ => stats st
            | None => add_errors (stats st)
            end)
    st.
Proof.
  unfold getNewRecords. apply wp_bind. unfold wp at 1, get. apply wp_bind.
  eapply wp_mono; [| apply (log_idle DEBUG)].
  intros ? st0 (S0 & R0 & M0). cbv beta.
  apply wp_bind. unfold executeQuery. change (Z.to_nat maxAttempts) with 3%nat.
  eapply wp_mono; [| apply executeQueryFrom_main].
  intros r st1 (S1 & R1 & Hr). cbv beta.
  pose proof (storage_trans _ _ _ S0 S1) as S01.
  destruct S01 as ((?&?&?)&Hids&Htab&Hstats&?&?&Hdel).
  rewrite fetchedRows_firstRows. rewrite <- M0, <- Hr.
  destruct r as [rows|]; cbn; unfold steady; cbn;
    rewrite ?deliveries_app; cbn; rewrite ?app_nil_r.
  - rewrite Hids. repeat split; auto. congruence.
  - rewrite Hstats. repeat split; auto. congruence.
Qed.

Lemma processRecord_cycle (fuel : nat) (record : Answer.row) (st st' : Bot) :
  processRecord config env fuel record st = Some (tt, st') ->
  ledgerKept st st'
  /\ (forall x, x ∈ processedIds st' -> x ∈ processedIds st \/ x = Answer.id record)
  /\ totalProcessed (stats st') = totalProcessed (stats st) + 1
  /\ (tweetCalls st' <= tweetCalls st + (1 + Z.to_nat (maxRetries config)))%nat.
Proof.
  intros E. unfold processRecord in E. unfold bind at 1 in E.
  cbn [modifyStats modify] in E.
  assert (respects (posted record (0 + ((1 + Z.to_nat (maxRetries config - Z.of_nat 0)) + 0)))
            (log INFO "Processing record" ;;
             let* tweetResult := postToTwitter config env fuel record 0 in
             match tweetResult with
             | Some result =>
                 if negb (String.eqb (tweetId result) "") then
                   saveProcessedId env (Answer.id record) (Some (tweetId result))
                     (Answer.tweet_id record) "success" (Some (contentLength result))
                     (Answer.poi_transaction record) ;;
                   log SUCCESS "Successfully processed record" ;;
                   rateLimitedDelay config
                 else log ERROR "Failed to process record"
             | None => log ERROR "Failed to process record"
             end)) as H.
  { apply respects_posted_bind; [apply quiet_respects_posted, log_quiet | intros _].
    apply respects_posted_bind; [apply postToTwitter_posted | intros result].
    destruct result as [result|]; [| apply quiet_respects_posted, log_quiet].
    destruct (negb (String.eqb (tweetId result) ""));
      [| apply quiet_respects_posted, log_quiet].
    apply (respects_posted_bind record 0 0); [apply saveProcessedId_posted | intros _].
    apply (respects_posted_bind record 0 0);
      [apply quiet_respects_posted, log_quiet | intros _].
    apply quiet_respects_posted. unfold rateLimitedDelay.
    apply (keeps_when quiet quiet_refl).
    apply (keeps_bind quiet quiet_trans); [apply log_quiet | intros _].
    apply sleep_quiet. discriminate. }
  apply H in E. destruct E as (L & N & T & evs & _ & _ & C & B).
  cbn in N, T, C. split; [exact L|]. split; [exact N|].
  split; [rewrite T; reflexivity|].
  rewrite Z.sub_0_r in B. lia.
Qed.

Lemma processAll_cycle (fuel : nat) (records : list Answer.row) :
  forall st st',
    processAll config env fuel records st = Some (tt, st') ->
    ledgerKept st st'
    /\ (forall x, x ∈ processedIds st' ->
        x ∈ processedIds st \/ In x (map Answer.id records))
    /\ totalProcessed (stats st')
       = totalProcessed (stats st) + Z.of_nat (List.length records)
    /\ (tweetCalls st'
        <= tweetCalls st + List.length records * (1 + Z.to_nat (maxRetries config)))%nat.
Proof.
  induction records as [|record rest IH]; intros st st' E.
  - injection E as <-. split; [apply ledgerKept_same; reflexivity|].
    split; [auto|]. split; [cbn; lia | cbn; lia].
  - cbn [processAll] in E. unfold bind in E.
    destruct (processRecord config env fuel record st) as [[[] st1]|] eqn:E1;
      [| discriminate].
    apply processRecord_cycle in E1. apply IH in E.
    destruct E1 as (L1 & N1 & T1 & C1). destruct E as (L2 & N2 & T2 & C2).
    split; [exact (ledgerKept_trans _ _ _ L1 L2)|]. split.
    + intros x Hx. cbn. destruct (N2 x Hx) as [H | H]; [| auto].
      destruct (N1 x H) as [H1 | H1]; auto.
    + cbn [List.length]. split; [lia|]. lia.
Qed.

End CycleMore.

(** X18: whatever the collaborators answer, a poll cycle that returns
    keeps the ledger sound: the primary key of the table still holds, every
    row there was is still there with its creation fields, the seen-set has
    only grown, and only by ids of candidates of this cycle; if every id of
    the seen-set had a row in the table before, this is so afterwards.  The
    cycle counts each candidate once in [totalProcessed] and calls the
    post-reply operation at most 1 + maxRetries times per candidate. *)
Theorem processNewRecords_cycle (config : Config) (env : Env) (fuel : nat)
    (st st' : Bot) :
  processNewRecords config env fuel st = Some (tt, st') ->
  let records := List.filter (unseen (processedIds st)) (fetchedRows env st) in
  (primaryKey (processed_records st) -> primaryKey (processed_records st'))
  /\ processedIds st ⊆ processedIds st'
  /\ (forall x, x ∈ processedIds st' ->
      x ∈ processedIds st \/ In x (map Answer.id records))
  /\ (forall r, In r (processed_records st) ->
      exists r', In r' (processed_records st') /\ sameOrigin r r')
  /\ ((forall x, x ∈ processedIds st ->
         In (Id.text x) (map Ledger.record_id (processed_records st))) ->
      forall x, x ∈ processedIds st' ->
        In (Id.text x) (map Ledger.record_id (processed_records st')))
  /\ totalProcessed (stats st')
     = totalProcessed (stats st) + Z.of_nat (List.length records)
  /\ (tweetCalls st'
      <= tweetCalls st + List.length records * (1 + Z.to_nat (maxRetries config)))%nat.
Proof.
  intros E records. unfold processNewRecords in E. unfold bind at 1 in E.
  pose proof (getNewRecords_frame env st) as G. unfold wp in G.
  destruct (getNewRecords env st) as [[records' st1]|]; [| discriminate].
  destruct G as (Hrec & _ & Hids & Htab & Hcalls & _ & _ & _ & Hstats).
  fold records in Hrec. subst records'.
  assert (totalProcessed (stats st1) = totalProcessed (stats st)) as Htot
    by (rewrite Hstats; destruct (firstRows _ _ _ _ _); reflexivity).
  assert (ledgerKept st st1) as L0 by (apply ledgerKept_same; assumption).
  enough (ledgerKept st1 st'
          /\ (forall x, x ∈ processedIds st' ->
              x ∈ processedIds st1 \/ In x (map Answer.id records))
          /\ totalProcessed (stats st')
             = totalProcessed (stats st1) + Z.of_nat (List.length records)
          /\ (tweetCalls st'
              <= tweetCalls st1
                 + List.length records * (1 + Z.to_nat (maxRetries config)))%nat)
    as (L & N & T & C).
  { destruct (ledgerKept_trans _ _ _ L0 L) as (K1 & K2 & K3 & K4).
    split; [exact K1|]. split; [exact K2|].
    split; [rewrite <- Hids; exact N|]. split; [exact K3|]. split; [exact K4|].
    split; [lia | lia]. }
  destruct (List.length records =? 0)%nat eqn:Hlen.
  - apply Nat.eqb_eq in Hlen. injection E as <-. rewrite Hlen.
    split; [apply ledgerKept_same; reflexivity|]. split; [auto|].
    split; [cbn; lia | cbn; lia].
  - unfold bind at 1 in E. rewrite log_run in E. unfold bind at 1 in E.
    destruct (processAll config env fuel records
                (logged INFO "Starting to process new records" st1))
      as [[[] st2]|] eqn:P; [| discriminate].
    apply processAll_cycle in P. cbn in E. injection E as <-. exact P.
Qed.

Section Paths.

Variable config : Config.
Variable env : Env.
Variable record : Answer.row.
Variable answer : string.

Hypothesis found : forall i, exists headers, singleTweet env i = inl headers.
Hypothesis has_answer : Answer.answer record = Some answer.
Hypothesis has_content :
  String.eqb (cleanAnswerForTwitter answer) ""
  || (trimLength (cleanAnswerForTwitter answer) =? 0) = false.

Let text : string := truncate (cleanAnswerForTwitter answer).

Ltac quiet_step lem s H :=
  apply wp_bind; eapply wp_mono; [| apply lem]; intros ? s H; cbv beta in H |- *.

(** One attempt up to the answer of the post-reply operation. *)
Lemma postToTwitter_call (retryCount fuel : nat) (st : Bot)
    (Q : option PostResult -> Bot -> Prop) :
  (forall st1,
      quiet st st1 ->
      wp (match tweet env (tweetCalls st) with
          | inl (postedId, headers) =>
              updateRateLimitInfo Endpoint.tweets headers ;;
              log SUCCESS "Successfully posted reply" ;;
              modifyStats add_successfulPosts ;;
              ret (Some {| tweetId := postedId; contentLength := jsLength text |})
          | inr error =>
              postCatch config env (postToTwitter config env fuel record (S retryCount))
                record retryCount error
          end) Q (posting text (Answer.tweet_id record) st1)) ->
  wp (postToTwitter config env (S fuel) record retryCount) Q st.
Proof.
  intros Hrest. cbn [postToTwitter].
  quiet_step (log_quiet DEBUG) s0 Q0.
  apply wp_bind. eapply wp_mono; [| apply (validateTweet_found env); exact found].
  intros b s1 [-> Q1]. cbn [negb]. rewrite has_answer. cbv zeta.
  rewrite has_content.
  quiet_step checkRateLimit_quiet s2 Q2.
  quiet_step when_wait_quiet s3 Q3.
  quiet_step (log_quiet INFO) s4 Q4.
  apply wp_bind. unfold wp at 1. rewrite callTweet_run.
  pose proof (quiet_trans _ _ _ Q0 (quiet_trans _ _ _ Q1
               (quiet_trans _ _ _ Q2 (quiet_trans _ _ _ Q3 Q4)))) as Qa.
  assert (tweetCalls s4 = tweetCalls st) as -> by apply Qa.
  apply Hrest. exact Qa.
Qed.

Lemma postToTwitter_success_run (retryCount fuel : nat) (st : Bot)
    (postedId : string) (headers : option Headers) :
  tweet env (tweetCalls st) = inl (postedId, headers) ->
  wp (postToTwitter config env (S fuel) record retryCount)
    (fun result st' =>
       result = Some {| tweetId := postedId; contentLength := jsLength text |}
       /\ steady st st'
       /\ processedIds st' = processedIds st
       /\ processed_records st' = processed_records st
       /\ railwayAttempts st' = railwayAttempts st
       /\ tweetCalls st' = S (tweetCalls st)
       /\ deliveries (trace st')
          = deliveries (trace st) ++ [CallTweet text (Answer.tweet_id record)]
       /\ totalProcessed (stats st') = totalProcessed (stats st)
       /\ successfulPosts (stats st') = successfulPosts (stats st) + 1
       /\ failedPosts (stats st') = failedPosts (stats st)
       /\ skippedRecords (stats st') = skippedRecords (stats st)
       /\ errors (stats st') = errors (stats st))
    st.
Proof.
  intros Hok. apply postToTwitter_call. intros s1 Q1. rewrite Hok.
  quiet_step updateRateLimitInfo_quiet s2 Q2.
  quiet_step (log_quiet SUCCESS) s3 Q3.
  pose proof (quiet_trans _ _ _ Q2 Q3) as Q. clear Q2 Q3.
  destruct Q1 as ((?&?&?)&?&?&?&?&?&?&?&?&?&?&?).
  destruct Q as ((?&?&?)&?&?&?&?&?&?&?&?&?&?&?).
  unfold wp, bind, modifyStats, modify, ret, posting in *. cbn in *.
  rewrite deliveries_app in *. cbn in *.
  split; [reflexivity|]. unfold steady, deliveries in *.
  repeat split; cbn; congruence || lia.
Qed.

End Paths.

(** X19: a candidate whose target is found and whose reply is accepted by
    the first call of the post-reply operation, with a posted id that is not
    empty and the ledger store reachable.  The loop body of
    [processNewRecords] makes that one call, replying to [tweet_id] with the
    cleaned and cut answer; it counts the record as processed and as a
    successful post; it upserts the row of the record with status 'success',
    the posted id and the length of the text, at the time of the write; it
    adds the id to the seen-set; and it ends by sleeping
    [minDelayBetweenPosts] when that is positive. *)
Theorem processRecord_success (config : Config) (env : Env) (fuel : nat)
    (record : Answer.row) (answer postedId : string) (headers : option Headers)
    (st : Bot) :
  (forall i, exists h, singleTweet env i = inl h) ->
  Answer.answer record = Some answer ->
  String.eqb (cleanAnswerForTwitter answer) ""
  || (trimLength (cleanAnswerForTwitter answer) =? 0) = false ->
  tweet env (tweetCalls st) = inl (postedId, headers) ->
  postedId <> ""%string ->
  railwayReachable env st = true ->
  let text := truncate (cleanAnswerForTwitter answer) in
  exists st',
    processRecord config env (S fuel) record st = Some (tt, st')
    /\ deliveries (trace st')
       = deliveries (trace st) ++ [CallTweet text (Answer.tweet_id record)]
    /\ tweetCalls st' = S (tweetCalls st)
    /\ totalProcessed (stats st') = totalProcessed (stats st) + 1
    /\ successfulPosts (stats st') = successfulPosts (stats st) + 1
    /\ failedPosts (stats st') = failedPosts (stats st)
    /\ skippedRecords (stats st') = skippedRecords (stats st)
    /\ errors (stats st') = errors (stats st)
    /\ processedIds st' = {[ Answer.id record ]} ∪ processedIds st
    /\ (exists t,
          now st <= t <= now st'
          /\ processed_records st'
             = upsert t
                 (insertedRow t (Id.text (Answer.id record)) (Some postedId)
                    (Answer.tweet_id record) "success" (Some (jsLength text))
                    (Answer.poi_transaction record))
                 (processed_records st))
    /\ (0 < minDelayBetweenPosts config ->
        now st + minDelayBetweenPosts config <= now st'
        /\ exists tr,
            trace st' = tr ++ [Sleep PostDelay (minDelayBetweenPosts config)]).
Proof.
  intros Hfound Hanswer Hcontent Hok Hid Hup text. subst text.
  match goal with
  | |- exists st', ?m st = Some (tt, st') /\ @?P st' =>
      enough (wp m (fun _ st' => P st') st) as H
  end.
  { apply wp_run in H. destruct H as [[] [st' [Hrun H]]]. exists st'. split; assumption. }
  unfold processRecord.
  apply wp_bind. unfold wp at 1. cbn [modifyStats modify].
  apply wp_bind. eapply wp_mono; [| apply (log_quiet INFO)].
  intros ? sb Qb. cbv beta in Qb |- *.
  apply wp_bind. eapply wp_mono;
    [| apply (postToTwitter_success_run config env record answer Hfound Hanswer
                Hcontent 0 fuel sb postedId headers)].
  2:{ replace (tweetCalls sb) with (tweetCalls st) by (symmetry; apply Qb). exact Hok. }
  intros result sc (-> & Sc & Hids & Htab & Hrail & Hcalls & Hdel & Hc1 & Hc2 & Hc3 & Hc4 & Hc5).
  cbn [tweetId contentLength].
  destruct (String.eqb_spec postedId "") as [E|_]; [contradiction|]. cbn [negb].
  apply wp_bind. eapply wp_mono; [| apply saveProcessedId_spec].
  intros ? sd [Rd Hd]. cbv beta in Rd, Hd |- *.
  destruct Qb as ((?&?&?)&?&?&?&Hrb&?&?&?&?&?&?&?). cbn in *.
  rewrite (railwayReachable_same env st sc) in Hd by congruence.
  rewrite Hup in Hd. destruct Hd as (Htd & Hid' & Herr).
  destruct Rd as ((?&?&?)&?&?&?&?&?&?&?&?).
  apply wp_bind. eapply wp_mono; [| apply (log_quiet SUCCESS)].
  intros ? se Qe. cbv beta in Qe |- *.
  destruct Qe as ((?&?&?)&?&?&?&?&?&?&?&?&?&?&?).
  destruct Sc as (?&?&?).
  unfold rateLimitedDelay.
  assert (processed_records se
          = upsert (now sd)
              (insertedRow (now sd) (Id.text (Answer.id record)) (Some postedId)
                 (Answer.tweet_id record) "success"
                 (Some (jsLength (truncate (cleanAnswerForTwitter answer))))
                 (Answer.poi_transaction record))
              (processed_records st)) as Htable by congruence.
  destruct (Z.gtb_spec (minDelayBetweenPosts config) 0) as [Hd|Hd].
  - unfold wp, when, bind, log, sleep, emit, modify. cbn.
    rewrite !deliveries_app. cbn. rewrite !app_nil_r. unfold deliveries in *.
    repeat (split; [congruence || lia|]).
    split; [exists (now sd); split; [lia | exact Htable]|].
    intros _. split; [lia|]. eexists. reflexivity.
  - unfold wp, when, ret. unfold deliveries in *.
    repeat (split; [congruence || lia|]).
    split; [exists (now sd); split; [lia | exact Htable]|].
    intros Hpos. lia.
Qed.

Lemma processRecord_success_witness :
  exists st',
    processRecord defaultConfig (healthyEnv []) 1 sampleRecord (newBot 0 [])
    = Some (tt, st')
    /\ tweetCalls st' = 1%nat
    /\ successfulPosts (stats st') = 1
    /\ processedIds st' = {[ Answer.id sampleRecord ]} ∪ ∅.
Proof.
  destruct (processRecord_success defaultConfig (healthyEnv []) 0 sampleRecord
              "Hello world" "1001" None (newBot 0 []))
    as [st' (Hrun & _ & Hcalls & _ & Hsucc & _ & _ & _ & Hids & _)].
  - intros i. exists None. reflexivity.
  - reflexivity.
  - vm_compute. reflexivity.
  - reflexivity.
  - discriminate.
  - reflexivity.
  - exists st'. split; [exact Hrun|]. split; [exact Hcalls|].
    split; [exact Hsucc | exact Hids].
Defined.

(** X20: when the target is found and the first call of the post-reply
    operation fails with an error that is not a rate-limit error,
    [postToTwitter] does not retry: it returns null after this one call and
    counts one failed post.  If the error does not look like a deleted
    target, nothing is written and one error is counted.  If it does, the
    record is counted as skipped as well and a row with status
    'skipped_tweet_deleted' and a null posted id is upserted, the id joining
    the seen-set; when the ledger store is down, the table and the seen-set
    stay as they were and a second error is counted. *)
Theorem postToTwitter_error_no_retry (config : Config) (env : Env) (fuel : nat)
    (record : Answer.row) (answer : string) (retryCount : nat)
    (error : ApiError.t) (st : Bot) :
  (forall i, exists h, singleTweet env i = inl h) ->
  Answer.answer record = Some answer ->
  String.eqb (cleanAnswerForTwitter answer) ""
  || (trimLength (cleanAnswerForTwitter answer) =? 0) = false ->
  tweet env (tweetCalls st) = inr error ->
  isRateLimitError error = false ->
  let text := truncate (cleanAnswerForTwitter answer) in
  exists st',
    postToTwitter config env (S fuel) record retryCount st = Some (None, st')
    /\ deliveries (trace st')
       = deliveries (trace st) ++ [CallTweet text (Answer.tweet_id record)]
    /\ tweetCalls st' = S (tweetCalls st)
    /\ failedPosts (stats st') = failedPosts (stats st) + 1
    /\ successfulPosts (stats st') = successfulPosts (stats st)
    /\ totalProcessed (stats st') = totalProcessed (stats st)
    /\ (isTargetGone error = false ->
        processedIds st' = processedIds st
        /\ processed_records st' = processed_records st
        /\ railwayAttempts st' = railwayAttempts st
        /\ skippedRecords (stats st') = skippedRecords (stats st)
        /\ errors (stats st') = errors (stats st) + 1)
    /\ (isTargetGone error = true ->
        skippedRecords (stats st') = skippedRecords (stats st) + 1
        /\ if railwayReachable env st
           then processedIds st' = {[ Answer.id record ]} ∪ processedIds st
                /\ errors (stats st') = errors (stats st) + 1
                /\ exists t,
                    now st <= t <= now st'
                    /\ processed_records st'
                       = upsert t
                           (insertedRow t (Id.text (Answer.id record)) None
                              (Answer.tweet_id record) "skipped_tweet_deleted"
                              None (Answer.poi_transaction record))
                           (processed_records st)
           else processedIds st' = processedIds st
                /\ processed_records st' = processed_records st
                /\ errors (stats st') = errors (stats st) + 2).
Proof.
  intros Hfound Hanswer Hcontent Herr Hrl text. subst text.
  match goal with
  | |- exists st', ?m st = Some (None, st') /\ @?P st' =>
      enough (wp m (fun result st' => result = None /\ P st') st) as H
  end.
  { apply wp_run in H. destruct H as [result [st' [Hrun [-> H]]]].
    exists st'. split; assumption. }
  apply (postToTwitter_call config env record answer Hfound Hanswer Hcontent).
  intros s1 Q1. rewrite Herr. unfold postCatch.
  apply wp_bind. eapply wp_mono; [| apply updateRateLimitInfo_quiet].
  intros ? s2 Q2. cbv beta in Q2 |- *. rewrite Hrl. unfold postFailed.
  apply wp_bind. eapply wp_mono; [| apply (log_quiet ERROR)].
  intros ? s3 Q3. cbv beta in Q3 |- *.
  pose proof (quiet_trans _ _ _ Q2 Q3) as Q. clear Q2 Q3.
  destruct Q1 as ((?&?&?)&?&?&?&?&?&?&?&?&?&?&?).
  destruct Q as ((?&?&?)&?&?&?&?&?&?&?&?&?&?&?).
  unfold posting in *. cbn in *. rewrite deliveries_app in *. cbn in *.
  apply wp_bind. unfold wp at 1. cbn [modifyStats modify].
  apply wp_bind. unfold wp at 1. cbn [modifyStats modify].
  apply wp_bind.
  destruct (isTargetGone error).
  - apply wp_bind. eapply wp_mono; [| apply (log_quiet WARN)].
    intros ? s4 Q4. cbv beta in Q4 |- *.
    destruct Q4 as ((?&?&?)&?&?&?&?&?&?&?&?&?&?&?). cbn in *.
    apply wp_bind. unfold wp at 1. cbn [modifyStats modify].
    eapply wp_mono; [| apply saveProcessedId_spec].
    intros ? s5 [R5 W5]. cbv beta in R5, W5 |- *.
    rewrite (railwayReachable_same env st) in W5 by (cbn; congruence).
    destruct R5 as ((?&?&?)&?&?&?&?&?&?&?&?). cbn in *.
    unfold wp, ret. unfold deliveries in *.
    split; [reflexivity|].
    repeat (split; [congruence || lia|]).
    destruct (railwayReachable env st).
    + destruct W5 as (Htab & Hids & Herrs). cbn in *.
      split; [congruence|]. split; [lia|].
      exists (now s5). split; [lia | congruence].
    + destruct W5 as (Htab & Hids & Herrs & _). cbn in *.
      split; [congruence|]. split; [congruence | lia].
  - eapply wp_mono; [| apply (log_quiet ERROR)].
    intros ? s4 Q4. cbv beta in Q4 |- *.
    destruct Q4 as ((?&?&?)&?&?&?&?&?&?&?&?&?&?&?). cbn in *.
    unfold wp, ret. unfold deliveries in *.
    split; [reflexivity|].
    repeat (split; [congruence || lia|]).
    split; [intros _; repeat split; congruence || lia | intros; discriminate].
Qed.

Lemma postToTwitter_error_no_retry_witness :
  exists st',
    postToTwitter defaultConfig deletedEnv 1 sampleRecord 0 (newBot 0 [])
    = Some (None, st')
    /\ tweetCalls st' = 1%nat
    /\ failedPosts (stats st') = 1
    /\ skippedRecords (stats st') = 1
    /\ processedIds st' = {[ Answer.id sampleRecord ]} ∪ ∅.
Proof.
  destruct (postToTwitter_error_no_retry defaultConfig deletedEnv 0 sampleRecord
              "Hello world" 0 deletedError (newBot 0 []))
    as [st' (Hrun & _ & Hcalls & Hfail & _ & _ & _ & Hgone)].
  - intros i. exists None. reflexivity.
  - reflexivity.
  - vm_compute. reflexivity.
  - reflexivity.
  - reflexivity.
  - destruct (Hgone ltac:(vm_compute; reflexivity)) as [Hskip Hsave].
    change (railwayReachable deletedEnv (newBot 0 [])) with true in Hsave.
    destruct Hsave as [Hids _].
    exists st'. split; [exact Hrun|]. split; [exact Hcalls|].
    split; [exact Hfail|]. split; [exact Hskip | exact Hids].
Defined.

Lemma processNewRecords_cycle_witness :
  exists st',
    processNewRecords defaultConfig (healthyEnv [sampleRecord]) 1 (newBot 0 [])
    = Some (tt, st')
    /\ primaryKey (processed_records st')
    /\ totalProcessed (stats st') = 1
    /\ (tweetCalls st' <= 4)%nat.
Proof.
  destruct (processNewRecords defaultConfig (healthyEnv [sampleRecord]) 1
              (newBot 0 [])) as [[[] st']|] eqn:E; [| vm_compute in E; discriminate].
  destruct (processNewRecords_cycle defaultConfig (healthyEnv [sampleRecord]) 1
              (newBot 0 []) st' E) as (K & _ & _ & _ & _ & T & C).
  exists st'. split; [reflexivity|]. split; [apply K; constructor|].
  split; [exact T | exact C].
Defined.

(** X21: when the three attempts of the SELECT on the main store all fail,
    the poll cycle returns without candidates, whatever the fuel: it leaves
    the watermark, the seen-set, the ledger and the Twitter client untouched,
    counts one error and nothing else, and its last two log entries are the
    error of the poller and 'No new records to process'. *)
Theorem processNewRecords_source_down (config : Config) (env : Env) (fuel : nat)
    (st : Bot) :
  (forall k, (k < 3)%nat ->
     mainSelect env (mainAttempts st + k) (lastCheckTime st) = None) ->
  exists st',
    processNewRecords config env fuel st = Some (tt, st')
    /\ lastCheckTime st' = lastCheckTime st
    /\ stats st' = add_errors (stats st)
    /\ processedIds st' = processedIds st
    /\ processed_records st' = processed_records st
    /\ railwayAttempts st' = railwayAttempts st
    /\ tweetCalls st' = tweetCalls st
    /\ singleTweetCalls st' = singleTweetCalls st
    /\ deliveries (trace st') = deliveries (trace st)
    /\ exists tr,
        trace st'
        = tr ++ [Log ERROR "Error getting new records from database";
                 Log INFO "No new records to process"].
Proof.
  intros Hdown.
  match goal with
  | |- exists st', ?m st = Some (tt, st') /\ @?P st' =>
      enough (wp m (fun _ st' => P st') st) as H
  end.
  { apply wp_run in H. destruct H as [[] [st' [Hrun H]]]. exists st'. split; assumption. }
  assert (firstRows env (lastCheckTime st) (mainAttempts st) 3 0 = None) as Hnone.
  { pose proof (Hdown 0%nat ltac:(lia)) as H0.
    pose proof (Hdown 1%nat ltac:(lia)) as H1.
    pose proof (Hdown 2%nat ltac:(lia)) as H2.
    rewrite Nat.add_0_r in H0. rewrite Nat.add_1_r in H1.
    replace (mainAttempts st + 2)%nat with (S (S (mainAttempts st))) in H2 by lia.
    cbn. rewrite H0, H1, H2. reflexivity. }
  unfold processNewRecords. apply wp_bind. unfold getNewRecords.
  apply wp_bind. unfold wp at 1, get. apply wp_bind.
  eapply wp_mono; [| apply (log_idle DEBUG)].
  intros ? st0 (S0 & R0 & M0). cbv beta.
  apply wp_bind. unfold executeQuery. change (Z.to_nat maxAttempts) with 3%nat.
  eapply wp_mono; [| apply executeQueryFrom_main].
  intros r st1 (S1 & R1 & Hr). cbv beta.
  rewrite M0, Hnone in Hr. subst r.
  pose proof (storage_trans _ _ _ S0 S1) as S01.
  destruct S01 as ((?&?&?)&Hids&Htab&Hstats&?&?&Hdel).
  unfold wp, bind, log, emit, modifyStats, modify, ret. cbn.
  rewrite !deliveries_app. cbn. rewrite !app_nil_r.
  repeat (split; [congruence|]).
  eexists. rewrite <- app_assoc. reflexivity.
Qed.

Lemma processNewRecords_source_down_witness :
  exists st',
    processNewRecords defaultConfig sourceDownEnv 0 (newBot 0 []) = Some (tt, st')
    /\ lastCheckTime st' = lastCheckTime (newBot 0 [])
    /\ errors (stats st') = 1.
Proof.
  destruct (processNewRecords_source_down defaultConfig sourceDownEnv 0 (newBot 0 []))
    as [st' (Hrun & Hlast & Hstats & _)].
  - intros k Hk. reflexivity.
  - exists st'. split; [exact Hrun|]. split; [exact Hlast|].
    rewrite Hstats. reflexivity.
Defined.

(** ** Validation *)

(** A wait while the bot is running moves the clock by its length. *)
Lemma waitForRateLimit_clock (waitTime : Z) (st : Bot) :
  isRunning st = true ->
  0 < waitTime ->
  exists st',
    waitForRateLimit waitTime st = Some (tt, st')
    /\ now st' = now st + waitTime
    /\ rateLimitHits (stats st') = rateLimitHits (stats st) + 1
    /\ totalWaitTime (stats st') = totalWaitTime (stats st) + waitTime
    /\ singleTweetCalls st' = singleTweetCalls st
    /\ quiet st st'.
Proof.
  intros Hrun Hpos.
  pose proof (waitForRateLimit_quiet waitTime st) as Q.
  apply wp_run in Q. destruct Q as [[] [st' [Hrun' Q]]].
  exists st'. split; [exact Hrun'|].
  pose proof (waitForRateLimit_sameLookups waitTime st tt st' Hrun') as L.
  pose proof (chunksOf_enough waitTime Hpos) as Hfuel.
  unfold waitForRateLimit in Hrun'.
  destruct (Z.leb_spec waitTime 0); [lia|].
  unfold bind at 1 in Hrun'. cbn [log emit modify] in Hrun'.
  unfold bind at 1 in Hrun'. cbn [modifyStats modify] in Hrun'.
  unfold bind at 1 in Hrun'.
  match type of Hrun' with
  | context [waitChunks ?f ?w ?s] =>
      pose proof (waitChunks_running f w s Hrun Hfuel) as Hw;
      unfold wp in Hw; destruct (waitChunks f w s) as [[[] st1]|]; [| contradiction]
  end.
  destruct Hw as (Hn & Ht & Hr & Hs).
  cbn in Hn, Ht, Hr, Hs.
  unfold bind, get, when, log, emit, modify in Hrun'.
  rewrite Hr, Hrun in Hrun'. injection Hrun' as <-. cbn.
  rewrite Hn, Hs. cbn. rewrite slices_sum by lia.
  repeat (split; [reflexivity|]). split; [exact L | exact Q].
Qed.


(** X22: when the lookup does not fail with a rate-limit error,
    [validateTweet] makes exactly one lookup and answers whether it
    succeeded: true when the lookup returns, false for every error, whatever
    its kind.  Nothing of the delivery state changes. *)
Theorem validateTweet_single_lookup (env : Env) (fuel : nat)
    (tweetId : option string) (st : Bot) :
  (forall error,
      singleTweet env (singleTweetCalls st) = inr error ->
      isRateLimitError error = false) ->
  exists st',
    validateTweet env (S fuel) tweetId st
    = Some (lookupFound (singleTweet env (singleTweetCalls st)), st')
    /\ singleTweetCalls st' = S (singleTweetCalls st)
    /\ quiet st st'.
Proof.
  intros Hun. pose proof (validateTweet_answer env fuel tweetId st Hun) as H.
  apply wp_run in H. destruct H as [b [st' [Hrun [-> H]]]]. exists st'.
  split; assumption.
Qed.


Lemma validateTweet_single_lookup_witness :
  exists st',
    validateTweet goneEnv 1 (Some "111"%string) (newBot 0 []) = Some (false, st')
    /\ singleTweetCalls st' = 1%nat.
Proof.
  destruct (validateTweet_single_lookup goneEnv 0 (Some "111"%string) (newBot 0 []))
    as [st' (Hrun & Hcalls & _)].
  - intros error E. injection E as <-. reflexivity.
  - exists st'. split; [exact Hrun | exact Hcalls].
Defined.

Lemma checkRateLimit_unrecorded (endpoint : Endpoint.t) (st : Bot) :
  truthyNum (remaining (rateLimits st endpoint)) = false ->
  checkRateLimit endpoint st = Some ((true, 0), st).
Proof. intros H. unfold checkRateLimit, bind, get. rewrite H. reflexivity. Qed.

(** X23: a running bot whose tracker holds no remaining count for the
    lookup (none, or zero), and whose lookup is refused with a rate-limit
    error that carries a reset time in the future.
    [validateTweet] sleeps until the clock is at the reset time, counting the
    wait in [rateLimitHits] and [totalWaitTime], and then validates afresh
    from that state; when the second lookup is not rate limited its outcome
    is the answer, after two lookups in all. *)
Theorem validateTweet_waits_for_reset (env : Env) (fuel : nat)
    (tweetId : option string) (st : Bot) (error : ApiError.t) (h : Headers)
    (resetAt : Z) :
  isRunning st = true ->
  truthyNum (remaining (rateLimits st Endpoint.lookup)) = false ->
  singleTweet env (singleTweetCalls st) = inr error ->
  isRateLimitError error = true ->
  ApiError.headers error = Some h ->
  x_rate_limit_reset h = Some resetAt ->
  now st < resetAt * 1000 ->
  (forall error2,
      singleTweet env (S (singleTweetCalls st)) = inr error2 ->
      isRateLimitError error2 = false) ->
  exists st2 st',
    validateTweet env (S (S fuel)) tweetId st
    = Some (lookupFound (singleTweet env (S (singleTweetCalls st))), st')
    /\ now st2 = resetAt * 1000
    /\ singleTweetCalls st2 = S (singleTweetCalls st)
    /\ rateLimitHits (stats st2) = rateLimitHits (stats st) + 1
    /\ totalWaitTime (stats st2)
       = totalWaitTime (stats st) + (resetAt * 1000 - now st)
    /\ validateTweet env (S fuel) tweetId st2
       = Some (lookupFound (singleTweet env (S (singleTweetCalls st))), st')
    /\ singleTweetCalls st' = S (S (singleTweetCalls st))
    /\ quiet st st'.
Proof.
  intros Hrun Hbucket Herr Hrl Hh Hreset Hnow Hnext.
  remember (S fuel) as fuel' eqn:Hfuel.
  assert (exists s3,
             (updateRateLimitInfo Endpoint.lookup (Some h) ;;
              log WARN "Rate limit hit during tweet validation")
               (looking tweetId st) = Some (tt, s3)
             /\ now s3 = now st /\ isRunning s3 = true
             /\ singleTweetCalls s3 = S (singleTweetCalls st)
             /\ stats s3 = stats st
             /\ quiet st s3) as [s3 (Hs3 & Hn3 & Hr3 & Hc3 & Hst3 & Q3)].
  { eexists. split; [reflexivity|]. cbn.
    split; [reflexivity|]. split; [exact Hrun|]. split; [reflexivity|].
    split; [reflexivity|]. quiet_state. }
  destruct (waitForRateLimit_clock (resetAt * 1000 - now st) s3 Hr3 ltac:(lia))
    as [s4 (Hwait & Hn4 & Hh4 & Hw4 & Hc4 & Q4)].
  assert (validateTweet env (S fuel') tweetId st = validateTweet env fuel' tweetId s4)
    as Hround.
  { cbn [validateTweet]. unfold bind at 1.
    rewrite (checkRateLimit_unrecorded _ _ Hbucket). cbn [fst snd negb when].
    unfold bind at 1. cbn [ret]. unfold bind at 1. rewrite callSingleTweet_run, Herr.
    rewrite Hh, Hrl, Hreset.
    unfold bind at 1 in Hs3.
    unfold bind at 1.
    destruct (updateRateLimitInfo Endpoint.lookup (Some h) (looking tweetId st))
      as [[[] s2]|]; [| discriminate].
    unfold bind at 1. rewrite Hs3.
    unfold bind at 1. cbn [get]. rewrite Hn3.
    destruct (Z.gtb_spec (resetAt * 1000 - now st) 0); [| lia].
    unfold bind at 1. rewrite Hwait. reflexivity. }
  assert (forall error2,
             singleTweet env (singleTweetCalls s4) = inr error2 ->
             isRateLimitError error2 = false) as Hnext'
    by (rewrite Hc4, Hc3; exact Hnext).
  subst fuel'.
  pose proof (validateTweet_answer env fuel tweetId s4 Hnext') as H.
  apply wp_run in H. destruct H as [b [st' [Hrun' (-> & Hc' & Q')]]].
  rewrite Hc4, Hc3 in Hrun', Hc'.
  exists s4, st'. rewrite Hround.
  split; [exact Hrun'|]. split; [lia|]. split; [congruence|].
  split; [rewrite Hh4, Hst3; reflexivity|].
  split; [rewrite Hw4, Hst3; reflexivity|].
  split; [exact Hrun'|]. split; [exact Hc'|].
  eapply quiet_trans; [exact Q3|]. eapply quiet_trans; eassumption.
Qed.

Lemma validateTweet_waits_for_reset_witness :
  exists st2 st',
    validateTweet limitedOnceEnv 2 (Some "111"%string) (runningBot 0 [])
    = Some (true, st')
    /\ now st2 = 12000
    /\ totalWaitTime (stats st2) = 12000
    /\ validateTweet limitedOnceEnv 1 (Some "111"%string) st2 = Some (true, st')
    /\ singleTweetCalls st' = 2%nat.
Proof.
  destruct (validateTweet_waits_for_reset limitedOnceEnv 0 (Some "111"%string)
              (runningBot 0 []) (limitedUntil 12)
              {| x_rate_limit_remaining := Some 0; x_rate_limit_reset := Some 12;
                 x_rate_limit_limit := Some 300 |} 12)
    as [st2 [st' (Hrun & Hnow & _ & _ & Hwait & Hnext & Hcalls & _)]].
  - reflexivity.
  - reflexivity.
  - reflexivity.
  - reflexivity.
  - reflexivity.
  - reflexivity.
  - reflexivity.
  - intros error2 E. discriminate E.
  - exists st2, st'. split; [exact Hrun|]. split; [exact Hnow|].
    split; [exact Hwait|]. split; [exact Hnext | exact Hcalls].
Defined.

(** ** Recovery from a rate limit *)

Lemma delivering_delivered (e1 e2 : list Event) (c1 c2 : nat) (a b c : Bot) :
  delivering e1 c1 0 a b -> delivered e2 c2 b c -> delivered (e1 ++ e2) (c1 + c2) a c.
Proof.
  unfold delivering, delivered.
  intros (?&?&?&?&?&?&?&?&?&?) (?&?&?&?&?&?&?&?&?&?).
  rewrite app_assoc. repeat split; try congruence; lia.
Qed.

Section Recovery.

Variable config : Config.
Variable env : Env.
Variable record : Answer.row.
Variable answer : string.

Hypothesis has_answer : Answer.answer record = Some answer.
Hypothesis has_content :
  String.eqb (cleanAnswerForTwitter answer) ""
  || (trimLength (cleanAnswerForTwitter answer) =? 0) = false.

Variable postedId : string.
Variable headers : option Headers.

Let text : string := truncate (cleanAnswerForTwitter answer).

Ltac calm_step lem lemL s H L :=
  apply wp_bind; eapply wp_mono;
  [| apply (wp_respects sameLookups); [apply lemL | apply lem]];
  intros ? s [H L]; cbv beta in H, L |- *.

Lemma postToTwitter_accepted (retryCount fuel : nat) (st : Bot) :
  (exists h, singleTweet env (singleTweetCalls st) = inl h) ->
  tweet env (tweetCalls st) = inl (postedId, headers) ->
  wp (postToTwitter config env (S fuel) record retryCount)
    (fun result st' =>
       result = Some {| tweetId := postedId; contentLength := jsLength text |}
       /\ delivered [CallTweet text (Answer.tweet_id record)] 1 st st')
    st.
Proof.
  intros Hfound Hok.
  apply (postToTwitter_call_at config env record answer has_answer has_content);
    [exact Hfound|].
  intros s1 Q1 _. rewrite Hok.
  apply wp_bind. eapply wp_mono; [| apply updateRateLimitInfo_quiet].
  intros ? s2 Q2. cbv beta in Q2 |- *.
  apply wp_bind. eapply wp_mono; [| apply (log_quiet SUCCESS)].
  intros ? s3 Q3. cbv beta in Q3 |- *.
  pose proof (quiet_trans _ _ _ Q2 Q3) as Q. clear Q2 Q3.
  destruct Q1 as ((?&?&?)&?&?&?&?&?&?&?&?&?&?&?).
  destruct Q as ((?&?&?)&?&?&?&?&?&?&?&?&?&?&?).
  unfold wp, bind, modifyStats, modify, ret, posting in *. cbn in *.
  rewrite deliveries_app in *. cbn in *.
  split; [reflexivity|]. unfold delivered, deliveries, text in *. cbn.
  repeat split; cbn; congruence || lia.
Qed.

Lemma postToTwitter_recovers_from (k : nat) :
  forall (retryCount fuel : nat) (st : Bot),
    Z.of_nat retryCount + Z.of_nat k <= maxRetries config ->
    (k < fuel)%nat ->
    (forall i, (i <= k)%nat ->
       exists h, singleTweet env (singleTweetCalls st + i) = inl h) ->
    (forall i, (i < k)%nat ->
       exists error,
         tweet env (tweetCalls st + i) = inr error /\ isRateLimitError error = true) ->
    tweet env (tweetCalls st + k) = inl (postedId, headers) ->
    wp (postToTwitter config env fuel record retryCount)
      (fun result st' =>
         result = Some {| tweetId := postedId; contentLength := jsLength text |}
         /\ delivered
              (expectedDeliveries config text (Answer.tweet_id record) k retryCount)
              (S k) st st')
      st.
Proof.
  induction k as [|k IH]; intros retryCount fuel st Hmax Hfuel Hfound Hlim Hok;
    (destruct fuel as [|fuel]; [lia|]);
    pose proof (Hfound 0%nat ltac:(lia)) as Hfound0;
    rewrite Nat.add_0_r in Hfound0.
  - rewrite Nat.add_0_r in Hok. apply postToTwitter_accepted; assumption.
  - apply (postToTwitter_call_at config env record answer has_answer has_content);
      [exact Hfound0|].
    intros s1 Q1 L1.
    destruct (Hlim 0%nat ltac:(lia)) as [error [Herr Hrl]].
    rewrite Nat.add_0_r in Herr. rewrite Herr. unfold postCatch.
    calm_step updateRateLimitInfo_quiet updateRateLimitInfo_sameLookups s2 Q2 L2.
    rewrite Hrl.
    calm_step (log_quiet WARN) log_sameLookups s3 Q3 L3.
    destruct (Z.ltb_spec (Z.of_nat retryCount) (maxRetries config)); [| lia].
    calm_step (log_quiet INFO) log_sameLookups s4 Q4 L4.
    apply wp_bind. eapply wp_mono;
      [| apply (wp_respects sameLookups);
         [apply sleep_sameLookups | apply sleep_backoff_delivering]].
    intros ? s5 [D5 L5]. cbv beta in D5, L5 |- *.
    pose proof (quiet_trans _ _ _ Q2 (quiet_trans _ _ _ Q3 Q4)) as Qb.
    assert (delivering
              [CallTweet text (Answer.tweet_id record);
               Sleep Backoff (finalDelay config retryCount)] 1 0 st s5) as D.
    { eapply delivering_eq;
        [ exact (delivering_trans _ _ _ _ _ _ _ _ _ (quiet_delivering _ _ Q1)
                   (delivering_trans _ _ _ _ _ _ _ _ _
                      (posting_delivering answer (Answer.tweet_id record) s1)
                      (delivering_trans _ _ _ _ _ _ _ _ _
                         (quiet_delivering _ _ Qb) D5)))
        | reflexivity | reflexivity | reflexivity ]. }
    assert (tweetCalls s5 = S (tweetCalls st)) as Hcalls.
    { destruct D as (_&_&_&_&_&_&_&_&Hc&_). rewrite Hc. lia. }
    assert (singleTweetCalls s5 = S (singleTweetCalls st)) as Hlooks
      by (unfold sameLookups in *; cbn in L2; congruence).
    eapply wp_mono; [| apply (IH (S retryCount) fuel s5); try lia].
    + intros result st' [-> D']. split; [reflexivity|].
      exact (delivering_delivered _ _ _ _ _ _ _ D D').
    + intros i Hi. destruct (Hfound (S i) ltac:(lia)) as [h Hh].
      exists h. rewrite Hlooks.
      replace (S (singleTweetCalls st) + i)%nat
        with (singleTweetCalls st + S i)%nat by lia.
      exact Hh.
    + intros i Hi. destruct (Hlim (S i) ltac:(lia)) as [e [He Hr]].
      exists e. split; [| exact Hr]. rewrite Hcalls.
      replace (S (tweetCalls st) + i)%nat with (tweetCalls st + S i)%nat by lia.
      exact He.
    + rewrite Hcalls.
      replace (S (tweetCalls st) + k)%nat with (tweetCalls st + S k)%nat by lia.
      exact Hok.
Qed.

End Recovery.

(** X24: a reply whose target is found by the lookup made before each
    attempt, and that the post-reply operation refuses [k] times with a
    rate-limit error, [k] being at most [maxRetries], and accepts on the next
    call, is posted.  [postToTwitter] returns the posted id and the length of
    the text after [k] + 1 calls with the same text and target; each refused
    call is followed by its back-off sleep, of
    min(retryDelayMs * multiplier^attempt, maxDelayBetweenPosts) for attempt
    0, 1, ...; one successful post is counted and no failure; the ledger and
    the seen-set are left to the caller. *)
Theorem postToTwitter_recovers (config : Config) (env : Env) (fuel : nat)
    (record : Answer.row) (answer postedId : string) (headers : option Headers)
    (k : nat) (st : Bot) :
  (forall i, (i <= k)%nat ->
     exists h, singleTweet env (singleTweetCalls st + i) = inl h) ->
  Answer.answer record = Some answer ->
  String.eqb (cleanAnswerForTwitter answer) ""
  || (trimLength (cleanAnswerForTwitter answer) =? 0) = false ->
  Z.of_nat k <= maxRetries config ->
  (k < fuel)%nat ->
  (forall i, (i < k)%nat ->
     exists error,
       tweet env (tweetCalls st + i) = inr error /\ isRateLimitError error = true) ->
  tweet env (tweetCalls st + k) = inl (postedId, headers) ->
  let text := truncate (cleanAnswerForTwitter answer) in
  let attempts := expectedDeliveries config text (Answer.tweet_id record) k 0 in
  exists st',
    postToTwitter config env fuel record 0 st
    = Some (Some {| tweetId := postedId; contentLength := jsLength text |}, st')
    /\ deliveries (trace st') = deliveries (trace st) ++ attempts
    /\ backoffDelays attempts = map (finalDelay config) (seq 0 k)
    /\ List.length (List.filter isCallTweet attempts) = S k
    /\ tweetCalls st' = (tweetCalls st + S k)%nat
    /\ successfulPosts (stats st') = successfulPosts (stats st) + 1
    /\ failedPosts (stats st') = failedPosts (stats st)
    /\ errors (stats st') = errors (stats st)
    /\ skippedRecords (stats st') = skippedRecords (stats st)
    /\ processed_records st' = processed_records st
    /\ processedIds st' = processedIds st.
Proof.
  intros Hfound Hanswer Hcontent Hmax Hfuel Hlim Hok text attempts.
  pose proof (postToTwitter_recovers_from config env record answer Hanswer
                Hcontent postedId headers k 0%nat fuel st ltac:(lia) Hfuel Hfound
                Hlim Hok)
    as H.
  apply wp_run in H. destruct H as [result [st' [Hrun [-> D]]]].
  fold text in D. fold attempts in D.
  destruct D as (Htab&Hids&_&_&Hsucc&Hskip&Hfail&Herr&Hcalls&Hdel).
  exists st'. split; [exact Hrun|]. split; [exact Hdel|].
  split; [apply backoffDelays_expected|]. split; [apply deliveries_expected|].
  repeat (split; [assumption|]). exact Hids.
Qed.

Lemma postToTwitter_recovers_witness :
  exists st',
    postToTwitter defaultConfig limitedPostOnceEnv 2 sampleRecord 0 (newBot 0 [])
    = Some (Some {| tweetId := "1001";
                    contentLength :=
                      jsLength (truncate (cleanAnswerForTwitter "Hello world")) |},
            st')
    /\ tweetCalls st' = 2%nat
    /\ successfulPosts (stats st') = 1
    /\ failedPosts (stats st') = 0.
Proof.
  destruct (postToTwitter_recovers defaultConfig limitedPostOnceEnv 2 sampleRecord
              "Hello world" "1001" None 1 (newBot 0 []))
    as [st' (Hrun & _ & _ & _ & Hcalls & Hsucc & Hfail & _)].
  - intros i _. exists None. reflexivity.
  - reflexivity.
  - vm_compute. reflexivity.
  - vm_compute. discriminate.
  - lia.
  - intros i Hi. exists rateLimitError. destruct i; [| lia].
    split; reflexivity.
  - reflexivity.
  - exists st'. split; [exact Hrun|]. split; [exact Hcalls|].
    split; [exact Hsucc | exact Hfail].
Defined.

(** ** Activity summary *)

Lemma dayOf_update_same (file : option (gmap string Summary.Day))
    (logEntry : Summary.LogEntry) :
  let day := Summary.dayOf file (Summary.entryDate logEntry) in
  Summary.dayOf (Summary.updateActivitySummary file logEntry)
    (Summary.entryDate logEntry)
  = {| Summary.totalLogs := Summary.totalLogs day + 1;
       Summary.errors :=
         if Summary.isError (Summary.entryLevel logEntry)
         then Summary.errors day + 1 else Summary.errors day;
       Summary.warnings :=
         if Summary.isWarn (Summary.entryLevel logEntry)
         then Summary.warnings day + 1 else Summary.warnings day;
       Summary.successes :=
         if Summary.isSuccess (Summary.entryLevel logEntry)
         then Summary.successes day + 1 else Summary.successes day;
       Summary.activities :=
         take 10 (Summary.activityOf logEntry :: Summary.activities day) |}.
Proof.
  unfold Summary.dayOf, Summary.updateActivitySummary. cbv zeta.
  rewrite lookup_insert_eq. destruct file; reflexivity.
Qed.

Lemma dayOf_update_other (file : option (gmap string Summary.Day))
    (logEntry : Summary.LogEntry) (dateStr : string) :
  Summary.entryDate logEntry <> dateStr ->
  Summary.dayOf (Summary.updateActivitySummary file logEntry) dateStr
  = Summary.dayOf file dateStr.
Proof.
  intros H. unfold Summary.dayOf, Summary.updateActivitySummary. cbv zeta.
  rewrite lookup_insert_ne by exact H.
  destruct file; [reflexivity|]. rewrite lookup_empty. reflexivity.
Qed.

Lemma written_snoc (entries : list Summary.LogEntry) (logEntry : Summary.LogEntry) :
  Summary.written (entries ++ [logEntry])
  = Summary.updateActivitySummary (Summary.written entries) logEntry.
Proof. unfold Summary.written. rewrite fold_left_app. reflexivity. Qed.

(** X25: the entry of a day in the activity summary after any sequence of
    log entries, starting without a file.  [totalLogs] is the number of
    entries logged on that day; [errors], [warnings] and [successes] are the
    numbers of those of level ERROR, WARN and SUCCESS; [activities] holds the
    last ten of them at most, newest first.  So at most ten activities are
    kept and the three counters never add up to more than [totalLogs]. *)
Theorem updateActivitySummary_history (entries : list Summary.LogEntry)
    (dateStr : string) :
  let logged := Summary.onDay dateStr entries in
  let day := Summary.dayOf (Summary.written entries) dateStr in
  Summary.totalLogs day = Z.of_nat (List.length logged)
  /\ Summary.errors day = Summary.count Summary.isError logged
  /\ Summary.warnings day = Summary.count Summary.isWarn logged
  /\ Summary.successes day = Summary.count Summary.isSuccess logged
  /\ Summary.activities day = take 10 (rev (map Summary.activityOf logged))
  /\ (List.length (Summary.activities day) <= 10)%nat
  /\ Summary.errors day + Summary.warnings day + Summary.successes day
     <= Summary.totalLogs day.
Proof.
  cbv zeta.
  enough (Summary.totalLogs (Summary.dayOf (Summary.written entries) dateStr)
          = Z.of_nat (List.length (Summary.onDay dateStr entries))
          /\ Summary.errors (Summary.dayOf (Summary.written entries) dateStr)
             = Summary.count Summary.isError (Summary.onDay dateStr entries)
          /\ Summary.warnings (Summary.dayOf (Summary.written entries) dateStr)
             = Summary.count Summary.isWarn (Summary.onDay dateStr entries)
          /\ Summary.successes (Summary.dayOf (Summary.written entries) dateStr)
             = Summary.count Summary.isSuccess (Summary.onDay dateStr entries)
          /\ Summary.activities (Summary.dayOf (Summary.written entries) dateStr)
             = take 10 (rev (map Summary.activityOf (Summary.onDay dateStr entries))))
    as (H1 & H2 & H3 & H4 & H5).
  { repeat (split; [assumption|]). split.
    - rewrite H5, length_take. lia.
    - rewrite H1, H2, H3, H4. unfold Summary.count. clear.
      induction (Summary.onDay dateStr entries) as [|e l IH]; simpl; [lia|].
      destruct (Summary.entryLevel e); simpl; lia. }
  induction entries as [|logEntry entries IH] using rev_ind.
  - repeat split.
  - rewrite written_snoc. unfold Summary.onDay in *. rewrite List.filter_app.
    cbn [List.filter].
    destruct (String.eqb_spec (Summary.entryDate logEntry) dateStr) as [E|E].
    + subst dateStr. rewrite dayOf_update_same. cbv zeta. cbn.
      destruct IH as (H1 & H2 & H3 & H4 & H5). rewrite H1, H2, H3, H4, H5.
      unfold Summary.count. rewrite !List.filter_app, !List.length_app, map_app, rev_app_distr.
      simpl. rewrite take_take.
      repeat split; destruct (Summary.entryLevel logEntry); simpl; lia.
    + rewrite dayOf_update_other by exact E. rewrite app_nil_r. exact IH.
Qed.
